(** * Speed-Racers: policy optimisation core (GA variant and PSO variant)

    Shallow embedding of the two training programs of the repository:
    - the genetic-algorithm program (unnamed source [part_002]), here [GA];
    - the particle-swarm program (second half of [main.cpp]), here [PSO].

    Numeric model.  C++ [float] values are modelled as exact rationals [Q];
    every arithmetic operation normalises its result with [Qred], so a value
    has one representation whatever the computation that produced it.  The
    C math library ([std::cos], [std::sin], [std::atan2], [std::sqrt]) is a
    parameter of the development ([MathLib]); the theorems hold for every
    such library, and [approx_math] is one concrete rational approximation
    used to run the programs on concrete inputs.

    Reading [v[i]] of a [std::vector] outside its bounds is undefined
    behaviour in C++; it is modelled as the error branch [None]. *)

From Stdlib Require Import ZArith QArith Qround Qabs Qminmax Lqa List Lia Bool Permutation.
Import ListNotations.

Open Scope Q_scope.

(* ------------------------------------------------------------------ *)
(** ** Float operations and comparisons *)

Definition fadd (x y : Q) : Q := Qred (x + y).
Definition fsub (x y : Q) : Q := Qred (x - y).
Definition fmul (x y : Q) : Q := Qred (x * y).
Definition fdiv (x y : Q) : Q := Qred (x / y).

Definition flt (x y : Q) : bool := negb (Qle_bool y x).
Definition fle (x y : Q) : bool := Qle_bool x y.
Definition fgt (x y : Q) : bool := flt y x.
Definition fge (x y : Q) : bool := fle y x.

(** [std::clamp(v, lo, hi)] on floats. *)
Definition fclamp (v lo hi : Q) : Q :=
  if flt v lo then lo else if flt hi v then hi else v.

(** [std::clamp(v, lo, hi)] on ints. *)
Definition iclamp (v lo hi : Z) : Z :=
  if (v <? lo)%Z then lo else if (hi <? v)%Z then hi else v.

(** [static_cast<int>(q)]: truncation toward zero. *)
Definition f2i (q : Q) : Z := Z.quot (Qnum q) (Zpos (Qden q)).

(** [v[i]] on a [std::vector]; out of range is undefined behaviour. *)
Definition vec_at {A} (v : list A) (i : Z) : option A :=
  if (i <? 0)%Z then None else nth_error v (Z.to_nat i).

Notation "'let*' x := e1 'in' e2" :=
  (match e1 with Some x => e2 | None => None end)
  (at level 200, x name, e1 at level 100, e2 at level 200).

(* ------------------------------------------------------------------ *)
(** ** Constants shared by both programs *)

Definition PI : Q := 314159265 # 100000000.
Definition NUM_ANGLE_STATES : Z := 36.
Definition NUM_SPEED_STATES : Z := 6.
Definition NUM_ACTIONS : Z := 5.
Definition MIN_SPEED_THRESHOLD : Q := 1 # 10.
Definition MAX_ZERO_SPEED_STEPS : Z := 50.

(** Constants local to [Car::applyAction]. *)
Definition TURN_SPEED : Q := 5.
Definition ACCEL : Q := 1 # 5.
Definition DECEL : Q := 1 # 5.
Definition MAX_SPEED : Q := 5.

Inductive Action := STEER_LEFT | STEER_RIGHT | ACCELERATE | BRAKE | NOOP.

(** [static_cast<Action>(i)] for the enumerators' values 0..4. *)
Definition action_of_index (i : Z) : Action :=
  match i with
  | 0%Z => STEER_LEFT
  | 1%Z => STEER_RIGHT
  | 2%Z => ACCELERATE
  | 3%Z => BRAKE
  | _ => NOOP
  end.

Definition index_of_action (a : Action) : Z :=
  match a with
  | STEER_LEFT => 0 | STEER_RIGHT => 1 | ACCELERATE => 2 | BRAKE => 3 | NOOP => 4
  end.

(** [sf::Vector2f]. *)
Record Vector2f := mkV { vx : Q; vy : Q }.

Definition vadd (a b : Vector2f) : Vector2f :=
  mkV (fadd (vx a) (vx b)) (fadd (vy a) (vy b)).
Definition vsub (a b : Vector2f) : Vector2f :=
  mkV (fsub (vx a) (vx b)) (fsub (vy a) (vy b)).

(** The functions of [<cmath>] the programs call. *)
Record MathLib := {
  m_cos : Q -> Q;
  m_sin : Q -> Q;
  m_atan2 : Q -> Q -> Q;
  m_sqrt : Q -> Q
}.

(* ------------------------------------------------------------------ *)
(** ** Utility functions (identical in both programs) *)

Definition degToRad (deg : Q) : Q := fdiv (fmul deg PI) 180.

(** [radToDeg] of [main.cpp]. *)
Definition radToDeg (rad : Q) : Q := fdiv (fmul rad 180) PI.

Definition distance (M : MathLib) (a b : Vector2f) : Q :=
  let dx := fsub (vx a) (vx b) in
  let dy := fsub (vy a) (vy b) in
  m_sqrt M (fadd (fmul dx dx) (fmul dy dy)).

(** Iteration bound for the wrap-around [while] loops on angles: the loops
    below run at most [loop_fuel a] times (see [wrap_below_nonneg] and
    [wrap_above_lt]). *)
Definition loop_fuel (a : Q) : nat := S (Z.to_nat (Qceiling (Qabs a / 360))).

(** [while (angle < 0.f) angle += 360.f;] *)
Fixpoint wrap_below (fuel : nat) (a : Q) : Q :=
  match fuel with
  | O => a
  | S f => if flt a 0 then wrap_below f (fadd a 360) else a
  end.

(** [while (angle >= 360.f) angle -= 360.f;] *)
Fixpoint wrap_above (fuel : nat) (a : Q) : Q :=
  match fuel with
  | O => a
  | S f => if fge a 360 then wrap_above f (fsub a 360) else a
  end.

(** The two loops in sequence, as in [angleToDiscrete], [applyAction] and
    [setOrientation]. *)
Definition wrap360 (a : Q) : Q :=
  let a1 := wrap_below (loop_fuel a) a in
  wrap_above (loop_fuel a1) a1.

Definition angleToDiscrete (angle : Q) : Z :=
  Z.rem (f2i (fdiv (wrap360 angle) 10)) NUM_ANGLE_STATES.

Definition speedToDiscrete (speed : Q) : Z :=
  let speedState := Qfloor speed in
  iclamp speedState 0 (NUM_SPEED_STATES - 1).

(* ------------------------------------------------------------------ *)
(** ** Action selection ([Car::chooseAction], identical in both programs) *)

(** [scores[a] = policyWeights[index]] for [a = 0 .. NUM_ACTIONS-1]. *)
Fixpoint read_scores (w : list Q) (base : Z) (as_ : list Z) : option (list Q) :=
  match as_ with
  | [] => Some []
  | a :: rest =>
      let* s := vec_at w (base + a)%Z in
      let* ss := read_scores w base rest in
      Some (s :: ss)
  end.

Definition action_indices : list Z := [0; 1; 2; 3; 4]%Z.

(** [for (int a = 1; a < NUM_ACTIONS; a++) if (scores[a] > maxScore) ...] *)
Fixpoint argmax_loop (scores : list Q) (a bestAction : Z) (maxScore : Q) : Z :=
  match scores with
  | [] => bestAction
  | s :: rest =>
      if fgt s maxScore then argmax_loop rest (a + 1) a s
      else argmax_loop rest (a + 1) bestAction maxScore
  end.

Definition best_index (scores : list Q) : Z :=
  match scores with
  | [] => 0
  | s0 :: rest => argmax_loop rest 1 0 s0
  end.

(** The body of [chooseAction] once the discrete state is known. *)
Definition selectAction (w : list Q) (angleState speedState : Z) : option Action :=
  let base := (angleState * NUM_SPEED_STATES * NUM_ACTIONS
               + speedState * NUM_ACTIONS)%Z in
  let* scores := read_scores w base action_indices in
  Some (action_of_index (best_index scores)).

(** [Car::chooseAction] on the car's weights, orientation and speed. *)
Definition chooseActionFor (w : list Q) (orientation speed : Q) : option Action :=
  let angleState := angleToDiscrete orientation in
  let speedState := speedToDiscrete speed in
  selectAction w angleState speedState.

(* ------------------------------------------------------------------ *)
(** ** The genetic-algorithm program ([part_002]) *)

Module GA.

Definition MAX_STEPS_PER_EPISODE : Z := 100000.
Definition MUTATION_RATE : Q := 1 # 10.

(** The fields of [class Car] that the training code uses. *)
Record Car := mkCar {
  trainingTrackPoints : list Vector2f;
  policyWeights : list Q;
  position : Vector2f;
  orientation : Q;
  speed : Q;
  done : bool;
  steps : Z;
  targetWaypointIndex : Z
}.

Definition with_motion (c : Car) (p : Vector2f) (o s : Q) (st : Z) : Car :=
  mkCar (trainingTrackPoints c) (policyWeights c) p o s (done c) st
        (targetWaypointIndex c).
Definition with_done (c : Car) (d : bool) : Car :=
  mkCar (trainingTrackPoints c) (policyWeights c) (position c) (orientation c)
        (speed c) d (steps c) (targetWaypointIndex c).
Definition with_steps (c : Car) (st : Z) : Car :=
  mkCar (trainingTrackPoints c) (policyWeights c) (position c) (orientation c)
        (speed c) (done c) st (targetWaypointIndex c).
Definition with_target (c : Car) (t : Z) : Car :=
  mkCar (trainingTrackPoints c) (policyWeights c) (position c) (orientation c)
        (speed c) (done c) (steps c) t.

(** [Car::reset]: [position = trainingTrackPoints[0]] is read unguarded. *)
Definition reset (c : Car) : option Car :=
  let* p0 := vec_at (trainingTrackPoints c) 0 in
  Some (mkCar (trainingTrackPoints c) (policyWeights c) p0 0 0 false 0 0).

(** A car as the constructors leave it: track and weights set, then [reset()]. *)
Definition make_car (wps : list Vector2f) (w : list Q) : option Car :=
  reset (mkCar wps w (mkV 0 0) 0 0 false 0 0).

Definition chooseAction (c : Car) : option Action :=
  chooseActionFor (policyWeights c) (orientation c) (speed c).

Section WithMath.
Variable M : MathLib.

(** [Car::applyAction]; note the [BRAKE] case as written in this program. *)
Definition applyAction (act : Action) (c : Car) : Car :=
  let o := orientation c in
  let s := speed c in
  let '(o1, s1) :=
    match act with
    | STEER_LEFT => (fsub o TURN_SPEED, fadd s (fmul ACCEL (1 # 2)))
    | STEER_RIGHT => (fadd o TURN_SPEED, fadd s (fmul ACCEL (1 # 2)))
    | ACCELERATE => (o, fadd s ACCEL)
    | BRAKE => (o, fadd s ACCEL)
    | NOOP => (o, fmul s (99 # 100))
    end in
  let o2 := wrap360 o1 in
  let s2 := fclamp s1 0 MAX_SPEED in
  let rad := degToRad o2 in
  let v := mkV (fmul (m_cos M rad) s2) (fmul (m_sin M rad) s2) in
  with_motion c (vadd (position c) v) o2 s2 (steps c + 1)%Z.

(** [while (angleDiff > 180.f) angleDiff = std::abs(angleDiff - 360.f);] *)
Fixpoint fold_diff (fuel : nat) (a : Q) : Q :=
  match fuel with
  | O => a
  | S f => if fgt a 180 then fold_diff f (Qabs (fsub a 360)) else a
  end.

(** Result of one pass of the [while] body of [Car::evaluate]:
    either the loop continues with new locals, or it [break]s. *)
Inductive Step :=
  | Continue (c : Car) (totalReward : Q) (zeroSpeedSteps : Z) (lastAngleDiff : Q)
  | Break (c : Car) (totalReward : Q).

(** One pass of the loop body, entered with [!done && steps < MAX]. *)
Definition eval_body (c : Car) (totalReward : Q) (zeroSpeedSteps : Z)
    (lastAngleDiff : Q) : option Step :=
  let c := with_steps c (steps c + 1)%Z in
  let* act := chooseAction c in
  let c := applyAction act c in
  let* targetPos := vec_at (trainingTrackPoints c) (targetWaypointIndex c) in
  let distToTarget := distance M (position c) targetPos in
  let dirToTarget := vsub targetPos (position c) in
  let targetAngle :=
    fdiv (fmul (m_atan2 M (vy dirToTarget) (vx dirToTarget)) 180) PI in
  let angleDiff0 := Qabs (fsub (orientation c) targetAngle) in
  let angleDiff := fold_diff (loop_fuel angleDiff0) angleDiff0 in
  let reward := - (1 # 10) in
  let reward := if flt angleDiff lastAngleDiff then fadd reward (1 # 2) else reward in
  let lastAngleDiff := angleDiff in
  let reward :=
    if flt angleDiff 45 then
      let reward := fadd reward (fmul (fdiv (fsub 45 angleDiff) 45) 2) in
      if fgt (speed c) 2 then fadd reward 1 else reward
    else fsub reward (fdiv angleDiff 45) in
  let '(zss, reward, stuck) :=
    if flt (speed c) (1 # 10) then
      let zss := (zeroSpeedSteps + 1)%Z in
      let reward := fsub reward 1 in
      if (MAX_ZERO_SPEED_STEPS <? zss)%Z then (zss, fsub reward 100, true)
      else (zss, reward, false)
    else (0%Z, reward, false) in
  if stuck then Some (Break (with_done c true) totalReward) else
  if fgt distToTarget 200 then
    let reward := fsub reward 200 in
    Some (Break (with_done c true) totalReward) else
  let '(c, reward, finished) :=
    if flt distToTarget 20 then
      let reward := fadd reward 100 in
      let c := with_target c (targetWaypointIndex c + 1)%Z in
      if (Z.of_nat (length (trainingTrackPoints c)) <=? targetWaypointIndex c)%Z
      then (with_done c true, fadd reward 1000, true)
      else (c, reward, false)
    else (c, reward, false) in
  if finished then Some (Break c totalReward) else
  Some (Continue c (fadd totalReward reward) zss lastAngleDiff).

(** [while (!done && steps < MAX_STEPS_PER_EPISODE) { ... }]; the loop runs
    at most [MAX_STEPS_PER_EPISODE] times, the bound of the recursion. *)
Fixpoint eval_loop (fuel : nat) (c : Car) (totalReward : Q)
    (zeroSpeedSteps : Z) (lastAngleDiff : Q) : option (Car * Q) :=
  match fuel with
  | O => Some (c, totalReward)
  | S f =>
      if negb (done c) && (steps c <? MAX_STEPS_PER_EPISODE)%Z then
        let* r := eval_body c totalReward zeroSpeedSteps lastAngleDiff in
        match r with
        | Continue c' t z l => eval_loop f c' t z l
        | Break c' t => Some (c', t)
        end
      else Some (c, totalReward)
  end.

(** [Car::evaluate]: returns the reward, the success flag and the car
    after the run. *)
Definition evaluate (c : Car) : option (Q * bool * Car) :=
  let c := with_steps c 0 in
  let* r := eval_loop (Z.to_nat MAX_STEPS_PER_EPISODE) c 0 0 360 in
  let '(c, totalReward) := r in
  let c := if (MAX_STEPS_PER_EPISODE <=? steps c)%Z then with_done c true else c in
  Some (totalReward,
        (Z.of_nat (length (trainingTrackPoints c)) <=? targetWaypointIndex c)%Z,
        c).

End WithMath.

(** [Car::setOrientation]: the two wrap-around loops on the new value. *)
Definition setOrientation (c : Car) (orient : Q) : Car :=
  mkCar (trainingTrackPoints c) (policyWeights c) (position c) (wrap360 orient)
        (speed c) (done c) (steps c) (targetWaypointIndex c).

(** [Car::reduceSpeed]: [speed *= 0.5f]. *)
Definition reduceSpeed (c : Car) : Car :=
  mkCar (trainingTrackPoints c) (policyWeights c) (position c) (orientation c)
        (fmul (speed c) (1 # 2)) (done c) (steps c) (targetWaypointIndex c).

End GA.

(* ------------------------------------------------------------------ *)
(** ** The particle-swarm program ([main.cpp], second program) *)

Module PSO.

Definition MAX_STEPS_PER_EPISODE : Z := 1000.
Definition INERTIA_WEIGHT : Q := 7 # 10.
Definition COGNITIVE_COEFF : Q := 3 # 2.
Definition SOCIAL_COEFF : Q := 3 # 2.
Definition MAX_VELOCITY : Q := 1 # 2.
Definition POSITION_MIN : Q := -5.
Definition POSITION_MAX : Q := 5.

Record Car := mkCar {
  trainingTrackPoints : list Vector2f;
  checkpointPositions : list Vector2f;
  policyWeights : list Q;
  path : list Vector2f;
  currentCheckpoint : Z;
  position : Vector2f;
  orientation : Q;
  speed : Q;
  done : bool;
  steps : Z
}.

Definition with_motion (c : Car) (pth : list Vector2f) (p : Vector2f) (o s : Q)
    (st : Z) : Car :=
  mkCar (trainingTrackPoints c) (checkpointPositions c) (policyWeights c) pth
        (currentCheckpoint c) p o s (done c) st.
Definition with_done (c : Car) (d : bool) : Car :=
  mkCar (trainingTrackPoints c) (checkpointPositions c) (policyWeights c) (path c)
        (currentCheckpoint c) (position c) (orientation c) (speed c) d (steps c).
Definition with_steps (c : Car) (st : Z) : Car :=
  mkCar (trainingTrackPoints c) (checkpointPositions c) (policyWeights c) (path c)
        (currentCheckpoint c) (position c) (orientation c) (speed c) (done c) st.
Definition with_checkpoint (c : Car) (k : Z) : Car :=
  mkCar (trainingTrackPoints c) (checkpointPositions c) (policyWeights c) (path c)
        k (position c) (orientation c) (speed c) (done c) (steps c).

(** [Car::reset]: reads [trainingTrackPoints[0]] unguarded, clears the path
    and records the starting position. *)
Definition reset (c : Car) : option Car :=
  let* p0 := vec_at (trainingTrackPoints c) 0 in
  Some (mkCar (trainingTrackPoints c) (checkpointPositions c) (policyWeights c)
              [p0] 0 p0 0 0 false 0).

(** The car of the evaluation loop of [main]: constructed from the track,
    then [car.policyWeights = particle.position]. *)
Definition make_car (wps cps : list Vector2f) (w : list Q) : option Car :=
  let* c := reset (mkCar wps cps [] [] 0 (mkV 0 0) 0 0 false 0) in
  Some (mkCar (trainingTrackPoints c) (checkpointPositions c) w (path c)
              (currentCheckpoint c) (position c) (orientation c) (speed c)
              (done c) (steps c)).

Definition chooseAction (c : Car) : option Action :=
  chooseActionFor (policyWeights c) (orientation c) (speed c).

Section WithMath.
Variable M : MathLib.

(** [Car::applyAction] of this program: [BRAKE] subtracts [DECEL], and the
    new position is appended to [path]. *)
Definition applyAction (act : Action) (c : Car) : Car :=
  let o := orientation c in
  let s := speed c in
  let '(o1, s1) :=
    match act with
    | STEER_LEFT => (fsub o TURN_SPEED, fadd s (fmul ACCEL (1 # 2)))
    | STEER_RIGHT => (fadd o TURN_SPEED, fadd s (fmul ACCEL (1 # 2)))
    | ACCELERATE => (o, fadd s ACCEL)
    | BRAKE => (o, fsub s DECEL)
    | NOOP => (o, fmul s (99 # 100))
    end in
  let o2 := wrap360 o1 in
  let s2 := fclamp s1 0 MAX_SPEED in
  let rad := degToRad o2 in
  let v := mkV (fmul (m_cos M rad) s2) (fmul (m_sin M rad) s2) in
  let p := vadd (position c) v in
  with_motion c (path c ++ [p]) p o2 s2 (steps c + 1)%Z.

(** [while (angleDiff > 180.f) angleDiff -= 360.f;] *)
Fixpoint fold_high (fuel : nat) (a : Q) : Q :=
  match fuel with
  | O => a
  | S f => if fgt a 180 then fold_high f (fsub a 360) else a
  end.

(** [while (angleDiff < -180.f) angleDiff += 360.f;] *)
Fixpoint fold_low (fuel : nat) (a : Q) : Q :=
  match fuel with
  | O => a
  | S f => if flt a (-180) then fold_low f (fadd a 360) else a
  end.

(** [Car::getAngleToTarget]. *)
Definition getAngleToTarget (c : Car) (target : Vector2f) : Q :=
  let dirToTarget := vsub target (position c) in
  let targetAngle :=
    fdiv (fmul (m_atan2 M (vy dirToTarget) (vx dirToTarget)) 180) PI in
  let a0 := fsub targetAngle (orientation c) in
  let a1 := fold_high (loop_fuel a0) a0 in
  fold_low (loop_fuel a1) a1.

Inductive Step :=
  | Continue (c : Car) (totalReward : Q) (zeroSpeedSteps : Z) (lastDist : Q)
  | Break (c : Car) (totalReward : Q).

Definition num_checkpoints (c : Car) : Z := Z.of_nat (length (checkpointPositions c)).

(** One pass of the [while] body of [Car::evaluate]. *)
Definition eval_body (c : Car) (totalReward : Q) (zeroSpeedSteps : Z)
    (lastDistToCheckpoint : Q) : option Step :=
  let c := with_steps c (steps c + 1)%Z in
  if (num_checkpoints c <=? currentCheckpoint c)%Z then
    Some (Break (with_done c true) totalReward) else
  let* targetPoint := vec_at (checkpointPositions c) (currentCheckpoint c) in
  let distToTarget := distance M (position c) targetPoint in
  let angleDiff := getAngleToTarget c targetPoint in
  let reward := 0 in
  let reward :=
    if flt distToTarget lastDistToCheckpoint then fadd reward 1
    else fsub reward (1 # 2) in
  let reward :=
    if flt (Qabs angleDiff) 45 then fadd reward (fmul (speed c) (1 # 5))
    else reward in
  let* arrival :=
    if flt distToTarget 30 then
      let reward := fadd reward 100 in
      let c := with_checkpoint c (currentCheckpoint c + 1)%Z in
      if (num_checkpoints c <=? currentCheckpoint c)%Z then
        Some (with_done c true, fadd reward 1000, lastDistToCheckpoint, true)
      else
        let* nxt := vec_at (checkpointPositions c) (currentCheckpoint c) in
        Some (c, reward, distance M (position c) nxt, false)
    else Some (c, reward, lastDistToCheckpoint, false) in
  let '(c, reward, lastDistToCheckpoint, finished) := arrival in
  if finished then Some (Break c totalReward) else
  let '(zss, reward, stuck) :=
    if flt (speed c) MIN_SPEED_THRESHOLD then
      let zss := (zeroSpeedSteps + 1)%Z in
      (zss, fsub reward 1, (MAX_ZERO_SPEED_STEPS <? zss)%Z)
    else (0%Z, reward, false) in
  if stuck then Some (Break (with_done c true) totalReward) else
  let* act := chooseAction c in
  let c := applyAction act c in
  Some (Continue c (fadd totalReward reward) zss distToTarget).

Fixpoint eval_loop (fuel : nat) (c : Car) (totalReward : Q)
    (zeroSpeedSteps : Z) (lastDist : Q) : option (Car * Q) :=
  match fuel with
  | O => Some (c, totalReward)
  | S f =>
      if negb (done c) && (steps c <? MAX_STEPS_PER_EPISODE)%Z then
        let* r := eval_body c totalReward zeroSpeedSteps lastDist in
        match r with
        | Continue c' t z l => eval_loop f c' t z l
        | Break c' t => Some (c', t)
        end
      else Some (c, totalReward)
  end.

(** [Car::evaluate]: reward, success flag, and the car after the run (its
    [path] is the recorded path). *)
Definition evaluate (c : Car) : option (Q * bool * Car) :=
  let* c := reset c in
  let* cp0 := vec_at (checkpointPositions c) (currentCheckpoint c) in
  let lastDist := distance M (position c) cp0 in
  let* r := eval_loop (Z.to_nat MAX_STEPS_PER_EPISODE) c 0 0 lastDist in
  let '(c, totalReward) := r in
  let progressMultiplier := fdiv (inject_Z (currentCheckpoint c))
                                 (inject_Z (num_checkpoints c)) in
  let totalReward := fmul totalReward (fadd (1 # 2) progressMultiplier) in
  Some (totalReward, (num_checkpoints c <=? currentCheckpoint c)%Z, c).

End WithMath.

(** [Car::setOrientation] of this program (the same two loops). *)
Definition setOrientation (c : Car) (orient : Q) : Car :=
  mkCar (trainingTrackPoints c) (checkpointPositions c) (policyWeights c) (path c)
        (currentCheckpoint c) (position c) (wrap360 orient) (speed c) (done c) (steps c).

(** [Car::reduceSpeed]: [speed *= 0.5f]. *)
Definition reduceSpeed (c : Car) : Car :=
  mkCar (trainingTrackPoints c) (checkpointPositions c) (policyWeights c) (path c)
        (currentCheckpoint c) (position c) (orientation c) (fmul (speed c) (1 # 2))
        (done c) (steps c).

End PSO.

(* ------------------------------------------------------------------ *)
(** ** A concrete math library, to run the programs on concrete inputs *)

Module Approx.

(** Partial sums of the Taylor series of [cos]/[sin]:
    [term_{k+2} = - term_k * x^2 / ((k+1)(k+2))]. *)
Fixpoint series (n : nat) (x2 term acc : Q) (k : Z) : Q :=
  match n with
  | O => acc
  | S n' =>
      let term' := Qred (- term * x2 / inject_Z ((k + 1) * (k + 2))) in
      series n' x2 term' (Qred (acc + term')) (k + 2)
  end.

(** Reduce a non-negative-or-small angle into about [-PI, PI]. *)
Definition reduce (x : Q) : Q :=
  if Qle_bool x PI then (if Qle_bool (- PI) x then x else Qred (x + 2 * PI))
  else Qred (x - 2 * PI).

(** Results are rounded down to nine decimals. *)
Definition round9 (q : Q) : Q := Qred (Qfloor (q * inject_Z (10 ^ 9)) # 1000000000).

Definition cos (x : Q) : Q := let r := reduce x in round9 (series 14 (Qred (r * r)) 1 1 0).
Definition sin (x : Q) : Q := let r := reduce x in round9 (series 14 (Qred (r * r)) r r 1).

(** [atan z ~ z PI/4 + 0.273 z (1 - |z|)] on [-1, 1]. *)
Definition atan1 (z : Q) : Q :=
  round9 (z * (PI / 4) + (273 # 1000) * z * (1 - Qabs z)).

Definition atan2 (y x : Q) : Q :=
  if Qeq_bool x 0 && Qeq_bool y 0 then 0 else
  if Qle_bool (Qabs y) (Qabs x) then
    let a := atan1 (Qred (y / x)) in
    if Qle_bool 0 x then a
    else if Qle_bool 0 y then Qred (a + PI) else Qred (a - PI)
  else
    let a := atan1 (Qred (x / y)) in
    if Qle_bool 0 y then Qred (PI / 2 - a) else Qred (- (PI / 2) - a).

(** Square root to six decimals, rounded down. *)
Definition sqrt (x : Q) : Q :=
  if Qle_bool x 0 then 0
  else Qred (Z.sqrt (Qnum x * 10 ^ 12 / Zpos (Qden x)) # 1000000).

End Approx.

Definition approx_math : MathLib :=
  {| m_cos := Approx.cos; m_sin := Approx.sin;
     m_atan2 := Approx.atan2; m_sqrt := Approx.sqrt |}.

(** Policy tables of the standard length 36 x 6 x 5 = 1080. *)
Definition policy_size : nat :=
  Z.to_nat (NUM_ANGLE_STATES * NUM_SPEED_STATES * NUM_ACTIONS).

Definition zero_policy : list Q := repeat 0 policy_size.

(** Every row prefers action [a]. *)
Definition constant_policy (a : Action) : list Q :=
  map (fun i => if Z.eqb (Z.of_nat i mod NUM_ACTIONS) (index_of_action a) then 1 else 0)
      (seq 0 policy_size).

(* ------------------------------------------------------------------ *)
(** ** Training loops of the GA program *)

(** [-std::numeric_limits<float>::max()]. *)
Definition FLT_MAX : Q := 340282346638528859811704183484516925440.

Module GATrain.

(** [struct BestPerformance]. *)
Record BestPerformance := mkBest {
  bp_reward : Q;
  bp_generation : Z;
  bp_waypoints : Z;
  bp_weights : list Q
}.

Definition bestEver_init : BestPerformance := mkBest (- FLT_MAX) 0 0 [].

(** [if (reward > bestEver.reward) { bestEver.reward = reward; ... }] *)
Definition update_best (b : BestPerformance) (generation : Z) (reward : Q)
    (car : GA.Car) : BestPerformance :=
  if fgt reward (bp_reward b) then
    mkBest reward generation (GA.targetWaypointIndex car) (GA.policyWeights car)
  else b.

(** The evaluation loop of one generation in [main]: every car is evaluated,
    the all-time best is updated, and a success sets [raceCompleted].  The
    per-generation statistics only feed console output and are left out. *)
Fixpoint evaluate_population (M : MathLib) (generation : Z) (pop : list GA.Car)
    (best : BestPerformance) (raceCompleted : bool)
    : option (list (Q * bool) * BestPerformance * bool) :=
  match pop with
  | [] => Some ([], best, raceCompleted)
  | car :: rest =>
      let* r := GA.evaluate M car in
      let '(reward, success, car') := r in
      let best := update_best best generation reward car' in
      let raceCompleted := if success then true else raceCompleted in
      let* r' := evaluate_population M generation rest best raceCompleted in
      let '(perfs, best, rc) := r' in
      Some ((reward, success) :: perfs, best, rc)
  end.

Definition with_weights (c : GA.Car) (w : list Q) : GA.Car :=
  GA.mkCar (GA.trainingTrackPoints c) w (GA.position c) (GA.orientation c)
           (GA.speed c) (GA.done c) (GA.steps c) (GA.targetWaypointIndex c).

Section Rng.
(** The state of [std::mt19937] together with the state of the
    distributions drawn from it. *)
Variable G : Type.
(** [std::uniform_real_distribution<float>(lo, hi)(rng)]. *)
Variable uniform_real : Q -> Q -> G -> Q * G.
(** [std::normal_distribution<float>(mean, stddev)(rng)]. *)
Variable normal : Q -> Q -> G -> Q * G.
(** [std::uniform_int_distribution<int>(lo, hi)(rng)]. *)
Variable uniform_int : Z -> Z -> G -> Z * G.

(** The mutation loop of [createNextGeneration] over [child.policyWeights]. *)
Fixpoint mutate (ws : list Q) (g : G) : list Q * G :=
  match ws with
  | [] => ([], g)
  | weight :: rest =>
      let '(chance, g) := uniform_real 0 1 g in
      let '(weight, g) :=
        if flt chance GA.MUTATION_RATE then
          let '(n, g) := normal 0 (1 # 10) g in
          (fclamp (fadd weight n) (-5) 5, g)
        else (weight, g) in
      let '(rest, g) := mutate rest g in
      (weight :: rest, g)
  end.

(** [while ((int)nextGeneration.size() < populationSize)]: one child per
    pass, [populationSize] passes. *)
Fixpoint next_generation_loop (fuel : nat) (topPerformers acc : list GA.Car)
    (g : G) : option (list GA.Car * G) :=
  match fuel with
  | O => Some (acc, g)
  | S f =>
      let '(parentIdx, g) :=
        uniform_int 0 (Z.of_nat (length topPerformers) - 1) g in
      let* parent := vec_at topPerformers parentIdx in
      (* [Car child(parent)]: the copy constructor calls [reset()] *)
      let* child := GA.reset parent in
      let '(ws, g) := mutate (GA.policyWeights child) g in
      next_generation_loop f topPerformers (acc ++ [with_weights child ws]) g
  end.

(** [nextGeneration.reserve(populationSize)] throws [std::length_error]
    for a negative [populationSize] (converted to a [size_t] above
    [max_size()]). *)
Definition createNextGeneration (topPerformers : list GA.Car)
    (populationSize : Z) (g : G) : option (list GA.Car * G) :=
  if (populationSize <? 0)%Z then None
  else next_generation_loop (Z.to_nat populationSize) topPerformers [] g.

End Rng.

(** [selectTopPerformers].  [indices] is the index vector [0 .. n-1] after
    [std::sort] with the comparator [performances[a].first >
    performances[b].first]; [std::sort] is not stable, so the program fixes
    only what [sort_outcome] below states about it.  The gathering loop
    [for (i = 0; i < topN && i < indices.size(); i++)] then copies
    [population[indices[i]]] with the copy constructor, which calls
    [reset()]. *)
Fixpoint gather_top (population : list GA.Car) (i topN : Z) (indices : list nat)
    : option (list GA.Car) :=
  match indices with
  | [] => Some []
  | k :: rest =>
      if (i <? topN)%Z then
        let* car := vec_at population (Z.of_nat k) in
        (* [push_back(population[indices[i]])]: the copy constructor calls
           [reset()] *)
        let* car := GA.reset car in
        let* cars := gather_top population (i + 1) topN rest in
        Some (car :: cars)
      else Some []
  end.

Definition selectTopPerformers (population : list GA.Car) (indices : list nat)
    (topN : Z) : option (list GA.Car) :=
  gather_top population 0 topN indices.



End GATrain.

(* ------------------------------------------------------------------ *)
(** ** Training loops of the PSO program *)

Module PSOTrain.

(** [struct Particle]. *)
Record Particle := mkParticle {
  position : list Q;
  velocity : list Q;
  personalBestPosition : list Q;
  personalBestFitness : Q
}.

(** [Particle::updatePersonalBest]. *)
Definition updatePersonalBest (p : Particle) (fitness : Q) : Particle :=
  if fgt fitness (personalBestFitness p) then
    mkParticle (position p) (velocity p) (position p) fitness
  else p.

(** [struct BestPerformance] of this program. *)
Record BestPerformance := mkBest {
  bp_reward : Q;
  bp_generation : Z;
  bp_checkpoints : Z;
  bp_weights : list Q;
  bp_bestPath : list Vector2f
}.

(** The run-wide state of [main]: global best and the best record. *)
Record Global := mkGlobal {
  globalBestPosition : list Q;
  globalBestFitness : Q;
  bestEver : BestPerformance;
  raceCompleted : bool
}.

Definition global_init (numWeights : nat) : Global :=
  mkGlobal (repeat 0 numWeights) (- FLT_MAX) (mkBest (- FLT_MAX) 0 0 [] []) false.

(** [if (reward > globalBestFitness) { ... }] *)
Definition update_global (gl : Global) (generation : Z) (p : Particle)
    (reward : Q) (success : bool) (car : PSO.Car) : Global :=
  if fgt reward (globalBestFitness gl) then
    mkGlobal (position p) reward
      (mkBest reward generation (PSO.currentCheckpoint car) (position p) (PSO.path car))
      (if success then true else raceCompleted gl)
  else gl.

(** [if (particle.velocity[i] > MAX_VELOCITY) ...], then the position. *)
Definition update_dim (r1 r2 v x pb gb : Q) : Q * Q :=
  let v := fadd (fadd (fmul PSO.INERTIA_WEIGHT v)
                      (fmul (fmul PSO.COGNITIVE_COEFF r1) (fsub pb x)))
                (fmul (fmul PSO.SOCIAL_COEFF r2) (fsub gb x)) in
  let v := if fgt v PSO.MAX_VELOCITY then PSO.MAX_VELOCITY else v in
  let v := if flt v (- PSO.MAX_VELOCITY) then - PSO.MAX_VELOCITY else v in
  let x := fadd x v in
  let x := if fgt x PSO.POSITION_MAX then PSO.POSITION_MAX else x in
  let x := if flt x PSO.POSITION_MIN then PSO.POSITION_MIN else x in
  (v, x).

(** [v[i] = x] on a vector (only reached after [v[i]] was read). *)
Fixpoint list_set (l : list Q) (i : nat) (x : Q) : list Q :=
  match l, i with
  | [], _ => []
  | _ :: t, O => x :: t
  | h :: t, S i => h :: list_set t i x
  end.

Section Rng.
Variable G : Type.
Variable uniform_real : Q -> Q -> G -> Q * G.

(** [Car::initializeRandomPolicy], run by the [Car] constructor. *)
Fixpoint initializeRandomPolicy (n : nat) (g : G) : list Q * G :=
  match n with
  | O => ([], g)
  | S n =>
      let '(w, g) := uniform_real (-1) 1 g in
      let '(ws, g) := initializeRandomPolicy n g in
      (w :: ws, g)
  end.

(** The evaluation loop of one generation in [main]. *)
Fixpoint evaluate_swarm (M : MathLib) (wps cps : list Vector2f) (generation : Z)
    (swarm : list Particle) (gl : Global) (g : G)
    : option (list Particle * Global * G) :=
  match swarm with
  | [] => Some ([], gl, g)
  | particle :: rest =>
      (* [Car car(trainingWaypoints, checkpointPositions, rng)] draws a
         random policy, then [car.policyWeights = particle.position] *)
      let '(_, g) := initializeRandomPolicy policy_size g in
      let* car := PSO.make_car wps cps (position particle) in
      let* r := PSO.evaluate M car in
      let '(reward, success, car) := r in
      let particle := updatePersonalBest particle reward in
      let gl := update_global gl generation particle reward success car in
      let* r' := evaluate_swarm M wps cps generation rest gl g in
      let '(rest, gl, g) := r' in
      Some (particle :: rest, gl, g)
  end.

(** [for (int i = 0; i < numWeights; ++i) { ... }] for one particle. *)
Fixpoint update_particle_loop (fuel : nat) (i numWeights : Z) (p : Particle)
    (globalBest : list Q) (g : G) : option (Particle * G) :=
  match fuel with
  | O => Some (p, g)
  | S f =>
      if (i <? numWeights)%Z then
        let '(r1, g) := uniform_real 0 1 g in
        let '(r2, g) := uniform_real 0 1 g in
        let* v := vec_at (velocity p) i in
        let* x := vec_at (position p) i in
        let* pb := vec_at (personalBestPosition p) i in
        let* gb := vec_at globalBest i in
        let '(v, x) := update_dim r1 r2 v x pb gb in
        let p := mkParticle (list_set (position p) (Z.to_nat i) x)
                            (list_set (velocity p) (Z.to_nat i) v)
                            (personalBestPosition p) (personalBestFitness p) in
        update_particle_loop f (i + 1) numWeights p globalBest g
      else Some (p, g)
  end.

Definition update_particle (numWeights : Z) (p : Particle) (globalBest : list Q)
    (g : G) : option (Particle * G) :=
  update_particle_loop (Z.to_nat numWeights) 0 numWeights p globalBest g.

(** [for (auto& particle : swarm) ...]: the velocity and position update. *)
Fixpoint update_swarm (numWeights : Z) (swarm : list Particle)
    (globalBest : list Q) (g : G) : option (list Particle * G) :=
  match swarm with
  | [] => Some ([], g)
  | p :: rest =>
      let* r := update_particle numWeights p globalBest g in
      let '(p, g) := r in
      let* r' := update_swarm numWeights rest globalBest g in
      let '(rest, g) := r' in
      Some (p :: rest, g)
  end.

(** The loop of the [Particle] constructor: [position[i] = posDist(rng);
    velocity[i] = velDist(rng);], in this order. *)
Fixpoint particle_init_loop (n : nat) (g : G) : list Q * list Q * G :=
  match n with
  | O => ([], [], g)
  | S n =>
      let '(x, g) := uniform_real PSO.POSITION_MIN PSO.POSITION_MAX g in
      let '(v, g) := uniform_real (- (1 # 10)) (1 # 10) g in
      let '(xs, vs, g) := particle_init_loop n g in
      (x :: xs, v :: vs, g)
  end.

(** [Particle(numWeights, rng)]: [personalBestPosition[i] = position[i]] and
    [personalBestFitness = -FLT_MAX]; [position.resize(numWeights)] throws
    [std::length_error] for a negative [numWeights] (converted to a
    [size_t] above [max_size()]). *)
Definition make_particle (numWeights : Z) (g : G) : option (Particle * G) :=
  if (numWeights <? 0)%Z then None
  else
    let '(xs, vs, g) := particle_init_loop (Z.to_nat numWeights) g in
    Some (mkParticle xs vs xs (- FLT_MAX), g).

(** [for (i = 0; i < SWARM_SIZE; i++) swarm.emplace_back(numWeights, rng);] *)
Fixpoint init_swarm (k : nat) (numWeights : Z) (g : G)
    : option (list Particle * G) :=
  match k with
  | O => Some ([], g)
  | S k =>
      let* r := make_particle numWeights g in
      let '(p, g) := r in
      let* r' := init_swarm k numWeights g in
      let '(ps, g) := r' in
      Some (p :: ps, g)
  end.

Definition SWARM_SIZE : Z := 200.
Definition MAX_GENERATIONS : Z := 7000.

(** [while (generation < MAX_GENERATIONS && !raceCompleted)]: evaluation of
    the swarm, then the velocity and position update; at most
    [MAX_GENERATIONS] passes. *)
Fixpoint train_loop (M : MathLib) (wps cps : list Vector2f) (numWeights : Z)
    (fuel : nat) (generation : Z) (swarm : list Particle) (gl : Global) (g : G)
    : option (Z * list Particle * Global * G) :=
  match fuel with
  | O => Some (generation, swarm, gl, g)
  | S f =>
      if (generation <? MAX_GENERATIONS)%Z && negb (raceCompleted gl) then
        let generation := (generation + 1)%Z in
        let* r := evaluate_swarm M wps cps generation swarm gl g in
        let '(swarm, gl, g) := r in
        let* r' := update_swarm numWeights swarm (globalBestPosition gl) g in
        let '(swarm, g) := r' in
        train_loop M wps cps numWeights f generation swarm gl g
      else Some (generation, swarm, gl, g)
  end.

(** The training part of [main]: swarm, global best, then the loop;
    returns the generation counter, the swarm and the run-wide state. *)
Definition train (M : MathLib) (wps cps : list Vector2f) (g : G)
    : option (Z * list Particle * Global * G) :=
  let numWeights := (NUM_ANGLE_STATES * NUM_SPEED_STATES * NUM_ACTIONS)%Z in
  let* r := init_swarm (Z.to_nat SWARM_SIZE) numWeights g in
  let '(swarm, g) := r in
  train_loop M wps cps numWeights (Z.to_nat MAX_GENERATIONS) 0 swarm
             (global_init (Z.to_nat numWeights)) g.

End Rng.

End PSOTrain.

(* ------------------------------------------------------------------ *)
(** ** Waypoint optimisation of the two-player game (first program of
    [main.cpp]) *)

Module AIRace.

(** Result of a run: a value, an out-of-range read (undefined behaviour),
    or a loop that has not finished within the given number of passes. *)
Inductive Outcome (A : Type) : Type :=
  | Done (a : A)
  | Undefined
  | OutOfFuel.
Arguments Done {A} a.
Arguments Undefined {A}.
Arguments OutOfFuel {A}.

Definition obind {A B} (r : Outcome A) (k : A -> Outcome B) : Outcome B :=
  match r with
  | Done a => k a
  | Undefined => Undefined
  | OutOfFuel => OutOfFuel
  end.

(** [std::fmod] is exact: [a - trunc(a / b) * b]. *)
Definition fmod (a b : Q) : Q := fsub a (fmul (inject_Z (f2i (fdiv a b))) b).

(** [sf::Transformable::setRotation]: the angle is stored as
    [fmod(angle, 360)], plus 360 when negative. *)
Definition sf_rotation (angle : Q) : Q :=
  let r := fmod angle 360 in
  if flt r 0 then fadd r 360 else r.

Definition TIME_STEP : Q := fdiv 1 60.

Section Sim.
Variable M : MathLib.
(** The track borders ([sf::RectangleShape]) and the test
    [car.getGlobalBounds().intersects(border.getGlobalBounds())] for the
    simulation sprite (fixed 40 x 20 texture, centred origin) at a given
    position and rotation. *)
Variable Border : Type.
Variable intersects : Vector2f -> Q -> Border -> bool.

(** [isWithinBorders]: returns the flag, the sprite position and the speed. *)
Fixpoint isWithinBorders (pos : Vector2f) (rot speed : Q) (borders : list Border)
    : bool * Vector2f * Q :=
  match borders with
  | [] => (true, pos, speed)
  | border :: rest =>
      if intersects pos rot border then
        let currentAngle := rot in
        let direction := mkV (- m_cos M (degToRad currentAngle))
                             (- m_sin M (degToRad currentAngle)) in
        (false, vadd pos (mkV (fmul (vx direction) 5) (fmul (vy direction) 5)), 0)
      else isWithinBorders pos rot speed rest
  end.

(** [while (currentWaypoint < waypoints.size()) { ... }] of [simulateRun],
    with a bound on the number of passes. *)
Fixpoint sim_loop (fuel : nat) (waypoints : list Vector2f) (borders : list Border)
    (pos : Vector2f) (rot : Q) (currentWaypoint : nat) (totalTime speed : Q)
    (collisionCount : Z) : Outcome Q :=
  match fuel with
  | O => OutOfFuel
  | S f =>
      match nth_error waypoints currentWaypoint with
      | None =>
          Done (fadd totalTime (fmul (inject_Z collisionCount) 5))
      | Some target =>
          let direction := vsub target pos in
          let distanceToTarget := distance M pos target in
          if flt distanceToTarget 10 then
            sim_loop f waypoints borders pos rot (S currentWaypoint) totalTime speed
                     collisionCount
          else
            let direction :=
              if negb (Qeq_bool distanceToTarget 0)
              then mkV (fdiv (vx direction) distanceToTarget)
                       (fdiv (vy direction) distanceToTarget)
              else direction in
            let pos := vadd pos (mkV (fmul (vx direction) speed)
                                     (fmul (vy direction) speed)) in
            let targetAngle := radToDeg (m_atan2 M (vy direction) (vx direction)) in
            let rot := sf_rotation targetAngle in
            let '(within, pos, speed) := isWithinBorders pos rot speed borders in
            let '(collisionCount, totalTime) :=
              if within then (collisionCount, totalTime)
              else ((collisionCount + 1)%Z, fadd totalTime (fmul TIME_STEP 2)) in
            let totalTime := fadd totalTime TIME_STEP in
            sim_loop f waypoints borders pos rot currentWaypoint totalTime speed
                     collisionCount
      end
  end.

(** [simulateRun]: the sprite starts at [waypoints[0]] (read unguarded) with
    rotation 0; the fitness is [totalTime + collisionCount * 5]. *)
Definition simulateRun (fuel : nat) (waypoints : list Vector2f)
    (borders : list Border) (aiSpeed : Q) : Outcome Q :=
  match vec_at waypoints 0 with
  | None => Undefined
  | Some p0 => sim_loop fuel waypoints borders p0 (sf_rotation 0) 0 0 aiSpeed 0
  end.

Variable G : Type.
(** [std::uniform_real_distribution<float>(lo, hi)(rng)]. *)
Variable uniform_real : Q -> Q -> G -> Q * G.

(** [for (auto& wp : mutatedWaypoints) { wp.x += mutationDist(rng);
    wp.y += mutationDist(rng); }] *)
Fixpoint mutate_waypoints (wps : list Vector2f) (g : G) : list Vector2f * G :=
  match wps with
  | [] => ([], g)
  | wp :: rest =>
      let '(dx, g) := uniform_real (-20) 20 g in
      let '(dy, g) := uniform_real (-20) 20 g in
      let '(rest, g) := mutate_waypoints rest g in
      (mkV (fadd (vx wp) dx) (fadd (vy wp) dy) :: rest, g)
  end.

(** [for (int gen = 1; gen <= generations; ++gen)]: every candidate is a
    mutation of the input [waypoints]; the best pair (fitness, waypoints)
    is kept. *)
Fixpoint optimize_loop (fuel : nat) (waypoints : list Vector2f)
    (borders : list Border) (aiSpeed : Q) (n : nat)
    (best : Q * list Vector2f) (g : G) : Outcome (Q * list Vector2f) :=
  match n with
  | O => Done best
  | S n =>
      let '(mutatedWaypoints, g) := mutate_waypoints waypoints g in
      obind (simulateRun fuel mutatedWaypoints borders aiSpeed) (fun fitness =>
      let best := if flt fitness (fst best) then (fitness, mutatedWaypoints) else best in
      optimize_loop fuel waypoints borders aiSpeed n best g)
  end.

(** [optimizeWaypoints]; [g] is the state of the freshly seeded generator. *)
Definition optimizeWaypoints (fuel : nat) (waypoints : list Vector2f)
    (borders : list Border) (aiSpeed : Q) (generations : Z) (g : G)
    : Outcome (list Vector2f) :=
  obind (simulateRun fuel waypoints borders aiSpeed) (fun bestFitness =>
  obind (optimize_loop fuel waypoints borders aiSpeed (Z.to_nat generations)
                       (bestFitness, waypoints) g) (fun best =>
  Done (snd best))).

End Sim.

End AIRace.

(* ------------------------------------------------------------------ *)
(** ** The training loop of the GA program ([main] of [part_002]) *)

Module GAMain.

Definition POPULATION_SIZE : Z := 100.
Definition TOP_PERFORMERS : Z := 20.
Definition MAX_GENERATIONS : Z := 1000000.

(** [v[i] = x] on a [std::vector] (only reached after [v[i]] was read). *)
Fixpoint vec_set {A} (l : list A) (i : nat) (x : A) : list A :=
  match l, i with
  | [], _ => []
  | _ :: t, O => x :: t
  | h :: t, S i => h :: vec_set t i x
  end.

Section Main.
Variable M : MathLib.
(** The state of [std::mt19937] together with the state of the
    distributions drawn from it, and the distributions as in [GATrain]. *)
Variable G : Type.
Variable uniform_real : Q -> Q -> G -> Q * G.
Variable normal : Q -> Q -> G -> Q * G.
Variable uniform_int : Z -> Z -> G -> Z * G.
(** The index order that [std::sort] leaves in [selectTopPerformers] for the
    given performances; the program fixes only what [GATrain.sort_outcome]
    states about it. *)
Variable sort_indices : list (Q * bool) -> list nat.

(** [Car(wps, rng)]: [reset()] (reads [wps[0]] unguarded), then
    [initializeRandomPolicy(rng)]: [36 * 6 * 5] draws of
    [uniform_real_distribution(-1, 1)], the same function as in the PSO
    program. *)
Definition new_car (wps : list Vector2f) (g : G) : option (GA.Car * G) :=
  let* c := GA.reset (GA.mkCar wps [] (mkV 0 0) 0 0 false 0 0) in
  let '(ws, g) := PSOTrain.initializeRandomPolicy G uniform_real policy_size g in
  Some (GATrain.with_weights c ws, g).

(** [for (int i = 0; i < POPULATION_SIZE; i++)
      population.emplace_back(trainingWaypoints, rng);] *)
Fixpoint init_population (k : nat) (wps : list Vector2f) (g : G)
    : option (list GA.Car * G) :=
  match k with
  | O => Some ([], g)
  | S k =>
      let* r := new_car wps g in
      let '(c, g) := r in
      let* r' := init_population k wps g in
      let '(cs, g) := r' in
      Some (c :: cs, g)
  end.

(** [for (int i = 0; i < POPULATION_SIZE; i++) { auto& car = population[i];
    auto [reward, success] = car.evaluate(); performances.push_back(...);
    ... }]: the car is evaluated in place, the all-time best is updated and
    a success sets [raceCompleted]; the best of the generation only feeds
    console output and is left out. *)
Fixpoint evaluate_loop (fuel : nat) (i generation : Z) (population : list GA.Car)
    (performances : list (Q * bool)) (best : GATrain.BestPerformance)
    (raceCompleted : bool)
    : option (list GA.Car * list (Q * bool) * GATrain.BestPerformance * bool) :=
  match fuel with
  | O => Some (population, performances, best, raceCompleted)
  | S f =>
      if (i <? POPULATION_SIZE)%Z then
        let* car := vec_at population i in
        let* r := GA.evaluate M car in
        let '(reward, success, car) := r in
        let population := vec_set population (Z.to_nat i) car in
        let performances := performances ++ [(reward, success)] in
        let best := GATrain.update_best best generation reward car in
        let raceCompleted := if success then true else raceCompleted in
        evaluate_loop f (i + 1) generation population performances best raceCompleted
      else Some (population, performances, best, raceCompleted)
  end.

(** [while (generation < MAX_GENERATIONS && !raceCompleted)]: evaluation,
    selection of the top performers, next generation; at most
    [MAX_GENERATIONS] passes.  The generation statistics only feed console
    output and are left out. *)
Fixpoint train_loop (fuel : nat) (generation : Z) (population : list GA.Car)
    (best : GATrain.BestPerformance) (raceCompleted : bool) (g : G)
    : option (Z * list GA.Car * GATrain.BestPerformance * bool * G) :=
  match fuel with
  | O => Some (generation, population, best, raceCompleted, g)
  | S f =>
      if (generation <? MAX_GENERATIONS)%Z && negb raceCompleted then
        let generation := (generation + 1)%Z in
        let* r := evaluate_loop (Z.to_nat POPULATION_SIZE) 0 generation population []
                                best raceCompleted in
        let '(population, performances, best, raceCompleted) := r in
        let* topPerformers :=
          GATrain.selectTopPerformers population (sort_indices performances)
                                      TOP_PERFORMERS in
        let* r' := GATrain.createNextGeneration G uniform_real normal uniform_int
                     topPerformers POPULATION_SIZE g in
        let '(population, g) := r' in
        train_loop f generation population best raceCompleted g
      else Some (generation, population, best, raceCompleted, g)
  end.

(** The training part of [main]: the population, the unused [bestCar]
    (whose constructor draws one more policy), then the loop; returns the
    generation counter, the population, the all-time best and the
    [raceCompleted] flag. *)
Definition train (wps : list Vector2f) (g : G)
    : option (Z * list GA.Car * GATrain.BestPerformance * bool * G) :=
  let* r := init_population (Z.to_nat POPULATION_SIZE) wps g in
  let '(population, g) := r in
  let* r := new_car wps g in
  let '(_, g) := r in
  train_loop (Z.to_nat MAX_GENERATIONS) 0 population GATrain.bestEver_init false g.

End Main.

End GAMain.

(** [single_entry i v]: the all-zero table of standard length with [v] at
    index [i]. *)
Definition single_entry (i : nat) (v : Q) : list Q :=
  map (fun n => if Nat.eqb n i then v else 0) (seq 0 policy_size).

(** Loop invariants of the two rollout loops, at the loop head: the policy
    has the standard length, the target index is a valid index, and the
    step counter is even (two increments per pass) and within the cap. *)
Definition GA_loop_ok (c : GA.Car) : Prop :=
  length (GA.policyWeights c) = policy_size /\
  (0 <= GA.targetWaypointIndex c < Z.of_nat (length (GA.trainingTrackPoints c)))%Z /\
  (0 <= GA.steps c <= GA.MAX_STEPS_PER_EPISODE)%Z /\
  (exists k, GA.steps c = 2 * k)%Z.

Definition PSO_loop_ok (c : PSO.Car) : Prop :=
  length (PSO.policyWeights c) = policy_size /\
  (0 <= PSO.currentCheckpoint c)%Z /\
  (0 <= PSO.steps c <= PSO.MAX_STEPS_PER_EPISODE)%Z /\
  (exists k, PSO.steps c = 2 * k)%Z.

(** A child as [createNextGeneration] builds it: a reset copy of [parent]
    (first track point, heading 0, speed 0, counters 0) with weights [ws]
    of the parent's length. *)
Definition fresh_child_of (top : list GA.Car) (child : GA.Car) : Prop :=
  exists parent p0 ps ws,
    In parent top /\ GA.trainingTrackPoints parent = p0 :: ps /\
    length ws = length (GA.policyWeights parent) /\
    child = GA.mkCar (p0 :: ps) ws p0 0 0 false 0 0.

(** Vector lengths of a particle of a swarm over [n] weights. *)
Definition particle_shape (n : nat) (p : PSOTrain.Particle) : Prop :=
  length (PSOTrain.position p) = n /\ length (PSOTrain.velocity p) = n /\
  length (PSOTrain.personalBestPosition p) = n.

(** A waypoint [b] obtained from [a] by adding one draw of
    [mutationDist(-20, 20)] to each coordinate. *)
Definition within_mutation (a b : Vector2f) : Prop :=
  vx a - 20 <= vx b <= vx a + 20 /\ vy a - 20 <= vy b <= vy a + 20.

(** A car as the constructors of the GA program leave it on the track
    [wps]: at the first track point, heading 0, speed 0, counters 0, with
    a policy table of the standard length. *)
Definition fresh_car (wps : list Vector2f) (c : GA.Car) : Prop :=
  exists ws, length ws = policy_size /\ GA.make_car wps ws = Some c.

(* ================================================================== *)
(** * Properties *)

(** ** Sample bins of [angleToDiscrete] *)

Example angle_bins_ex :
  (angleToDiscrete 0, angleToDiscrete 355, angleToDiscrete (-5),
   angleToDiscrete 725, angleToDiscrete (-3600 + 15)) = (0, 35, 35, 0, 1)%Z.
Proof. vm_compute. reflexivity. Qed.

(** ** Reflection of the float comparisons *)

Lemma flt_spec x y : flt x y = true <-> x < y.
Proof.
  unfold flt. rewrite negb_true_iff. split; intro H.
  - apply Qnot_le_lt. intro H'. apply Qle_bool_iff in H'. congruence.
  - destruct (Qle_bool y x) eqn:E; [|reflexivity].
    apply Qle_bool_iff in E. exfalso. apply (Qlt_not_le _ _ H E).
Qed.

Lemma flt_false x y : flt x y = false <-> y <= x.
Proof.
  unfold flt. rewrite negb_false_iff. apply Qle_bool_iff.
Qed.

Lemma fle_spec x y : fle x y = true <-> x <= y.
Proof. apply Qle_bool_iff. Qed.

Lemma fle_false x y : fle x y = false <-> y < x.
Proof.
  split; intro H.
  - apply Qnot_le_lt. intro H'. apply fle_spec in H'. congruence.
  - destruct (fle x y) eqn:E; [|reflexivity].
    apply fle_spec in E. exfalso. apply (Qlt_not_le _ _ H E).
Qed.

Ltac qcmp :=
  repeat match goal with
  | H : flt _ _ = true |- _ => apply flt_spec in H
  | H : flt _ _ = false |- _ => apply flt_false in H
  | H : fle _ _ = true |- _ => apply fle_spec in H
  | H : fle _ _ = false |- _ => apply fle_false in H
  end.

Lemma fadd_eq x y : fadd x y == x + y.
Proof. apply Qred_correct. Qed.
Lemma fsub_eq x y : fsub x y == x - y.
Proof. apply Qred_correct. Qed.
Lemma fmul_eq x y : fmul x y == x * y.
Proof. apply Qred_correct. Qed.

(** ** The wrap-around loops *)

Definition Qof_nat (n : nat) : Q := inject_Z (Z.of_nat n).

Lemma Qof_nat_S n : Qof_nat (S n) == Qof_nat n + 1.
Proof.
  unfold Qof_nat. rewrite Nat2Z.inj_succ, <- Z.add_1_r, inject_Z_plus. reflexivity.
Qed.

Lemma Qof_nat_nonneg n : 0 <= Qof_nat n.
Proof.
  unfold Qof_nat. change 0 with (inject_Z 0). rewrite <- Zle_Qle. lia.
Qed.

Lemma wrap_below_shift n a :
  exists j : Z, wrap_below n a == a + 360 * inject_Z j.
Proof.
  revert a; induction n as [|n IH]; intro a; simpl.
  - exists 0%Z. simpl. ring.
  - destruct (flt a 0).
    + destruct (IH (fadd a 360)) as [j Hj]. exists (j + 1)%Z.
      rewrite Hj, fadd_eq, inject_Z_plus. simpl. ring.
    + exists 0%Z. simpl. ring.
Qed.

Lemma wrap_below_nonneg n a :
  - a <= 360 * Qof_nat n -> 0 <= wrap_below n a.
Proof.
  revert a; induction n as [|n IH]; intros a H; simpl.
  - change (Qof_nat 0) with 0 in H. lra.
  - destruct (flt a 0) eqn:E; qcmp.
    + apply IH. rewrite fadd_eq. rewrite Qof_nat_S in H. lra.
    + exact E.
Qed.

Lemma wrap_below_lt n a : a < 360 -> wrap_below n a < 360.
Proof.
  revert a; induction n as [|n IH]; intros a H; simpl; [exact H|].
  destruct (flt a 0) eqn:E; qcmp; [|exact H].
  apply IH. rewrite fadd_eq. lra.
Qed.

Lemma wrap_below_id n a : 0 <= a -> wrap_below n a = a.
Proof.
  destruct n; simpl; [reflexivity|]. intro H.
  destruct (flt a 0) eqn:E; qcmp; [lra|reflexivity].
Qed.

Lemma wrap_above_shift n a :
  exists j : Z, wrap_above n a == a + 360 * inject_Z j.
Proof.
  revert a; induction n as [|n IH]; intro a; simpl.
  - exists 0%Z. simpl. ring.
  - unfold fge. destruct (fle 360 a).
    + destruct (IH (fsub a 360)) as [j Hj]. exists (j + -1)%Z.
      rewrite Hj, fsub_eq, inject_Z_plus. simpl. ring.
    + exists 0%Z. simpl. ring.
Qed.

Lemma wrap_above_range n a :
  0 <= a -> a < 360 * (Qof_nat n + 1) ->
  0 <= wrap_above n a /\ wrap_above n a < 360.
Proof.
  revert a; induction n as [|n IH]; intros a H0 H1; simpl.
  - change (Qof_nat 0) with 0 in H1. lra.
  - unfold fge. destruct (fle 360 a) eqn:E; qcmp.
    + apply IH; rewrite fsub_eq; [lra|]. rewrite Qof_nat_S in H1. lra.
    + lra.
Qed.

Lemma wrap_above_id n a : a < 360 -> wrap_above n a = a.
Proof.
  destruct n; simpl; [reflexivity|]. intro H. unfold fge.
  destruct (fle 360 a) eqn:E; qcmp; [lra|reflexivity].
Qed.

Lemma loop_fuel_bound a : Qabs a <= 360 * (Qof_nat (loop_fuel a) - 1).
Proof.
  unfold loop_fuel. rewrite Qof_nat_S.
  assert (Hc : Qabs a / 360 <= inject_Z (Qceiling (Qabs a / 360)))
    by apply Qle_ceiling.
  assert (Hn : (0 <= Qceiling (Qabs a / 360))%Z).
  { assert (0 <= Qabs a / 360).
    { apply Qle_shift_div_l; [reflexivity|]. rewrite Qmult_0_l. apply Qabs_nonneg. }
    rewrite Zle_Qle. change (inject_Z 0) with 0. lra. }
  unfold Qof_nat. rewrite Z2Nat.id by exact Hn.
  set (k := inject_Z (Qceiling (Qabs a / 360))) in *.
  assert (Qabs a <= 360 * k).
  { assert (E : Qabs a == (Qabs a / 360) * 360) by (field; discriminate).
    rewrite E. apply (Qmult_le_compat_r _ _ 360) in Hc; [|discriminate]. lra. }
  lra.
Qed.

Lemma wrap360_range a : 0 <= wrap360 a /\ wrap360 a < 360.
Proof.
  unfold wrap360.
  set (a1 := wrap_below (loop_fuel a) a).
  assert (H0 : 0 <= a1).
  { apply wrap_below_nonneg. pose proof (loop_fuel_bound a) as Hb.
    pose proof (Qle_Qabs (- a)) as Ha. rewrite Qabs_opp in Ha. lra. }
  apply wrap_above_range; [exact H0|].
  pose proof (loop_fuel_bound a1). pose proof (Qle_Qabs a1). lra.
Qed.

Lemma wrap360_shift a : exists j : Z, wrap360 a == a + 360 * inject_Z j.
Proof.
  unfold wrap360.
  destruct (wrap_below_shift (loop_fuel a) a) as [j1 H1].
  destruct (wrap_above_shift (loop_fuel (wrap_below (loop_fuel a) a))
                             (wrap_below (loop_fuel a) a)) as [j2 H2].
  exists (j1 + j2)%Z. rewrite H2, H1, inject_Z_plus. ring.
Qed.

Lemma wrap360_id a : 0 <= a -> a < 360 -> wrap360 a = a.
Proof.
  intros H0 H1. unfold wrap360. rewrite wrap_below_id by exact H0.
  apply wrap_above_id, H1.
Qed.

(** ** Discretisation *)

Lemma f2i_floor q : 0 <= q -> f2i (Qred q) = Qfloor q.
Proof.
  intro H. rewrite <- (Qfloor_comp (Qred q) q (Qred_correct q)).
  assert (H' : 0 <= Qred q) by (rewrite Qred_correct; exact H).
  destruct (Qred q) as [n d]. unfold f2i, Qfloor. simpl.
  apply Z.quot_div_nonneg; [|lia].
  unfold Qle in H'. simpl in H'. lia.
Qed.

Lemma Qfloor_range q (m : Z) :
  0 <= q -> q < inject_Z m -> (0 <= Qfloor q < m)%Z.
Proof.
  intros H0 H1. pose proof (Qfloor_le q) as Hl. pose proof (Qlt_floor q) as Hu.
  rewrite inject_Z_plus in Hu. change (inject_Z 1) with 1 in Hu. split.
  - assert (Hx : -1 < inject_Z (Qfloor q)) by lra.
    change (-1) with (inject_Z (-1)) in Hx. rewrite <- Zlt_Qlt in Hx. lia.
  - rewrite Zlt_Qlt. lra.
Qed.

Lemma angleToDiscrete_bin a :
  angleToDiscrete a = Qfloor (wrap360 a / 10) /\
  (0 <= Qfloor (wrap360 a / 10) < NUM_ANGLE_STATES)%Z.
Proof.
  destruct (wrap360_range a) as [H0 H1].
  assert (Hq : 0 <= wrap360 a / 10).
  { apply Qle_shift_div_l; [reflexivity|]. lra. }
  assert (Hr : (0 <= Qfloor (wrap360 a / 10) < NUM_ANGLE_STATES)%Z).
  { apply Qfloor_range; [exact Hq|].
    apply Qlt_shift_div_r; [reflexivity|]. change (inject_Z NUM_ANGLE_STATES) with 36.
    lra. }
  split; [|exact Hr].
  unfold angleToDiscrete, fdiv. rewrite f2i_floor by exact Hq.
  apply Z.rem_small. exact Hr.
Qed.

Lemma wrap360_full_turns a k : wrap360 (a + 360 * inject_Z k) == wrap360 a.
Proof.
  destruct (wrap360_shift (a + 360 * inject_Z k)) as [j1 H1].
  destruct (wrap360_shift a) as [j2 H2].
  destruct (wrap360_range (a + 360 * inject_Z k)) as [R1 R2].
  destruct (wrap360_range a) as [R3 R4].
  set (m := (k + j1 + - j2)%Z).
  assert (Hm : wrap360 (a + 360 * inject_Z k) - wrap360 a == 360 * inject_Z m).
  { rewrite H1, H2. unfold m. rewrite !inject_Z_plus, inject_Z_opp. ring. }
  assert (Hlo : (-1 < m)%Z).
  { rewrite Zlt_Qlt. change (inject_Z (-1)) with (-1). lra. }
  assert (Hhi : (m < 1)%Z).
  { rewrite Zlt_Qlt. change (inject_Z 1) with 1. lra. }
  assert (m = 0%Z) as E by lia. rewrite E in Hm. change (inject_Z 0) with 0 in Hm.
  lra.
Qed.

Lemma speedToDiscrete_range s : (0 <= speedToDiscrete s < NUM_SPEED_STATES)%Z.
Proof.
  unfold speedToDiscrete, iclamp, NUM_SPEED_STATES.
  destruct (Qfloor s <? 0)%Z eqn:E1; [lia|].
  destruct (6 - 1 <? Qfloor s)%Z eqn:E2; lia.
Qed.

(** ** Reading the policy table *)

Lemma vec_at_nth (w : list Q) (i : Z) :
  (0 <= i)%Z -> (Z.to_nat i < length w)%nat -> vec_at w i = Some (nth (Z.to_nat i) w 0).
Proof.
  intros H0 H1. unfold vec_at. destruct (i <? 0)%Z eqn:E; [lia|].
  apply nth_error_nth'. exact H1.
Qed.

Lemma read_scores_some (w : list Q) (base : Z) (l : list Z) :
  Forall (fun a => (0 <= base + a)%Z /\ (Z.to_nat (base + a) < length w)%nat) l ->
  read_scores w base l = Some (map (fun a => nth (Z.to_nat (base + a)) w 0) l).
Proof.
  induction l as [|a l IH]; intro H; simpl; [reflexivity|].
  inversion H as [|? ? [Ha Hb] Hl]; subst.
  rewrite vec_at_nth by (try exact Ha; lia). rewrite IH by exact Hl. reflexivity.
Qed.

Lemma row_in_bounds (w : list Q) (angleBin speedBin : Z) :
  length w = policy_size ->
  (0 <= angleBin < NUM_ANGLE_STATES)%Z -> (0 <= speedBin < NUM_SPEED_STATES)%Z ->
  Forall (fun a => (0 <= angleBin * NUM_SPEED_STATES * NUM_ACTIONS
                       + speedBin * NUM_ACTIONS + a)%Z /\
                   (Z.to_nat (angleBin * NUM_SPEED_STATES * NUM_ACTIONS
                       + speedBin * NUM_ACTIONS + a) < length w)%nat) action_indices.
Proof.
  intros Hl Ha Hs. rewrite Hl. unfold policy_size, action_indices.
  unfold NUM_ANGLE_STATES, NUM_SPEED_STATES, NUM_ACTIONS in *.
  repeat (apply Forall_cons; [split; lia|]). apply Forall_nil.
Qed.

(** ** The argmax loop of [chooseAction] *)

Ltac five_cases j :=
  let Hc := fresh "Hc" in
  assert (Hc : (j = 0 \/ j = 1 \/ j = 2 \/ j = 3 \/ j = 4)%Z) by lia;
  destruct Hc as [->|[->|[->|[->| ->]]]].

Lemma best_index_spec (s0 s1 s2 s3 s4 : Q) :
  let l := [s0; s1; s2; s3; s4] in
  let i := best_index l in
  (0 <= i < NUM_ACTIONS)%Z /\
  (forall j, (0 <= j < NUM_ACTIONS)%Z -> nth (Z.to_nat j) l 0 <= nth (Z.to_nat i) l 0) /\
  (forall j, (0 <= j < i)%Z -> nth (Z.to_nat j) l 0 < nth (Z.to_nat i) l 0).
Proof.
  cbn zeta. unfold best_index, argmax_loop, fgt, NUM_ACTIONS.
  repeat match goal with
  | |- context [if flt ?x ?y then _ else _] =>
      let E := fresh "E" in destruct (flt x y) eqn:E
  end; qcmp;
  (split; [lia|split]; intros j Hj; five_cases j; try lia; simpl; lra).
Qed.

Lemma read_scores_length (w : list Q) (base : Z) (l : list Z) :
  forall s, read_scores w base l = Some s -> length s = length l.
Proof.
  induction l as [|a l IH]; intros s H; simpl in H.
  - injection H as <-. reflexivity.
  - destruct (vec_at w (base + a)%Z); [|discriminate].
    destruct (read_scores w base l) eqn:E; [|discriminate].
    injection H as <-. simpl. f_equal. apply IH. reflexivity.
Qed.

Lemma score_list_length (w : list Q) (base : Z) :
  forall s, read_scores w base action_indices = Some s ->
  exists s0 s1 s2 s3 s4, s = [s0; s1; s2; s3; s4].
Proof.
  intros s H. apply read_scores_length in H. simpl in H.
  destruct s as [|s0 [|s1 [|s2 [|s3 [|s4 [|]]]]]]; try discriminate.
  do 5 eexists. reflexivity.
Qed.

Lemma single_entry_length i v : length (single_entry i v) = policy_size.
Proof. unfold single_entry. rewrite length_map, length_seq. reflexivity. Qed.

Lemma single_entry_nth i v n :
  (n < policy_size)%nat -> nth n (single_entry i v) 0 = if Nat.eqb n i then v else 0.
Proof.
  intro H. unfold single_entry.
  set (f := fun n => if Nat.eqb n i then v else 0).
  rewrite (nth_indep _ _ (f 0%nat)) by (rewrite length_map, length_seq; exact H).
  rewrite map_nth, seq_nth by exact H. reflexivity.
Qed.

Lemma nth_row (f : Z -> Q) (j : Z) :
  (0 <= j < NUM_ACTIONS)%Z -> nth (Z.to_nat j) (map f action_indices) 0 = f j.
Proof. unfold NUM_ACTIONS. intro H. five_cases j; reflexivity. Qed.

Lemma selectAction_row (w : list Q) (angleBin speedBin : Z) :
  length w = policy_size ->
  (0 <= angleBin < NUM_ANGLE_STATES)%Z -> (0 <= speedBin < NUM_SPEED_STATES)%Z ->
  let base := (angleBin * NUM_SPEED_STATES * NUM_ACTIONS + speedBin * NUM_ACTIONS)%Z in
  let score j := nth (Z.to_nat (base + j)) w 0 in
  exists i, (0 <= i < NUM_ACTIONS)%Z /\
     selectAction w angleBin speedBin = Some (action_of_index i) /\
     (forall j, (0 <= j < NUM_ACTIONS)%Z -> score j <= score i) /\
     (forall j, (0 <= j < i)%Z -> score j < score i).
Proof.
  intros Hl Ha Hs base score.
  unfold selectAction. fold base.
  rewrite (read_scores_some w base action_indices (row_in_bounds w angleBin speedBin Hl Ha Hs)).
  set (l := map (fun a => nth (Z.to_nat (base + a)) w 0) action_indices).
  assert (El : l = [score 0; score 1; score 2; score 3; score 4]%Z) by reflexivity.
  pose proof (best_index_spec (score 0%Z) (score 1%Z) (score 2%Z) (score 3%Z) (score 4%Z))
    as [Hi [Hmax Hfirst]].
  cbn zeta in Hi, Hmax, Hfirst. rewrite <- El in Hi, Hmax, Hfirst.
  exists (best_index l). split; [exact Hi|]. split; [reflexivity|].
  assert (Hn : forall j, (0 <= j < NUM_ACTIONS)%Z -> nth (Z.to_nat j) l 0 = score j)
    by (intros j Hj; apply (nth_row (fun a => nth (Z.to_nat (base + a)) w 0)); exact Hj).
  split.
  - intros j Hj. rewrite <- (Hn j Hj), <- (Hn _ Hi). apply Hmax, Hj.
  - intros j Hj. rewrite <- (Hn j ltac:(lia)), <- (Hn _ Hi). apply Hfirst, Hj.
Qed.

(** C4: for every policy table of the standard length and every discrete
    state (angleBin, speedBin), [selectAction] reads the [NUM_ACTIONS] scores
    of the table row and returns the action of the index [i] in [0, 5) whose
    score is maximal, the lowest such index on ties (all earlier scores are
    strictly smaller); for a table that is zero everywhere except one
    positive entry in that row, it returns that entry's action. *)
Theorem selectAction_argmax (w : list Q) (angleBin speedBin : Z) :
  length w = policy_size ->
  (0 <= angleBin < NUM_ANGLE_STATES)%Z -> (0 <= speedBin < NUM_SPEED_STATES)%Z ->
  let base := (angleBin * NUM_SPEED_STATES * NUM_ACTIONS + speedBin * NUM_ACTIONS)%Z in
  let score j := nth (Z.to_nat (base + j)) w 0 in
  (exists i, (0 <= i < NUM_ACTIONS)%Z /\
     selectAction w angleBin speedBin = Some (action_of_index i) /\
     (forall j, (0 <= j < NUM_ACTIONS)%Z -> score j <= score i) /\
     (forall j, (0 <= j < i)%Z -> score j < score i)) /\
  (forall k v, (0 <= k < NUM_ACTIONS)%Z -> 0 < v ->
     selectAction (single_entry (Z.to_nat (base + k)) v) angleBin speedBin
     = Some (action_of_index k)).
Proof.
  intros Hl Ha Hs base score. split.
  - apply selectAction_row; assumption.
  - intros k v Hk Hv.
    destruct (selectAction_row (single_entry (Z.to_nat (base + k)) v) angleBin speedBin
                (single_entry_length _ _) Ha Hs) as [i [Hi [Hsel [Hmax _]]]].
    fold base in Hsel, Hmax. rewrite Hsel. f_equal.
    specialize (Hmax k Hk). cbn beta in Hmax.
    assert (Hb : (0 <= base /\ base + NUM_ACTIONS <= NUM_ANGLE_STATES * NUM_SPEED_STATES * NUM_ACTIONS)%Z)
      by (unfold base, NUM_ANGLE_STATES, NUM_SPEED_STATES, NUM_ACTIONS in *; lia).
    unfold NUM_ANGLE_STATES, NUM_SPEED_STATES, NUM_ACTIONS in *.
    rewrite !single_entry_nth in Hmax
      by (unfold policy_size, NUM_ANGLE_STATES, NUM_SPEED_STATES, NUM_ACTIONS; lia).
    rewrite Nat.eqb_refl in Hmax.
    destruct (Nat.eqb (Z.to_nat (base + i)) (Z.to_nat (base + k))) eqn:E.
    + apply Nat.eqb_eq in E. f_equal. lia.
    + lra.
Qed.

(** C9: [angleToDiscrete] is invariant under adding any whole number of full
    turns, and on [0, 360) it is the fixed-width 10-degree bin
    [floor(a / 10)], a value in [0, 36). *)
Theorem angleToDiscrete_turn_invariant :
  (forall (a : Q) (k : Z), angleToDiscrete (a + 360 * inject_Z k) = angleToDiscrete a) /\
  (forall a : Q, 0 <= a < 360 ->
     angleToDiscrete a = Qfloor (a / 10) /\ (0 <= Qfloor (a / 10) < 36)%Z).
Proof.
  split.
  - intros a k. unfold angleToDiscrete, fdiv. f_equal. f_equal. apply Qred_complete.
    rewrite wrap360_full_turns. reflexivity.
  - intros a [H0 H1]. destruct (angleToDiscrete_bin a) as [E R].
    rewrite wrap360_id in E, R by assumption. split; [exact E|exact R].
Qed.

Lemma chooseActionFor_some (w : list Q) (orientation speed : Q) :
  length w = policy_size -> exists act, chooseActionFor w orientation speed = Some act.
Proof.
  intros Hl. unfold chooseActionFor.
  destruct (angleToDiscrete_bin orientation) as [Ea Ra].
  destruct (selectAction_row w (angleToDiscrete orientation) (speedToDiscrete speed) Hl)
    as [i [_ [Hsel _]]].
  - rewrite Ea. exact Ra.
  - apply speedToDiscrete_range.
  - eexists. exact Hsel.
Qed.

(** C10: for every agent state with orientation in [0, 360) and a
    non-negative speed, and every policy of the standard length
    36 x 6 x 5 = 1080, the table reads of [chooseAction] stay in bounds:
    the error branch of the indexing is never taken. *)
Theorem chooseAction_in_bounds (w : list Q) (orientation speed : Q) :
  length w = policy_size -> 0 <= orientation < 360 -> 0 <= speed ->
  exists act, chooseActionFor w orientation speed = Some act.
Proof.
  intros Hl _ _. apply chooseActionFor_some, Hl.
Qed.

(** ** Best-so-far records *)

Lemma update_best_mono b generation reward car :
  GATrain.bp_reward b <= GATrain.bp_reward (GATrain.update_best b generation reward car).
Proof.
  unfold GATrain.update_best, fgt. destruct (flt _ _) eqn:E; qcmp; simpl; lra.
Qed.

Lemma evaluate_population_mono M generation pop :
  forall b rc perfs b' rc',
  GATrain.evaluate_population M generation pop b rc = Some (perfs, b', rc') ->
  GATrain.bp_reward b <= GATrain.bp_reward b'.
Proof.
  induction pop as [|car pop IH]; intros b rc perfs b' rc' H; simpl in H.
  - injection H as _ <- _. lra.
  - destruct (GA.evaluate M car) as [[[reward success] car']|]; [|discriminate].
    destruct (GATrain.evaluate_population M generation pop _ _)
      as [[[perfs0 b0] rc0]|] eqn:E; [|discriminate].
    injection H as _ <- _. apply IH in E.
    pose proof (update_best_mono b generation reward car'). lra.
Qed.

Lemma updatePersonalBest_mono p fitness :
  PSOTrain.personalBestFitness p
  <= PSOTrain.personalBestFitness (PSOTrain.updatePersonalBest p fitness).
Proof.
  unfold PSOTrain.updatePersonalBest, fgt. destruct (flt _ _) eqn:E; qcmp; simpl; lra.
Qed.

Lemma update_global_mono gl generation p reward success car :
  PSOTrain.globalBestFitness gl
  <= PSOTrain.globalBestFitness (PSOTrain.update_global gl generation p reward success car).
Proof.
  unfold PSOTrain.update_global, fgt. destruct (flt _ _) eqn:E; qcmp; simpl; lra.
Qed.

Lemma evaluate_swarm_mono G ur M wps cps generation swarm :
  forall gl g swarm' gl' g',
  PSOTrain.evaluate_swarm G ur M wps cps generation swarm gl g = Some (swarm', gl', g') ->
  PSOTrain.globalBestFitness gl <= PSOTrain.globalBestFitness gl' /\
  Forall2 (fun p p' => PSOTrain.personalBestFitness p <= PSOTrain.personalBestFitness p')
          swarm swarm'.
Proof.
  induction swarm as [|p swarm IH]; intros gl g swarm' gl' g' H;
    cbn [PSOTrain.evaluate_swarm] in H.
  - injection H as <- <- _. split; [lra|constructor].
  - destruct (PSOTrain.initializeRandomPolicy G ur policy_size g) as [w0 g0].
    destruct (PSO.make_car wps cps (PSOTrain.position p)) as [car|]; [|discriminate].
    destruct (PSO.evaluate M car) as [[[reward success] car']|]; [|discriminate].
    destruct (PSOTrain.evaluate_swarm G ur M wps cps generation swarm _ g0)
      as [[[rest gl0] g1]|] eqn:E; [|discriminate].
    injection H as <- <- _. apply IH in E as [E1 E2]. split.
    + pose proof (update_global_mono gl generation (PSOTrain.updatePersonalBest p reward)
                    reward success car'). lra.
    + constructor; [apply updatePersonalBest_mono|exact E2].
Qed.

Lemma update_particle_loop_fitness G ur fuel :
  forall i n p gb g p' g',
  PSOTrain.update_particle_loop G ur fuel i n p gb g = Some (p', g') ->
  PSOTrain.personalBestFitness p' = PSOTrain.personalBestFitness p.
Proof.
  induction fuel as [|fuel IH]; intros i n p gb g p' g' H;
    cbn [PSOTrain.update_particle_loop] in H.
  - injection H as <- _. reflexivity.
  - destruct (i <? n)%Z; [|injection H as <- _; reflexivity].
    destruct (ur 0 1 g) as [r1 g1]. destruct (ur 0 1 g1) as [r2 g2].
    destruct (vec_at (PSOTrain.velocity p) i); [|discriminate].
    destruct (vec_at (PSOTrain.position p) i); [|discriminate].
    destruct (vec_at (PSOTrain.personalBestPosition p) i); [|discriminate].
    destruct (vec_at gb i); [|discriminate].
    destruct (PSOTrain.update_dim _ _ _ _ _ _) as [v x].
    apply IH in H. rewrite H. reflexivity.
Qed.

Lemma update_swarm_fitness G ur n swarm :
  forall gb g swarm' g',
  PSOTrain.update_swarm G ur n swarm gb g = Some (swarm', g') ->
  Forall2 (fun p p' => PSOTrain.personalBestFitness p' = PSOTrain.personalBestFitness p)
          swarm swarm'.
Proof.
  induction swarm as [|p swarm IH]; intros gb g swarm' g' H; simpl in H.
  - injection H as <- _. constructor.
  - destruct (PSOTrain.update_particle G ur n p gb g) as [[p1 g1]|] eqn:E1; [|discriminate].
    destruct (PSOTrain.update_swarm G ur n swarm gb g1) as [[rest g2]|] eqn:E2; [|discriminate].
    injection H as <- _. constructor.
    + eapply update_particle_loop_fitness. exact E1.
    + eapply IH. exact E2.
Qed.

(** C5: the best-so-far records (the GA program's [bestEver], the PSO
    program's global best and each particle's personal best) are
    overwritten exactly when the new reward is strictly greater than the
    stored one and left unchanged otherwise; hence over the evaluation loop
    of a generation each stored best reward never decreases, and the PSO
    velocity/position update leaves the personal-best fitness unchanged. *)
Theorem best_records_strict_update :
  (forall b generation reward car,
     (GATrain.bp_reward b < reward ->
        GATrain.update_best b generation reward car =
        GATrain.mkBest reward generation (GA.targetWaypointIndex car) (GA.policyWeights car))
     /\ (reward <= GATrain.bp_reward b -> GATrain.update_best b generation reward car = b))
  /\ (forall p fitness,
     (PSOTrain.personalBestFitness p < fitness ->
        PSOTrain.updatePersonalBest p fitness =
        PSOTrain.mkParticle (PSOTrain.position p) (PSOTrain.velocity p)
                            (PSOTrain.position p) fitness)
     /\ (fitness <= PSOTrain.personalBestFitness p -> PSOTrain.updatePersonalBest p fitness = p))
  /\ (forall gl generation p reward success car,
     (PSOTrain.globalBestFitness gl < reward ->
        PSOTrain.update_global gl generation p reward success car =
        PSOTrain.mkGlobal (PSOTrain.position p) reward
          (PSOTrain.mkBest reward generation (PSO.currentCheckpoint car)
                           (PSOTrain.position p) (PSO.path car))
          (if success then true else PSOTrain.raceCompleted gl))
     /\ (reward <= PSOTrain.globalBestFitness gl ->
        PSOTrain.update_global gl generation p reward success car = gl))
  /\ (forall M generation pop b rc perfs b' rc',
     GATrain.evaluate_population M generation pop b rc = Some (perfs, b', rc') ->
     GATrain.bp_reward b <= GATrain.bp_reward b')
  /\ (forall G ur M wps cps generation swarm gl g swarm' gl' g',
     PSOTrain.evaluate_swarm G ur M wps cps generation swarm gl g = Some (swarm', gl', g') ->
     PSOTrain.globalBestFitness gl <= PSOTrain.globalBestFitness gl' /\
     Forall2 (fun p p' => PSOTrain.personalBestFitness p <= PSOTrain.personalBestFitness p')
             swarm swarm')
  /\ (forall G ur n swarm gb g swarm' g',
     PSOTrain.update_swarm G ur n swarm gb g = Some (swarm', g') ->
     Forall2 (fun p p' => PSOTrain.personalBestFitness p' = PSOTrain.personalBestFitness p)
             swarm swarm').
Proof.
  split; [|split; [|split; [|split; [|split]]]].
  - intros b generation reward car. unfold GATrain.update_best, fgt.
    split; intro H; destruct (flt _ _) eqn:E; qcmp; try reflexivity; lra.
  - intros p fitness. unfold PSOTrain.updatePersonalBest, fgt.
    split; intro H; destruct (flt _ _) eqn:E; qcmp; try reflexivity; lra.
  - intros gl generation p reward success car. unfold PSOTrain.update_global, fgt.
    split; intro H; destruct (flt _ _) eqn:E; qcmp; try reflexivity; lra.
  - intros. eapply evaluate_population_mono. eassumption.
  - intros. eapply evaluate_swarm_mono. eassumption.
  - intros. eapply update_swarm_fitness. eassumption.
Qed.

(* ------------------------------------------------------------------ *)
(** ** Weight and velocity bounds *)

Lemma fclamp_range v lo hi : lo <= hi -> lo <= fclamp v lo hi <= hi.
Proof.
  intro H. unfold fclamp.
  destruct (flt v lo) eqn:E1; qcmp; [lra|].
  destruct (flt hi v) eqn:E2; qcmp; lra.
Qed.

Lemma mutate_bounded G ur nrm ws :
  forall g ws' g',
  Forall (fun w => -5 <= w <= 5) ws ->
  GATrain.mutate G ur nrm ws g = (ws', g') ->
  Forall (fun w => -5 <= w <= 5) ws'.
Proof.
  induction ws as [|w ws IH]; intros g ws' g' Hb H; cbn [GATrain.mutate] in H.
  - injection H as <- _. constructor.
  - inversion Hb as [|? ? Hw Hws]; subst.
    destruct (ur 0 1 g) as [chance g1].
    destruct (flt chance GA.MUTATION_RATE).
    + destruct (nrm 0 (1 # 10) g1) as [n g2].
      destruct (GATrain.mutate G ur nrm ws g2) as [rest g3] eqn:E.
      injection H as <- _. constructor.
      * apply fclamp_range. lra.
      * eapply IH; eassumption.
    + destruct (GATrain.mutate G ur nrm ws g1) as [rest g3] eqn:E.
      injection H as <- _. constructor; [exact Hw|]. eapply IH; eassumption.
Qed.

Lemma GA_reset_weights c c' :
  GA.reset c = Some c' -> GA.policyWeights c' = GA.policyWeights c.
Proof.
  unfold GA.reset. destruct (vec_at _ 0); [|discriminate].
  intro H. injection H as <-. reflexivity.
Qed.

Lemma GA_reset_track c c' :
  GA.reset c = Some c' -> GA.trainingTrackPoints c' = GA.trainingTrackPoints c.
Proof.
  unfold GA.reset. destruct (vec_at _ 0); [|discriminate].
  intro H. injection H as <-. reflexivity.
Qed.

Lemma GA_reset_some c :
  GA.trainingTrackPoints c <> [] -> exists c', GA.reset c = Some c'.
Proof.
  unfold GA.reset. destruct (GA.trainingTrackPoints c) as [|p ps]; [contradiction|].
  intros _. eexists. reflexivity.
Qed.

Lemma vec_at_In {A} (l : list A) i x : vec_at l i = Some x -> In x l.
Proof.
  unfold vec_at. destruct (i <? 0)%Z; [discriminate|]. apply nth_error_In.
Qed.

Lemma next_generation_loop_bounded G ur nrm ui fuel top :
  forall acc g next g',
  Forall (fun c => Forall (fun w => -5 <= w <= 5) (GA.policyWeights c)) top ->
  Forall (fun c => Forall (fun w => -5 <= w <= 5) (GA.policyWeights c)) acc ->
  GATrain.next_generation_loop G ur nrm ui fuel top acc g = Some (next, g') ->
  Forall (fun c => Forall (fun w => -5 <= w <= 5) (GA.policyWeights c)) next.
Proof.
  induction fuel as [|fuel IH]; intros acc g next g' Htop Hacc H;
    cbn [GATrain.next_generation_loop] in H.
  - injection H as <- _. exact Hacc.
  - destruct (ui _ _ g) as [idx g1].
    destruct (vec_at top idx) as [parent|] eqn:Ep; [|discriminate].
    destruct (GA.reset parent) as [child|] eqn:Ec; [|discriminate].
    destruct (GATrain.mutate G ur nrm (GA.policyWeights child) g1) as [ws g2] eqn:Em.
    eapply IH; [exact Htop| |exact H].
    apply Forall_app. split; [exact Hacc|]. constructor; [|constructor].
    cbn [GATrain.with_weights GA.policyWeights].
    eapply mutate_bounded; [|exact Em].
    rewrite (GA_reset_weights _ _ Ec).
    rewrite Forall_forall in Htop. apply Htop. eapply vec_at_In. exact Ep.
Qed.

Lemma clamp_hi_lo v lo hi :
  lo <= hi ->
  lo <= (if flt (if fgt v hi then hi else v) lo then lo
         else if fgt v hi then hi else v) <= hi.
Proof.
  intro H. unfold fgt.
  destruct (flt hi v) eqn:E1; qcmp.
  - destruct (flt hi lo) eqn:E2; qcmp; lra.
  - destruct (flt v lo) eqn:E2; qcmp; lra.
Qed.

Lemma update_dim_bounds r1 r2 v x pb gb :
  - PSO.MAX_VELOCITY <= fst (PSOTrain.update_dim r1 r2 v x pb gb) <= PSO.MAX_VELOCITY /\
  PSO.POSITION_MIN <= snd (PSOTrain.update_dim r1 r2 v x pb gb) <= PSO.POSITION_MAX.
Proof.
  unfold PSOTrain.update_dim. cbv zeta. cbn [fst snd].
  split; apply clamp_hi_lo; unfold PSO.MAX_VELOCITY, PSO.POSITION_MIN, PSO.POSITION_MAX; lra.
Qed.

Lemma list_set_Forall (P : Q -> Prop) l i x :
  Forall P l -> P x -> Forall P (PSOTrain.list_set l i x).
Proof.
  revert i. induction l as [|h t IH]; intros i Hl Hx; [constructor|].
  inversion Hl; subst. destruct i as [|i]; cbn; constructor; auto.
Qed.

Lemma update_particle_loop_bounds G ur fuel :
  forall i n p gb g p' g',
  Forall (fun v => - PSO.MAX_VELOCITY <= v <= PSO.MAX_VELOCITY) (PSOTrain.velocity p) ->
  Forall (fun x => PSO.POSITION_MIN <= x <= PSO.POSITION_MAX) (PSOTrain.position p) ->
  PSOTrain.update_particle_loop G ur fuel i n p gb g = Some (p', g') ->
  Forall (fun v => - PSO.MAX_VELOCITY <= v <= PSO.MAX_VELOCITY) (PSOTrain.velocity p') /\
  Forall (fun x => PSO.POSITION_MIN <= x <= PSO.POSITION_MAX) (PSOTrain.position p').
Proof.
  induction fuel as [|fuel IH]; intros i n p gb g p' g' Hv Hx H;
    cbn [PSOTrain.update_particle_loop] in H.
  - injection H as <- _. auto.
  - destruct (i <? n)%Z; [|injection H as <- _; auto].
    destruct (ur 0 1 g) as [r1 g1]. destruct (ur 0 1 g1) as [r2 g2].
    destruct (vec_at (PSOTrain.velocity p) i) as [v|]; [|discriminate].
    destruct (vec_at (PSOTrain.position p) i) as [x|]; [|discriminate].
    destruct (vec_at (PSOTrain.personalBestPosition p) i) as [pb|]; [|discriminate].
    destruct (vec_at gb i) as [gbi|]; [|discriminate].
    pose proof (update_dim_bounds r1 r2 v x pb gbi) as [Bv Bx].
    destruct (PSOTrain.update_dim _ _ _ _ _ _) as [v' x']. cbn [fst snd] in Bv, Bx.
    eapply IH; [| |exact H]; cbn [PSOTrain.velocity PSOTrain.position];
      apply list_set_Forall; assumption.
Qed.

(** C6: GA mutation keeps every policy weight in [-5, 5] (given the
    parents' weights are in [-5, 5]); the PSO update clamps every velocity
    component to [-MAX_VELOCITY, MAX_VELOCITY] and every position component
    to [POSITION_MIN, POSITION_MAX] = [-5, 5] whatever the inputs and random
    coefficients, and so keeps a particle's velocity and position vectors
    within these bounds. *)
Theorem weights_stay_bounded :
  (forall G ur nrm ui top popSize g next g',
     Forall (fun c => Forall (fun w => -5 <= w <= 5) (GA.policyWeights c)) top ->
     GATrain.createNextGeneration G ur nrm ui top popSize g = Some (next, g') ->
     Forall (fun c => Forall (fun w => -5 <= w <= 5) (GA.policyWeights c)) next)
  /\ (forall r1 r2 v x pb gb,
     - PSO.MAX_VELOCITY <= fst (PSOTrain.update_dim r1 r2 v x pb gb) <= PSO.MAX_VELOCITY /\
     PSO.POSITION_MIN <= snd (PSOTrain.update_dim r1 r2 v x pb gb) <= PSO.POSITION_MAX)
  /\ PSO.MAX_VELOCITY = 1 # 2 /\ PSO.POSITION_MIN = -5 /\ PSO.POSITION_MAX = 5
  /\ (forall G ur n p gb g p' g',
     Forall (fun v => - PSO.MAX_VELOCITY <= v <= PSO.MAX_VELOCITY) (PSOTrain.velocity p) ->
     Forall (fun x => PSO.POSITION_MIN <= x <= PSO.POSITION_MAX) (PSOTrain.position p) ->
     PSOTrain.update_particle G ur n p gb g = Some (p', g') ->
     Forall (fun v => - PSO.MAX_VELOCITY <= v <= PSO.MAX_VELOCITY) (PSOTrain.velocity p') /\
     Forall (fun x => PSO.POSITION_MIN <= x <= PSO.POSITION_MAX) (PSOTrain.position p')).
Proof.
  split; [|split; [|split; [|split; [|split]]]].
  - intros G ur nrm ui top popSize g next g' Htop H.
    unfold GATrain.createNextGeneration in H.
    destruct (popSize <? 0)%Z; [discriminate|].
    eapply next_generation_loop_bounded; [exact Htop|constructor|exact H].
  - apply update_dim_bounds.
  - reflexivity.
  - reflexivity.
  - reflexivity.
  - intros G ur n p gb g p' g' Hv Hx H. eapply update_particle_loop_bounds; eassumption.
Qed.

(* ------------------------------------------------------------------ *)
(** ** The rollout loops: termination within the step cap *)

Lemma vec_at_None {A} (l : list A) i :
  vec_at l i = None -> (i < 0 \/ Z.of_nat (length l) <= i)%Z.
Proof.
  unfold vec_at. destruct (i <? 0)%Z eqn:E; [left; lia|].
  intro H. apply nth_error_None in H. right. lia.
Qed.

Lemma GA_applyAction_frame M act c :
  GA.trainingTrackPoints (GA.applyAction M act c) = GA.trainingTrackPoints c /\
  GA.policyWeights (GA.applyAction M act c) = GA.policyWeights c /\
  GA.targetWaypointIndex (GA.applyAction M act c) = GA.targetWaypointIndex c /\
  GA.done (GA.applyAction M act c) = GA.done c /\
  GA.steps (GA.applyAction M act c) = (GA.steps c + 1)%Z.
Proof. destruct act; repeat split. Qed.

Lemma PSO_applyAction_frame M act c :
  PSO.trainingTrackPoints (PSO.applyAction M act c) = PSO.trainingTrackPoints c /\
  PSO.checkpointPositions (PSO.applyAction M act c) = PSO.checkpointPositions c /\
  PSO.policyWeights (PSO.applyAction M act c) = PSO.policyWeights c /\
  PSO.currentCheckpoint (PSO.applyAction M act c) = PSO.currentCheckpoint c /\
  PSO.done (PSO.applyAction M act c) = PSO.done c /\
  PSO.steps (PSO.applyAction M act c) = (PSO.steps c + 1)%Z.
Proof. destruct act; repeat split. Qed.

Ltac bool_facts :=
  repeat match goal with
  | H : (_ <=? _)%Z = true |- _ => apply Z.leb_le in H
  | H : (_ <=? _)%Z = false |- _ => apply Z.leb_gt in H
  | H : (_ <? _)%Z = true |- _ => apply Z.ltb_lt in H
  | H : (_ <? _)%Z = false |- _ => apply Z.ltb_ge in H
  end.

Lemma GA_eval_body_ok M c t z l :
  GA_loop_ok c -> GA.done c = false -> (GA.steps c < GA.MAX_STEPS_PER_EPISODE)%Z ->
  match GA.eval_body M c t z l with
  | Some (GA.Continue c' _ _ _) =>
      GA_loop_ok c' /\ GA.done c' = false /\
      GA.trainingTrackPoints c' = GA.trainingTrackPoints c /\
      GA.steps c' = (GA.steps c + 2)%Z
  | Some (GA.Break c' _) =>
      GA.done c' = true /\ (GA.steps c' <= GA.MAX_STEPS_PER_EPISODE)%Z /\
      GA.trainingTrackPoints c' = GA.trainingTrackPoints c
  | None => False
  end.
Proof.
  intros [Hw [Ht [Hs [k Hk]]]] Hd Hlt. unfold GA.eval_body. cbv zeta.
  destruct (GA.chooseAction _) as [act|] eqn:Ea.
  2:{ unfold GA.chooseAction in Ea.
      destruct (chooseActionFor_some (GA.policyWeights c) (GA.orientation c) (GA.speed c) Hw)
        as [a Ha].
      cbn in Ea. rewrite Ha in Ea. discriminate. }
  destruct (GA_applyAction_frame M act (GA.with_steps c (GA.steps c + 1)))
    as [Ft [Fw [Fi [Fd Fs]]]].
  cbn [GA.with_steps GA.trainingTrackPoints GA.policyWeights GA.targetWaypointIndex
       GA.done GA.steps] in Ft, Fw, Fi, Fd, Fs.
  rewrite Ft, Fi.
  destruct (vec_at (GA.trainingTrackPoints c) (GA.targetWaypointIndex c)) as [tp|] eqn:Ev.
  2:{ apply vec_at_None in Ev. lia. }
  unfold GA.MAX_STEPS_PER_EPISODE in *.
  repeat match goal with
  | |- context [if ?b then _ else _] => destruct b eqn:?
  end; cbn beta iota; unfold GA_loop_ok;
  cbn [GA.with_done GA.with_target GA.trainingTrackPoints GA.policyWeights
       GA.targetWaypointIndex GA.done GA.steps];
  rewrite ?Ft, ?Fw, ?Fi, ?Fd, ?Fs; bool_facts;
  cbn [GA.with_done GA.with_target GA.trainingTrackPoints GA.policyWeights
       GA.targetWaypointIndex GA.done GA.steps] in *;
  rewrite ?Ft, ?Fi in *; unfold GA.MAX_STEPS_PER_EPISODE;
  repeat match goal with |- _ /\ _ => split end;
  try reflexivity; try assumption; try lia.
  all: exists (k + 1)%Z; lia.
Qed.

Lemma GA_eval_loop_ok M fuel :
  forall c t z l,
  GA_loop_ok c -> (GA.MAX_STEPS_PER_EPISODE <= GA.steps c + 2 * Z.of_nat fuel)%Z ->
  match GA.eval_loop M fuel c t z l with
  | Some (c', _) =>
      (GA.done c' = true \/ (GA.MAX_STEPS_PER_EPISODE <= GA.steps c')%Z) /\
      (GA.steps c' <= GA.MAX_STEPS_PER_EPISODE)%Z /\
      GA.trainingTrackPoints c' = GA.trainingTrackPoints c
  | None => False
  end.
Proof.
  induction fuel as [|fuel IH]; intros c t z l Hok Hf; cbn [GA.eval_loop];
    pose proof Hok as [_ [_ [Hs _]]].
  - split; [right; lia|]. split; [lia|reflexivity].
  - destruct (GA.done c) eqn:Hd; cbn [negb andb].
    + split; [left; exact Hd|]. split; [lia|reflexivity].
    + destruct (GA.steps c <? GA.MAX_STEPS_PER_EPISODE)%Z eqn:Hlt; bool_facts.
      * pose proof (GA_eval_body_ok M c t z l Hok Hd Hlt) as Hb.
        destruct (GA.eval_body M c t z l) as [[c' t' z' l'|c' t']|]; [|tauto|contradiction].
        destruct Hb as [Hok' [_ [Ht' Hs']]].
        specialize (IH c' t' z' l' Hok' ltac:(lia)).
        destruct (GA.eval_loop M fuel c' t' z' l') as [[c'' t'']|]; [|contradiction].
        destruct IH as [H1 [H2 H3]]. split; [exact H1|]. split; [exact H2|congruence].
      * split; [right; lia|]. split; [lia|reflexivity].
Qed.

Lemma GA_eval_body_weights M c t z l :
  match GA.eval_body M c t z l with
  | Some (GA.Continue c' _ _ _) | Some (GA.Break c' _) =>
      GA.policyWeights c' = GA.policyWeights c
  | None => True
  end.
Proof.
  unfold GA.eval_body.
  destruct (GA.chooseAction (GA.with_steps c (GA.steps c + 1))) as [act|]; [|exact I].
  pose proof (GA_applyAction_frame M act (GA.with_steps c (GA.steps c + 1))) as [_ [Hw _]].
  destruct (vec_at _ _) as [targetPos|]; [|exact I].
  cbv zeta.
  repeat match goal with
  | |- context [if ?b then _ else _] => destruct b
  end; exact Hw.
Qed.

Lemma GA_eval_loop_weights M fuel :
  forall c t z l c' t', GA.eval_loop M fuel c t z l = Some (c', t') ->
  GA.policyWeights c' = GA.policyWeights c.
Proof.
  induction fuel as [|fuel IH]; intros c t z l c' t' H; cbn [GA.eval_loop] in H.
  - injection H as <- _. reflexivity.
  - destruct (negb (GA.done c) && (GA.steps c <? GA.MAX_STEPS_PER_EPISODE)%Z);
      [|injection H as <- _; reflexivity].
    pose proof (GA_eval_body_weights M c t z l) as Hb.
    destruct (GA.eval_body M c t z l) as [[c1 t1 z1 l1|c1 t1]|]; [| |discriminate].
    + rewrite (IH _ _ _ _ _ _ H). exact Hb.
    + injection H as <- _. exact Hb.
Qed.

Lemma GA_evaluate_weights M c r s c' :
  GA.evaluate M c = Some (r, s, c') -> GA.policyWeights c' = GA.policyWeights c.
Proof.
  unfold GA.evaluate.
  destruct (GA.eval_loop M _ (GA.with_steps c 0) 0 0 360) as [[c1 t1]|] eqn:E; [|discriminate].
  apply GA_eval_loop_weights in E. intro H. injection H as _ _ <-.
  destruct (GA.MAX_STEPS_PER_EPISODE <=? GA.steps c1)%Z; exact E.
Qed.



Lemma GA_evaluate_ok M wps w c :
  length w = policy_size -> GA.make_car wps w = Some c ->
  match GA.evaluate M c with
  | Some (_, success, c') =>
      GA.done c' = true /\ (GA.steps c' <= GA.MAX_STEPS_PER_EPISODE)%Z /\
      GA.trainingTrackPoints c' = wps /\
      (success = true <->
       (Z.of_nat (length wps) <= GA.targetWaypointIndex c')%Z)
  | None => False
  end.
Proof.
  intros Hw Hc. unfold GA.make_car, GA.reset in Hc. cbn [GA.trainingTrackPoints] in Hc.
  destruct (vec_at wps 0) as [p0|] eqn:E0; [|discriminate].
  injection Hc as <-.
  assert (Hn : (0 < Z.of_nat (length wps))%Z).
  { destruct wps; [discriminate|]. cbn [length]. lia. }
  unfold GA.evaluate.
  set (c0 := GA.with_steps (GA.mkCar wps w p0 0 0 false 0 0) 0).
  assert (Hok : GA_loop_ok c0).
  { unfold GA_loop_ok, c0; cbn. unfold GA.MAX_STEPS_PER_EPISODE.
    split; [exact Hw|]. split; [lia|]. split; [lia|]. exists 0%Z; reflexivity. }
  assert (Hf : (GA.MAX_STEPS_PER_EPISODE <=
                GA.steps c0 + 2 * Z.of_nat (Z.to_nat GA.MAX_STEPS_PER_EPISODE))%Z).
  { rewrite Z2Nat.id by (unfold GA.MAX_STEPS_PER_EPISODE; lia).
    unfold c0; cbn [GA.with_steps GA.steps]. unfold GA.MAX_STEPS_PER_EPISODE; lia. }
  pose proof (GA_eval_loop_ok M (Z.to_nat GA.MAX_STEPS_PER_EPISODE) c0 0 0 360 Hok Hf) as Hl.
  destruct (GA.eval_loop _ _ _ _ _ _) as [[c' t']|]; [|contradiction].
  destruct Hl as [Hx [Hs Ht]].
  unfold c0 in Ht.
  cbn [GA.trainingTrackPoints GA.with_steps] in Ht.
  destruct (GA.MAX_STEPS_PER_EPISODE <=? GA.steps c')%Z eqn:Em; bool_facts;
    cbn [GA.with_done GA.done GA.steps GA.trainingTrackPoints GA.targetWaypointIndex];
    rewrite Ht; (split; [|split; [assumption|split; [reflexivity|apply Z.leb_le]]]).
  - reflexivity.
  - destruct Hx; [assumption|lia].
Qed.

Lemma PSO_eval_body_ok M c t z l :
  PSO_loop_ok c -> PSO.done c = false -> (PSO.steps c < PSO.MAX_STEPS_PER_EPISODE)%Z ->
  match PSO.eval_body M c t z l with
  | Some (PSO.Continue c' _ _ _) =>
      PSO_loop_ok c' /\ PSO.done c' = false /\
      PSO.trainingTrackPoints c' = PSO.trainingTrackPoints c /\
      PSO.checkpointPositions c' = PSO.checkpointPositions c /\
      PSO.steps c' = (PSO.steps c + 2)%Z
  | Some (PSO.Break c' _) =>
      PSO.done c' = true /\ (PSO.steps c' <= PSO.MAX_STEPS_PER_EPISODE)%Z /\
      PSO.trainingTrackPoints c' = PSO.trainingTrackPoints c /\
      PSO.checkpointPositions c' = PSO.checkpointPositions c
  | None => False
  end.
Proof.
  intros [Hw [Hc [Hs [k Hk]]]] Hd Hlt. unfold PSO.eval_body. cbv zeta.
  unfold PSO.MAX_STEPS_PER_EPISODE in *.
  repeat match goal with
  | |- context [if ?b then _ else _] => destruct b eqn:?
  | |- context [vec_at ?l ?i] => destruct (vec_at l i) eqn:?
  | |- context [PSO.chooseAction ?c] => destruct (PSO.chooseAction c) eqn:?
  end; cbn beta iota;
  repeat match goal with
  | H : PSO.chooseAction ?c = None |- _ =>
      unfold PSO.chooseAction in H;
      destruct (chooseActionFor_some (PSO.policyWeights c) (PSO.orientation c)
                  (PSO.speed c) ltac:(exact Hw)) as [? Hx];
      rewrite Hx in H; discriminate
  | H : vec_at _ _ = None |- _ => apply vec_at_None in H
  | |- context [PSO.applyAction ?M ?a ?c] =>
      destruct (PSO_applyAction_frame M a c) as [Ft [Fcp [Fw [Fi [Fd Fs]]]]];
      let x := fresh "x" in set (x := PSO.applyAction M a c) in *; clearbody x
  end;
  unfold PSO_loop_ok, PSO.num_checkpoints in *;
  cbn [PSO.with_done PSO.with_steps PSO.with_checkpoint PSO.trainingTrackPoints
       PSO.checkpointPositions PSO.policyWeights PSO.currentCheckpoint PSO.done
       PSO.steps] in *;
  rewrite ?Ft, ?Fcp, ?Fw, ?Fi, ?Fd, ?Fs; bool_facts; unfold PSO.MAX_STEPS_PER_EPISODE;
  repeat match goal with |- _ /\ _ => split end;
  try reflexivity; try assumption; try lia.
  all: exists (k + 1)%Z; lia.
Qed.

Lemma PSO_eval_loop_ok M fuel :
  forall c t z l,
  PSO_loop_ok c -> (PSO.MAX_STEPS_PER_EPISODE <= PSO.steps c + 2 * Z.of_nat fuel)%Z ->
  match PSO.eval_loop M fuel c t z l with
  | Some (c', _) =>
      (PSO.done c' = true \/ (PSO.MAX_STEPS_PER_EPISODE <= PSO.steps c')%Z) /\
      (PSO.steps c' <= PSO.MAX_STEPS_PER_EPISODE)%Z /\
      PSO.trainingTrackPoints c' = PSO.trainingTrackPoints c /\
      PSO.checkpointPositions c' = PSO.checkpointPositions c
  | None => False
  end.
Proof.
  induction fuel as [|fuel IH]; intros c t z l Hok Hf; cbn [PSO.eval_loop];
    pose proof Hok as [_ [_ [Hs _]]].
  - split; [right; lia|]. split; [lia|split; reflexivity].
  - destruct (PSO.done c) eqn:Hd; cbn [negb andb].
    + split; [left; exact Hd|]. split; [lia|split; reflexivity].
    + destruct (PSO.steps c <? PSO.MAX_STEPS_PER_EPISODE)%Z eqn:Hlt; bool_facts.
      * pose proof (PSO_eval_body_ok M c t z l Hok Hd Hlt) as Hb.
        destruct (PSO.eval_body M c t z l) as [[c' t' z' l'|c' t']|]; [|tauto|contradiction].
        destruct Hb as [Hok' [_ [Ht' [Hc' Hs']]]].
        specialize (IH c' t' z' l' Hok' ltac:(lia)).
        destruct (PSO.eval_loop M fuel c' t' z' l') as [[c'' t'']|]; [|contradiction].
        destruct IH as [H1 [H2 [H3 H4]]].
        split; [exact H1|]. split; [exact H2|]. split; congruence.
      * split; [right; lia|]. split; [lia|split; reflexivity].
Qed.

Lemma PSO_evaluate_ok M c :
  length (PSO.policyWeights c) = policy_size ->
  PSO.trainingTrackPoints c <> [] -> PSO.checkpointPositions c <> [] ->
  match PSO.evaluate M c with
  | Some (_, success, c') =>
      (PSO.done c' = true \/ PSO.steps c' = PSO.MAX_STEPS_PER_EPISODE) /\
      (PSO.steps c' <= PSO.MAX_STEPS_PER_EPISODE)%Z /\
      PSO.trainingTrackPoints c' = PSO.trainingTrackPoints c /\
      PSO.checkpointPositions c' = PSO.checkpointPositions c /\
      (success = true <->
       (Z.of_nat (length (PSO.checkpointPositions c)) <= PSO.currentCheckpoint c')%Z)
  | None => False
  end.
Proof.
  intros Hw Ht Hcp. unfold PSO.evaluate, PSO.reset.
  destruct (PSO.trainingTrackPoints c) as [|p0 ps] eqn:Et; [contradiction|].
  destruct (PSO.checkpointPositions c) as [|q0 qs] eqn:Ec; [contradiction|].
  cbn [vec_at Z.ltb Z.compare Z.to_nat nth_error PSO.checkpointPositions
       PSO.currentCheckpoint].
  set (c0 := PSO.mkCar (p0 :: ps) (q0 :: qs) (PSO.policyWeights c) [p0] 0 p0 0 0 false 0).
  assert (Hok : PSO_loop_ok c0).
  { unfold PSO_loop_ok, c0; cbn [PSO.policyWeights PSO.currentCheckpoint PSO.steps].
    unfold PSO.MAX_STEPS_PER_EPISODE.
    split; [exact Hw|]. split; [lia|]. split; [lia|]. exists 0%Z; reflexivity. }
  assert (Hf : (PSO.MAX_STEPS_PER_EPISODE <=
                PSO.steps c0 + 2 * Z.of_nat (Z.to_nat PSO.MAX_STEPS_PER_EPISODE))%Z).
  { rewrite Z2Nat.id by (unfold PSO.MAX_STEPS_PER_EPISODE; lia).
    unfold c0; cbn [PSO.steps]. unfold PSO.MAX_STEPS_PER_EPISODE; lia. }
  pose proof (PSO_eval_loop_ok M (Z.to_nat PSO.MAX_STEPS_PER_EPISODE) c0 0 0
                (distance M (PSO.position c0) q0) Hok Hf) as Hl.
  destruct (PSO.eval_loop _ _ _ _ _ _) as [[c' t']|]; [|contradiction].
  destruct Hl as [Hx [Hs [Ht' Hc']]].
  unfold c0 in Ht', Hc'; cbn [PSO.trainingTrackPoints PSO.checkpointPositions] in Ht', Hc'.
  split; [destruct Hx; [left; assumption|right; lia]|].
  split; [exact Hs|]. split; [exact Ht'|]. split; [exact Hc'|].
  unfold PSO.num_checkpoints. rewrite Hc'. apply Z.leb_le.
Qed.

Lemma success_false_iff (b : bool) (x y : Z) :
  (b = true <-> (y <= x)%Z) -> (b = false <-> (x < y)%Z).
Proof.
  intros [H1 H2]. destruct b; split; intro H.
  - discriminate.
  - exfalso. specialize (H1 eq_refl). lia.
  - destruct (Z.lt_ge_cases x y) as [Hl|Hl]; [exact Hl|].
    specialize (H2 Hl). discriminate.
  - reflexivity.
Qed.

(* ------------------------------------------------------------------ *)
(** ** Claims on the rollout *)

(** C1 (code as written): [BRAKE] in the GA program's [applyAction] adds
    [ACCEL] to the speed before clamping, so from any speed in
    [0, MAX_SPEED - ACCEL] it strictly increases the speed; the PSO
    program's [BRAKE] is [clamp(speed - DECEL, 0, MAX_SPEED)] and never
    increases a non-negative speed. *)
Theorem brake_speed_update :
  (forall M c, 0 <= GA.speed c -> GA.speed c + ACCEL <= MAX_SPEED ->
     GA.speed (GA.applyAction M BRAKE c) == GA.speed c + ACCEL /\
     GA.speed c < GA.speed (GA.applyAction M BRAKE c))
  /\ (forall M c,
     PSO.speed (PSO.applyAction M BRAKE c) = fclamp (fsub (PSO.speed c) DECEL) 0 MAX_SPEED /\
     (0 <= PSO.speed c -> PSO.speed (PSO.applyAction M BRAKE c) <= PSO.speed c)).
Proof.
  split.
  - intros M c H0 H1.
    change (GA.speed (GA.applyAction M BRAKE c))
      with (fclamp (fadd (GA.speed c) ACCEL) 0 MAX_SPEED).
    pose proof (fadd_eq (GA.speed c) ACCEL) as Ea.
    unfold fclamp, ACCEL, MAX_SPEED in *.
    destruct (flt (fadd (GA.speed c) (1 # 5)) 0) eqn:E1; qcmp; [lra|].
    destruct (flt 5 (fadd (GA.speed c) (1 # 5))) eqn:E2; qcmp; [lra|].
    split; lra.
  - intros M c.
    change (PSO.speed (PSO.applyAction M BRAKE c))
      with (fclamp (fsub (PSO.speed c) DECEL) 0 MAX_SPEED).
    split; [reflexivity|]. intro H0.
    pose proof (fsub_eq (PSO.speed c) DECEL) as Es.
    unfold fclamp, DECEL, MAX_SPEED in *.
    destruct (flt (fsub (PSO.speed c) (1 # 5)) 0) eqn:E1; qcmp; [lra|].
    destruct (flt 5 (fsub (PSO.speed c) (1 # 5))) eqn:E2; qcmp; lra.
Qed.

Lemma brake_speed_update_witness :
  (0 <= GA.speed (GA.mkCar [] [] (mkV 0 0) 0 1 false 0 0) /\
   GA.speed (GA.mkCar [] [] (mkV 0 0) 0 1 false 0 0) + ACCEL <= MAX_SPEED) /\
  (GA.speed (GA.applyAction approx_math BRAKE (GA.mkCar [] [] (mkV 0 0) 0 1 false 0 0))
     == GA.speed (GA.mkCar [] [] (mkV 0 0) 0 1 false 0 0) + ACCEL /\
   GA.speed (GA.mkCar [] [] (mkV 0 0) 0 1 false 0 0)
     < GA.speed (GA.applyAction approx_math BRAKE (GA.mkCar [] [] (mkV 0 0) 0 1 false 0 0))).
Proof.
  assert (H0 : 0 <= GA.speed (GA.mkCar [] [] (mkV 0 0) 0 1 false 0 0))
    by (simpl; lra).
  assert (H1 : GA.speed (GA.mkCar [] [] (mkV 0 0) 0 1 false 0 0) + ACCEL <= MAX_SPEED)
    by (simpl; unfold ACCEL, MAX_SPEED; lra).
  split; [split; [exact H0|exact H1]|].
  exact (proj1 brake_speed_update approx_math _ H0 H1).
Defined.

(** C2 (code as written): on the one-point track [(0,0)] the car starts on
    its target, and both programs stop after one pass of the loop with
    success; the returned reward is 0: the completion bonus (and the
    arrival bonus) is added to the local [reward] just before the [break],
    so it never reaches [totalReward].  The GA car's step counter is 2
    after that one pass (it is incremented in [evaluate] and in
    [applyAction]), the PSO car's is 1. *)
Theorem single_point_track_run :
  match GA.make_car [mkV 0 0] zero_policy with
  | Some c =>
      option_map (fun r => let '(reward, success, c') := r in (reward, success, GA.steps c'))
                 (GA.evaluate approx_math c) = Some (0, true, 2%Z)
  | None => False
  end /\
  match PSO.make_car [mkV 0 0] [mkV 0 0] zero_policy with
  | Some c =>
      option_map (fun r => let '(reward, success, c') := r in (reward, success, PSO.steps c'))
                 (PSO.evaluate approx_math c) = Some (0, true, 1%Z)
  | None => False
  end.
Proof. split; vm_compute; reflexivity. Qed.

(** C3, counterexample: a target that is never reached does not give a
    strongly negative reward.  PSO program, checkpoint (3000,0) and an
    always-accelerate policy: the program has no off-course cutoff, the
    checkpoint is out of reach in 1000 steps, the run uses the whole step
    budget, success is false, and the reward is 1969/4 > 0. *)
Lemma unreachable_target_positive_reward :
  match PSO.make_car [mkV 0 0] [mkV 3000 0] (constant_policy ACCELERATE) with
  | Some c =>
      match PSO.evaluate approx_math c with
      | Some (reward, success, c') =>
          0 < reward /\ success = false /\ PSO.steps c' = PSO.MAX_STEPS_PER_EPISODE
      | None => False
      end
  | None => False
  end.
Proof. vm_compute. repeat split; reflexivity. Qed.

(** C3, amended: [evaluate] always ends with a result (no out-of-range read,
    the loop exits through its own condition), with a step counter that
    never exceeds [MAX_STEPS_PER_EPISODE]; the success flag is false
    exactly when some target was not consumed.  GA program: for a car built
    from a track and a policy of the standard length; the car ends [done].
    PSO program: for any car with a non-empty track, non-empty checkpoint
    list and a policy of the standard length; the car ends [done] or with
    the step counter at the cap. *)
Theorem evaluate_within_step_cap :
  (forall M wps w c,
     length w = policy_size -> GA.make_car wps w = Some c ->
     exists reward success c',
       GA.evaluate M c = Some (reward, success, c') /\
       GA.done c' = true /\ (GA.steps c' <= GA.MAX_STEPS_PER_EPISODE)%Z /\
       (success = false <-> (GA.targetWaypointIndex c' < Z.of_nat (length wps))%Z))
  /\ (forall M c,
     length (PSO.policyWeights c) = policy_size ->
     PSO.trainingTrackPoints c <> [] -> PSO.checkpointPositions c <> [] ->
     exists reward success c',
       PSO.evaluate M c = Some (reward, success, c') /\
       (PSO.done c' = true \/ PSO.steps c' = PSO.MAX_STEPS_PER_EPISODE) /\
       (PSO.steps c' <= PSO.MAX_STEPS_PER_EPISODE)%Z /\
       (success = false <->
        (PSO.currentCheckpoint c' < Z.of_nat (length (PSO.checkpointPositions c)))%Z)).
Proof.
  split.
  - intros M wps w c Hw Hc. pose proof (GA_evaluate_ok M wps w c Hw Hc) as H.
    destruct (GA.evaluate M c) as [[[reward success] c']|]; [|contradiction].
    destruct H as [Hd [Hs [_ Hsucc]]].
    exists reward, success, c'. split; [reflexivity|].
    split; [exact Hd|]. split; [exact Hs|]. apply success_false_iff, Hsucc.
  - intros M c Hw Ht Hcp. pose proof (PSO_evaluate_ok M c Hw Ht Hcp) as H.
    destruct (PSO.evaluate M c) as [[[reward success] c']|]; [|contradiction].
    destruct H as [Hd [Hs [_ [_ Hsucc]]]].
    exists reward, success, c'. split; [reflexivity|].
    split; [exact Hd|]. split; [exact Hs|]. apply success_false_iff, Hsucc.
Qed.

Lemma evaluate_within_step_cap_witness :
  (length zero_policy = policy_size /\
   GA.make_car [mkV 0 0; mkV 1000 0] zero_policy
   = Some (GA.mkCar [mkV 0 0; mkV 1000 0] zero_policy (mkV 0 0) 0 0 false 0 0)) /\
  (exists reward success c',
     GA.evaluate approx_math (GA.mkCar [mkV 0 0; mkV 1000 0] zero_policy (mkV 0 0) 0 0 false 0 0)
     = Some (reward, success, c') /\
     GA.done c' = true /\ (GA.steps c' <= GA.MAX_STEPS_PER_EPISODE)%Z /\
     (success = false <->
      (GA.targetWaypointIndex c' < Z.of_nat (length [mkV 0 0; mkV 1000 0]))%Z)) /\
  (length (constant_policy ACCELERATE) = policy_size /\
   [mkV 0 0] <> [] /\ [mkV 3000 0] <> []) /\
  (exists reward success c',
     PSO.evaluate approx_math
       (PSO.mkCar [mkV 0 0] [mkV 3000 0] (constant_policy ACCELERATE) [] 0 (mkV 0 0) 0 0 false 0)
     = Some (reward, success, c') /\
     (PSO.done c' = true \/ PSO.steps c' = PSO.MAX_STEPS_PER_EPISODE) /\
     (PSO.steps c' <= PSO.MAX_STEPS_PER_EPISODE)%Z /\
     (success = false <-> (PSO.currentCheckpoint c' < Z.of_nat (length [mkV 3000 0]))%Z)).
Proof.
  assert (Hw : length zero_policy = policy_size) by (vm_compute; reflexivity).
  assert (Hc : GA.make_car [mkV 0 0; mkV 1000 0] zero_policy
               = Some (GA.mkCar [mkV 0 0; mkV 1000 0] zero_policy (mkV 0 0) 0 0 false 0 0))
    by (vm_compute; reflexivity).
  assert (Hw' : length (constant_policy ACCELERATE) = policy_size) by (vm_compute; reflexivity).
  assert (Ht : [mkV 0 0] <> []) by discriminate.
  assert (Hcp : [mkV 3000 0] <> []) by discriminate.
  split; [split; [exact Hw|exact Hc]|].
  split; [exact (proj1 evaluate_within_step_cap approx_math _ _ _ Hw Hc)|].
  split; [split; [exact Hw'|split; [exact Ht|exact Hcp]]|].
  exact (proj2 evaluate_within_step_cap approx_math
           (PSO.mkCar [mkV 0 0] [mkV 3000 0] (constant_policy ACCELERATE) [] 0 (mkV 0 0) 0 0 false 0)
           Hw' Ht Hcp).
Defined.




(** C8, counterexample: no track is rejected.  The one-point track [(0,0)]
    is accepted by both programs and evaluated to a result. *)
Lemma one_point_track_evaluated :
  match GA.make_car [mkV 0 0] zero_policy with
  | Some c => GA.evaluate approx_math c <> None
  | None => False
  end /\
  match PSO.make_car [mkV 0 0] [mkV 0 0] zero_policy with
  | Some c => PSO.evaluate approx_math c <> None
  | None => False
  end.
Proof. split; vm_compute; intro H; discriminate H. Qed.

(** C8, amended: neither program validates its track.  Building a car reads
    [trainingTrackPoints[0]] unguarded: it fails (out-of-range read) exactly
    on the empty track, and every non-empty track, one point included, is
    accepted and evaluated to a result (for a policy of the standard
    length and, in the PSO program, a non-empty checkpoint list).  With an
    empty checkpoint list the PSO [evaluate] reads [checkpointPositions[0]]
    out of range; no error is reported. *)
Theorem no_track_validation :
  (forall wps w, GA.make_car wps w = None <-> wps = [])
  /\ (forall wps cps w, PSO.make_car wps cps w = None <-> wps = [])
  /\ (forall M wps w c,
     length w = policy_size -> GA.make_car wps w = Some c -> GA.evaluate M c <> None)
  /\ (forall M c,
     length (PSO.policyWeights c) = policy_size ->
     PSO.trainingTrackPoints c <> [] -> PSO.checkpointPositions c <> [] ->
     PSO.evaluate M c <> None)
  /\ (forall M c, PSO.checkpointPositions c = [] -> PSO.evaluate M c = None).
Proof.
  split; [|split; [|split; [|split]]].
  - intros wps w. unfold GA.make_car, GA.reset. cbn [GA.trainingTrackPoints].
    destruct wps; cbn; split; intro H; congruence.
  - intros wps cps w. unfold PSO.make_car, PSO.reset. cbn [PSO.trainingTrackPoints].
    destruct wps; cbn; split; intro H; congruence.
  - intros M wps w c Hw Hc. pose proof (GA_evaluate_ok M wps w c Hw Hc) as H.
    destruct (GA.evaluate M c); [discriminate|contradiction].
  - intros M c Hw Ht Hcp. pose proof (PSO_evaluate_ok M c Hw Ht Hcp) as H.
    destruct (PSO.evaluate M c); [discriminate|contradiction].
  - intros M c Hcp. unfold PSO.evaluate, PSO.reset.
    destruct (vec_at (PSO.trainingTrackPoints c) 0); [|reflexivity].
    cbn [PSO.checkpointPositions PSO.currentCheckpoint]. rewrite Hcp. reflexivity.
Qed.

Lemma no_track_validation_witness :
  (length zero_policy = policy_size /\
   GA.make_car [mkV 0 0] zero_policy
   = Some (GA.mkCar [mkV 0 0] zero_policy (mkV 0 0) 0 0 false 0 0)) /\
  GA.evaluate approx_math (GA.mkCar [mkV 0 0] zero_policy (mkV 0 0) 0 0 false 0 0) <> None /\
  (length (PSO.policyWeights
             (PSO.mkCar [mkV 0 0] [mkV 0 0] zero_policy [] 0 (mkV 0 0) 0 0 false 0))
   = policy_size /\
   PSO.trainingTrackPoints
     (PSO.mkCar [mkV 0 0] [mkV 0 0] zero_policy [] 0 (mkV 0 0) 0 0 false 0) <> [] /\
   PSO.checkpointPositions
     (PSO.mkCar [mkV 0 0] [mkV 0 0] zero_policy [] 0 (mkV 0 0) 0 0 false 0) <> []) /\
  PSO.evaluate approx_math
    (PSO.mkCar [mkV 0 0] [mkV 0 0] zero_policy [] 0 (mkV 0 0) 0 0 false 0) <> None /\
  PSO.checkpointPositions
    (PSO.mkCar [mkV 0 0] [] zero_policy [] 0 (mkV 0 0) 0 0 false 0) = [] /\
  PSO.evaluate approx_math
    (PSO.mkCar [mkV 0 0] [] zero_policy [] 0 (mkV 0 0) 0 0 false 0) = None.
Proof.
  assert (Hw : length zero_policy = policy_size) by (vm_compute; reflexivity).
  assert (Hc : GA.make_car [mkV 0 0] zero_policy
               = Some (GA.mkCar [mkV 0 0] zero_policy (mkV 0 0) 0 0 false 0 0))
    by (vm_compute; reflexivity).
  assert (Ht : PSO.trainingTrackPoints
                 (PSO.mkCar [mkV 0 0] [mkV 0 0] zero_policy [] 0 (mkV 0 0) 0 0 false 0) <> [])
    by (simpl; discriminate).
  assert (Hcp : PSO.checkpointPositions
                  (PSO.mkCar [mkV 0 0] [mkV 0 0] zero_policy [] 0 (mkV 0 0) 0 0 false 0) <> [])
    by (simpl; discriminate).
  assert (He : PSO.checkpointPositions
                 (PSO.mkCar [mkV 0 0] [] zero_policy [] 0 (mkV 0 0) 0 0 false 0) = [])
    by reflexivity.
  destruct no_track_validation as [_ [_ [HGA [HPSO Hnone]]]].
  split; [split; [exact Hw|exact Hc]|].
  split; [exact (HGA approx_math _ _ _ Hw Hc)|].
  split; [split; [exact Hw|split; [exact Ht|exact Hcp]]|].
  split; [exact (HPSO approx_math
                  (PSO.mkCar [mkV 0 0] [mkV 0 0] zero_policy [] 0 (mkV 0 0) 0 0 false 0)
                  Hw Ht Hcp)|].
  split; [exact He|exact (Hnone approx_math _ He)].
Defined.

(* ------------------------------------------------------------------ *)
(** ** Instances of the hypotheses of the claims on concrete inputs *)

Lemma selectAction_argmax_witness :
  (length zero_policy = policy_size /\
   (0 <= 0 < NUM_ANGLE_STATES)%Z /\ (0 <= 0 < NUM_SPEED_STATES)%Z) /\
  selectAction (single_entry 3 1) 0 0 = Some BRAKE.
Proof.
  assert (Hw : length zero_policy = policy_size) by (vm_compute; reflexivity).
  assert (Ha : (0 <= 0 < NUM_ANGLE_STATES)%Z) by (unfold NUM_ANGLE_STATES; lia).
  assert (Hs : (0 <= 0 < NUM_SPEED_STATES)%Z) by (unfold NUM_SPEED_STATES; lia).
  split; [split; [exact Hw|split; [exact Ha|exact Hs]]|].
  destruct (selectAction_argmax zero_policy 0 0 Hw Ha Hs) as [_ H].
  exact (H 3%Z 1 ltac:(unfold NUM_ACTIONS; lia) ltac:(lra)).
Defined.

Lemma best_records_strict_update_witness :
  GATrain.bp_reward GATrain.bestEver_init < 5 /\
  GATrain.update_best GATrain.bestEver_init 1%Z 5
    (GA.mkCar [mkV 0 0] zero_policy (mkV 0 0) 0 0 true 2 1)
  = GATrain.mkBest 5 1%Z 1%Z zero_policy.
Proof.
  assert (H : GATrain.bp_reward GATrain.bestEver_init < 5) by (vm_compute; reflexivity).
  split; [exact H|].
  exact (proj1 (proj1 best_records_strict_update GATrain.bestEver_init 1%Z 5
                  (GA.mkCar [mkV 0 0] zero_policy (mkV 0 0) 0 0 true 2 1)) H).
Defined.

Lemma weights_stay_bounded_witness :
  (Forall (fun v => - PSO.MAX_VELOCITY <= v <= PSO.MAX_VELOCITY) [1 # 2] /\
   Forall (fun x => PSO.POSITION_MIN <= x <= PSO.POSITION_MAX) [5] /\
   PSOTrain.update_particle unit (fun _ _ g => (0, g)) 1
     (PSOTrain.mkParticle [5] [1 # 2] [5] 0) [5] tt
   = Some (PSOTrain.mkParticle [5] [7 # 20] [5] 0, tt)) /\
  (Forall (fun v => - PSO.MAX_VELOCITY <= v <= PSO.MAX_VELOCITY) [7 # 20] /\
   Forall (fun x => PSO.POSITION_MIN <= x <= PSO.POSITION_MAX) [5]).
Proof.
  assert (Hv : Forall (fun v => - PSO.MAX_VELOCITY <= v <= PSO.MAX_VELOCITY) [1 # 2])
    by (constructor; [unfold PSO.MAX_VELOCITY; split; lra|constructor]).
  assert (Hx : Forall (fun x => PSO.POSITION_MIN <= x <= PSO.POSITION_MAX) [5])
    by (constructor; [unfold PSO.POSITION_MIN, PSO.POSITION_MAX; split; lra|constructor]).
  assert (Hu : PSOTrain.update_particle unit (fun _ _ g => (0, g)) 1
                 (PSOTrain.mkParticle [5] [1 # 2] [5] 0) [5] tt
               = Some (PSOTrain.mkParticle [5] [7 # 20] [5] 0, tt))
    by (vm_compute; reflexivity).
  split; [split; [exact Hv|split; [exact Hx|exact Hu]]|].
  destruct weights_stay_bounded as [_ [_ [_ [_ [_ H]]]]].
  exact (H unit (fun _ _ g => (0, g)) 1%Z (PSOTrain.mkParticle [5] [1 # 2] [5] 0) [5] tt
           (PSOTrain.mkParticle [5] [7 # 20] [5] 0) tt Hv Hx Hu).
Defined.

Lemma angleToDiscrete_turn_invariant_witness :
  0 <= 15 < 360 /\ angleToDiscrete 15 = Qfloor (15 / 10) /\ (0 <= Qfloor (15 / 10) < 36)%Z.
Proof.
  assert (H : 0 <= 15 < 360) by (split; lra).
  split; [exact H|].
  exact (proj2 angleToDiscrete_turn_invariant 15 H).
Defined.

Lemma chooseAction_in_bounds_witness :
  (length zero_policy = policy_size /\ 0 <= 0 < 360 /\ 0 <= 0) /\
  exists act, chooseActionFor zero_policy 0 0 = Some act.
Proof.
  assert (Hw : length zero_policy = policy_size) by (vm_compute; reflexivity).
  assert (Ho : 0 <= 0 < 360) by (split; lra).
  assert (Hs : 0 <= 0) by lra.
  split; [split; [exact Hw|split; [exact Ho|exact Hs]]|].
  exact (chooseAction_in_bounds zero_policy 0 0 Hw Ho Hs).
Defined.

(* ================================================================== *)
(** * Further properties of the code *)

(** ** Orientation and speed of a car *)

Lemma Qfloor_unique q z : inject_Z z <= q -> q < inject_Z z + 1 -> Qfloor q = z.
Proof.
  intros H1 H2. pose proof (Qfloor_le q) as L. pose proof (Qlt_floor q) as U.
  rewrite inject_Z_plus in U. change (inject_Z 1) with 1 in U.
  assert (A : inject_Z (Qfloor q) < inject_Z z + 1) by lra.
  assert (B : inject_Z z < inject_Z (Qfloor q) + 1) by lra.
  change 1 with (inject_Z 1) in A, B.
  rewrite <- inject_Z_plus, <- Zlt_Qlt in A, B. lia.
Qed.

Lemma wrap360_floor a : wrap360 a == a - 360 * inject_Z (Qfloor (a / 360)).
Proof.
  destruct (wrap360_shift a) as [j Hj]. destruct (wrap360_range a) as [R0 R1].
  assert (E : Qfloor (a / 360) = (- j)%Z).
  { apply Qfloor_unique; rewrite inject_Z_opp.
    - apply Qle_shift_div_l; [reflexivity|]. lra.
    - apply Qlt_shift_div_r; [reflexivity|]. lra. }
  rewrite E, inject_Z_opp, Hj. ring.
Qed.

Lemma wrap360_between a (k : Z) :
  inject_Z k * 360 <= a -> a < (inject_Z k + 1) * 360 ->
  wrap360 a == a - 360 * inject_Z k.
Proof.
  intros H1 H2. rewrite wrap360_floor.
  rewrite (Qfloor_unique (a / 360) k); [reflexivity| |].
  - apply Qle_shift_div_l; [reflexivity|]. exact H1.
  - apply Qlt_shift_div_r; [reflexivity|]. exact H2.
Qed.

(** X: [setOrientation] (both programs) stores
    [orient - 360 * floor(orient / 360)]: a value in [0, 360) that differs
    from [orient] by whole turns, and [orient] itself when it is already in
    [0, 360). *)
Theorem setOrientation_normalises :
  (forall c a,
     GA.orientation (GA.setOrientation c a) == a - 360 * inject_Z (Qfloor (a / 360)) /\
     0 <= GA.orientation (GA.setOrientation c a) < 360 /\
     (0 <= a < 360 -> GA.orientation (GA.setOrientation c a) = a)) /\
  (forall c a,
     PSO.orientation (PSO.setOrientation c a) == a - 360 * inject_Z (Qfloor (a / 360)) /\
     0 <= PSO.orientation (PSO.setOrientation c a) < 360 /\
     (0 <= a < 360 -> PSO.orientation (PSO.setOrientation c a) = a)).
Proof.
  split; intros c a; cbn [GA.setOrientation PSO.setOrientation GA.orientation PSO.orientation];
    (split; [apply wrap360_floor|split; [apply wrap360_range|]]);
    intros [H0 H1]; apply wrap360_id; assumption.
Qed.

Lemma setOrientation_normalises_witness :
  0 <= 10 < 360 /\
  GA.orientation (GA.setOrientation (GA.mkCar [] [] (mkV 0 0) 0 0 false 0 0) 10) = 10 /\
  PSO.orientation (PSO.setOrientation (PSO.mkCar [] [] [] [] 0 (mkV 0 0) 0 0 false 0) 10) = 10.
Proof.
  assert (H : 0 <= 10 < 360) by (split; lra).
  split; [exact H|]. split.
  - exact (proj2 (proj2 (proj1 setOrientation_normalises _ 10)) H).
  - exact (proj2 (proj2 (proj2 setOrientation_normalises _ 10)) H).
Defined.

(** X: whatever the state of the car, after [applyAction] (both programs)
    the speed is in [0, MAX_SPEED], the orientation is in [0, 360), and the
    step counter has grown by one. *)
Theorem applyAction_state_ranges :
  (forall M act c,
     0 <= GA.speed (GA.applyAction M act c) <= MAX_SPEED /\
     0 <= GA.orientation (GA.applyAction M act c) < 360 /\
     GA.steps (GA.applyAction M act c) = (GA.steps c + 1)%Z) /\
  (forall M act c,
     0 <= PSO.speed (PSO.applyAction M act c) <= MAX_SPEED /\
     0 <= PSO.orientation (PSO.applyAction M act c) < 360 /\
     PSO.steps (PSO.applyAction M act c) = (PSO.steps c + 1)%Z).
Proof.
  split; intros M act c; destruct act;
    cbn [GA.applyAction PSO.applyAction GA.with_motion PSO.with_motion
         GA.speed GA.orientation GA.steps PSO.speed PSO.orientation PSO.steps];
    (split; [apply fclamp_range; unfold MAX_SPEED; lra
            |split; [apply wrap360_range|reflexivity]]).
Qed.

Lemma steer_left_wrap o :
  0 <= o < 360 ->
  (o < 5 -> wrap360 (fsub o TURN_SPEED) == o + 355) /\
  (5 <= o -> wrap360 (fsub o TURN_SPEED) == o - 5).
Proof.
  intros [H0 H1]. pose proof (fsub_eq o TURN_SPEED) as E. unfold TURN_SPEED in *.
  split; intro H.
  - rewrite (wrap360_between _ (-1)); change (inject_Z (-1)) with (-1); lra.
  - rewrite (wrap360_between _ 0); change (inject_Z 0) with 0; lra.
Qed.

Lemma steer_right_wrap o :
  0 <= o < 360 ->
  (o < 355 -> wrap360 (fadd o TURN_SPEED) == o + 5) /\
  (355 <= o -> wrap360 (fadd o TURN_SPEED) == o - 355).
Proof.
  intros [H0 H1]. pose proof (fadd_eq o TURN_SPEED) as E. unfold TURN_SPEED in *.
  split; intro H.
  - rewrite (wrap360_between _ 0); change (inject_Z 0) with 0; lra.
  - rewrite (wrap360_between _ 1); change (inject_Z 1) with 1; lra.
Qed.

(** X: from an orientation [o] in [0, 360), [STEER_LEFT] turns the car to
    [o - 5] (to [o + 355] when [o < 5]), [STEER_RIGHT] to [o + 5] (to
    [o - 355] when [o >= 355]), and the other actions keep [o]; both
    programs. *)
Theorem applyAction_heading :
  (forall M c, 0 <= GA.orientation c < 360 ->
     (GA.orientation c < 5 ->
        GA.orientation (GA.applyAction M STEER_LEFT c) == GA.orientation c + 355) /\
     (5 <= GA.orientation c ->
        GA.orientation (GA.applyAction M STEER_LEFT c) == GA.orientation c - 5) /\
     (GA.orientation c < 355 ->
        GA.orientation (GA.applyAction M STEER_RIGHT c) == GA.orientation c + 5) /\
     (355 <= GA.orientation c ->
        GA.orientation (GA.applyAction M STEER_RIGHT c) == GA.orientation c - 355) /\
     GA.orientation (GA.applyAction M ACCELERATE c) = GA.orientation c /\
     GA.orientation (GA.applyAction M BRAKE c) = GA.orientation c /\
     GA.orientation (GA.applyAction M NOOP c) = GA.orientation c) /\
  (forall M c, 0 <= PSO.orientation c < 360 ->
     (PSO.orientation c < 5 ->
        PSO.orientation (PSO.applyAction M STEER_LEFT c) == PSO.orientation c + 355) /\
     (5 <= PSO.orientation c ->
        PSO.orientation (PSO.applyAction M STEER_LEFT c) == PSO.orientation c - 5) /\
     (PSO.orientation c < 355 ->
        PSO.orientation (PSO.applyAction M STEER_RIGHT c) == PSO.orientation c + 5) /\
     (355 <= PSO.orientation c ->
        PSO.orientation (PSO.applyAction M STEER_RIGHT c) == PSO.orientation c - 355) /\
     PSO.orientation (PSO.applyAction M ACCELERATE c) = PSO.orientation c /\
     PSO.orientation (PSO.applyAction M BRAKE c) = PSO.orientation c /\
     PSO.orientation (PSO.applyAction M NOOP c) = PSO.orientation c).
Proof.
  split; intros M c [H0 H1];
    cbn [GA.applyAction PSO.applyAction GA.with_motion PSO.with_motion
         GA.orientation PSO.orientation];
    [set (o := GA.orientation c) in * | set (o := PSO.orientation c) in *];
    destruct (steer_left_wrap o (conj H0 H1)) as [L1 L2];
    destruct (steer_right_wrap o (conj H0 H1)) as [R1 R2];
    (split; [exact L1|split; [exact L2|split; [exact R1|split; [exact R2|]]]]);
    repeat split; apply wrap360_id; assumption.
Qed.

Lemma applyAction_heading_witness :
  0 <= 3 < 360 /\ 3 < 5 /\
  GA.orientation (GA.applyAction approx_math STEER_LEFT
                    (GA.mkCar [] [] (mkV 0 0) 3 0 false 0 0)) == 3 + 355 /\
  PSO.orientation (PSO.applyAction approx_math STEER_LEFT
                     (PSO.mkCar [] [] [] [] 0 (mkV 0 0) 3 0 false 0)) == 3 + 355.
Proof.
  assert (H : 0 <= 3 < 360) by (split; lra).
  assert (H' : 3 < 5) by lra.
  split; [exact H|]. split; [exact H'|]. split.
  - exact (proj1 (proj1 applyAction_heading approx_math
                    (GA.mkCar [] [] (mkV 0 0) 3 0 false 0 0) H) H').
  - exact (proj1 (proj2 applyAction_heading approx_math
                    (PSO.mkCar [] [] [] [] 0 (mkV 0 0) 3 0 false 0) H) H').
Defined.

Lemma fclamp_up s d :
  0 <= s -> 0 <= d -> fclamp (fadd s d) 0 MAX_SPEED == Qmin (s + d) MAX_SPEED.
Proof.
  intros H0 H1. pose proof (fadd_eq s d) as E. unfold fclamp, MAX_SPEED.
  destruct (flt (fadd s d) 0) eqn:E1; qcmp; [lra|].
  destruct (Q.min_spec (s + d) 5) as [[A B]|[A B]]; rewrite B;
    destruct (flt 5 (fadd s d)) eqn:E2; qcmp; lra.
Qed.

Lemma fclamp_down s d :
  s <= MAX_SPEED -> 0 <= d -> fclamp (fsub s d) 0 MAX_SPEED == Qmax (s - d) 0.
Proof.
  intros H0 H1. pose proof (fsub_eq s d) as E. unfold fclamp, MAX_SPEED in *.
  destruct (Q.max_spec (s - d) 0) as [[A B]|[A B]]; rewrite B;
    destruct (flt (fsub s d) 0) eqn:E1; qcmp; try lra;
    destruct (flt 5 (fsub s d)) eqn:E2; qcmp; lra.
Qed.

Lemma fclamp_scale s :
  0 <= s <= MAX_SPEED -> fclamp (fmul s (99 # 100)) 0 MAX_SPEED == s * (99 # 100).
Proof.
  intros [H0 H1]. pose proof (fmul_eq s (99 # 100)) as E. unfold fclamp, MAX_SPEED in *.
  destruct (flt (fmul s (99 # 100)) 0) eqn:E1; qcmp; [lra|].
  destruct (flt 5 (fmul s (99 # 100))) eqn:E2; qcmp; lra.
Qed.

(** X: from a speed [s] in [0, MAX_SPEED], the new speed after each action:
    [ACCELERATE] gives [min(s + ACCEL, MAX_SPEED)], the two steering actions
    [min(s + ACCEL/2, MAX_SPEED)], [NOOP] gives [0.99 s]; [BRAKE] gives
    [min(s + ACCEL, MAX_SPEED)] in the GA program and [max(s - DECEL, 0)] in
    the PSO program. *)
Theorem applyAction_speed :
  (forall M c, 0 <= GA.speed c <= MAX_SPEED ->
     GA.speed (GA.applyAction M ACCELERATE c) == Qmin (GA.speed c + ACCEL) MAX_SPEED /\
     GA.speed (GA.applyAction M BRAKE c) == Qmin (GA.speed c + ACCEL) MAX_SPEED /\
     GA.speed (GA.applyAction M STEER_LEFT c)
       == Qmin (GA.speed c + ACCEL * (1 # 2)) MAX_SPEED /\
     GA.speed (GA.applyAction M STEER_RIGHT c)
       == Qmin (GA.speed c + ACCEL * (1 # 2)) MAX_SPEED /\
     GA.speed (GA.applyAction M NOOP c) == GA.speed c * (99 # 100)) /\
  (forall M c, 0 <= PSO.speed c <= MAX_SPEED ->
     PSO.speed (PSO.applyAction M ACCELERATE c) == Qmin (PSO.speed c + ACCEL) MAX_SPEED /\
     PSO.speed (PSO.applyAction M BRAKE c) == Qmax (PSO.speed c - DECEL) 0 /\
     PSO.speed (PSO.applyAction M STEER_LEFT c)
       == Qmin (PSO.speed c + ACCEL * (1 # 2)) MAX_SPEED /\
     PSO.speed (PSO.applyAction M STEER_RIGHT c)
       == Qmin (PSO.speed c + ACCEL * (1 # 2)) MAX_SPEED /\
     PSO.speed (PSO.applyAction M NOOP c) == PSO.speed c * (99 # 100)).
Proof.
  split; intros M c [H0 H1];
    cbn [GA.applyAction PSO.applyAction GA.with_motion PSO.with_motion GA.speed PSO.speed];
    repeat match goal with |- _ /\ _ => split end;
    first [ apply fclamp_up; [assumption|unfold ACCEL; lra]
          | apply fclamp_down; [assumption|unfold DECEL; lra]
          | apply fclamp_scale; split; assumption ].
Qed.

Lemma applyAction_speed_witness :
  0 <= 1 <= MAX_SPEED /\
  GA.speed (GA.applyAction approx_math BRAKE (GA.mkCar [] [] (mkV 0 0) 0 1 false 0 0))
    == Qmin (1 + ACCEL) MAX_SPEED /\
  PSO.speed (PSO.applyAction approx_math BRAKE
               (PSO.mkCar [] [] [] [] 0 (mkV 0 0) 0 1 false 0))
    == Qmax (1 - DECEL) 0.
Proof.
  assert (H : 0 <= 1 <= MAX_SPEED) by (unfold MAX_SPEED; split; lra).
  split; [exact H|]. split.
  - exact (proj1 (proj2 (proj1 applyAction_speed approx_math
                    (GA.mkCar [] [] (mkV 0 0) 0 1 false 0 0) H))).
  - exact (proj1 (proj2 (proj2 applyAction_speed approx_math
                    (PSO.mkCar [] [] [] [] 0 (mkV 0 0) 0 1 false 0) H))).
Defined.

(** X: [speedToDiscrete] is the floor of the speed on [0, 6), 0 for negative
    speeds, 5 from speed 5 up, and it is monotone. *)
Theorem speedToDiscrete_floor_clamp :
  (forall s, 0 <= s < 6 -> speedToDiscrete s = Qfloor s) /\
  (forall s, s < 0 -> speedToDiscrete s = 0%Z) /\
  (forall s, 5 <= s -> speedToDiscrete s = 5%Z) /\
  (forall s1 s2, s1 <= s2 -> (speedToDiscrete s1 <= speedToDiscrete s2)%Z).
Proof.
  unfold speedToDiscrete, iclamp, NUM_SPEED_STATES.
  split; [|split; [|split]].
  - intros s [H0 H1]. destruct (Qfloor_range s 6 H0 H1) as [A B].
    destruct (Qfloor s <? 0)%Z eqn:E1; bool_facts; [lia|].
    destruct (6 - 1 <? Qfloor s)%Z eqn:E2; bool_facts; lia.
  - intros s H. pose proof (Qfloor_le s) as L.
    assert (A : (Qfloor s < 0)%Z) by (rewrite Zlt_Qlt; change (inject_Z 0) with 0; lra).
    destruct (Qfloor s <? 0)%Z eqn:E1; bool_facts; [reflexivity|lia].
  - intros s H. pose proof (Qfloor_resp_le 5 s H) as A. change (Qfloor 5) with 5%Z in A.
    destruct (Qfloor s <? 0)%Z eqn:E1; bool_facts; [lia|].
    destruct (6 - 1 <? Qfloor s)%Z eqn:E2; bool_facts; lia.
  - intros s1 s2 H. pose proof (Qfloor_resp_le s1 s2 H) as A.
    destruct (Qfloor s1 <? 0)%Z eqn:E1; destruct (6 - 1 <? Qfloor s1)%Z eqn:E2;
    destruct (Qfloor s2 <? 0)%Z eqn:E3; destruct (6 - 1 <? Qfloor s2)%Z eqn:E4;
    bool_facts; lia.
Qed.

Lemma speedToDiscrete_floor_clamp_witness :
  (0 <= 5 # 2 < 6 /\ (- 1) < 0 /\ 5 <= 7 /\ 1 <= 2) /\
  speedToDiscrete (5 # 2) = Qfloor (5 # 2) /\ speedToDiscrete (- 1) = 0%Z /\
  speedToDiscrete 7 = 5%Z /\ (speedToDiscrete 1 <= speedToDiscrete 2)%Z.
Proof.
  assert (H1 : 0 <= 5 # 2 < 6) by (split; lra).
  assert (H2 : - 1 < 0) by lra.
  assert (H3 : 5 <= 7) by lra.
  assert (H4 : 1 <= 2) by lra.
  destruct speedToDiscrete_floor_clamp as [A [B [C D]]].
  split; [split; [exact H1|split; [exact H2|split; [exact H3|exact H4]]]|].
  split; [exact (A _ H1)|]. split; [exact (B _ H2)|].
  split; [exact (C _ H3)|exact (D _ _ H4)].
Defined.

(** ** Angle differences *)

Lemma fold_diff_range n a :
  0 <= a -> (a <= 180 \/ a < 360 * Qof_nat n) -> 0 <= GA.fold_diff n a <= 180.
Proof.
  revert a; induction n as [|n IH]; intros a H0 H1; cbn [GA.fold_diff].
  - change (Qof_nat 0) with 0 in H1. destruct H1; lra.
  - unfold fgt. destruct (flt 180 a) eqn:E; qcmp; [|lra].
    pose proof (fsub_eq a 360) as Es.
    destruct (Qlt_le_dec a 360) as [Hl|Hl].
    + assert (Ea : Qabs (fsub a 360) == 360 - a).
      { rewrite Qabs_neg by lra. lra. }
      apply IH; rewrite Ea; [lra|left; lra].
    + assert (Ea : Qabs (fsub a 360) == a - 360).
      { rewrite Qabs_pos by lra. lra. }
      rewrite Qof_nat_S in H1.
      apply IH; rewrite Ea; [lra|right; lra].
Qed.

Lemma fold_diff_turns n a0 :
  forall a k, a == Qabs (a0 - 360 * inject_Z k) ->
  exists k', GA.fold_diff n a == Qabs (a0 - 360 * inject_Z k').
Proof.
  induction n as [|n IH]; intros a k H; cbn [GA.fold_diff]; [exists k; exact H|].
  destruct (fgt a 180); [|exists k; exact H].
  pose proof (fsub_eq a 360) as Es.
  destruct (Qlt_le_dec (a0 - 360 * inject_Z k) 0) as [Hn|Hn].
  - apply (IH _ (k - 1)%Z). rewrite Qabs_neg in H by lra.
    rewrite Es, H, <- Z.add_opp_r, inject_Z_plus. change (inject_Z (- (1))) with (-1).
    rewrite <- Qabs_opp. apply Qabs_wd. ring.
  - apply (IH _ (k + 1)%Z). rewrite Qabs_pos in H by lra.
    rewrite Es, H, inject_Z_plus. change (inject_Z 1) with 1.
    apply Qabs_wd. ring.
Qed.

(** X: the loop [while (angleDiff > 180) angleDiff = |angleDiff - 360|] of
    the GA program's [evaluate], run on [angleDiff = |x|] (with [x] the
    orientation minus the target angle), ends with a value in [0, 180] that
    is [|x - 360 k|] for some whole number of turns [k]: the angle between
    the heading and the target direction. *)
Theorem evaluate_angle_diff_fold :
  forall x : Q,
  let a := Qabs x in
  0 <= GA.fold_diff (loop_fuel a) a <= 180 /\
  exists k : Z, GA.fold_diff (loop_fuel a) a == Qabs (x - 360 * inject_Z k).
Proof.
  intros x a. split.
  - apply fold_diff_range; [apply Qabs_nonneg|right].
    pose proof (loop_fuel_bound a) as B. unfold a in *.
    rewrite (Qabs_pos (Qabs x)) in B by apply Qabs_nonneg. lra.
  - destruct (fold_diff_turns (loop_fuel a) a a 0%Z) as [k Hk].
    { change (inject_Z 0) with 0. unfold a.
      rewrite (Qabs_pos (Qabs x - 360 * 0)); [ring|].
      pose proof (Qabs_nonneg x). lra. }
    destruct (Qlt_le_dec x 0) as [Hx|Hx].
    + exists (- k)%Z. rewrite Hk. unfold a. rewrite (Qabs_neg x) by lra.
      rewrite inject_Z_opp, <- (Qabs_opp (x - 360 * - inject_Z k)).
      apply Qabs_wd. ring.
    + exists k. rewrite Hk. unfold a. rewrite (Qabs_pos x) by lra. reflexivity.
Qed.

Lemma fold_high_shift n a : exists j : Z, PSO.fold_high n a == a + 360 * inject_Z j.
Proof.
  revert a; induction n as [|n IH]; intro a; cbn [PSO.fold_high].
  - exists 0%Z. change (inject_Z 0) with 0. ring.
  - destruct (fgt a 180).
    + destruct (IH (fsub a 360)) as [j Hj]. exists (j + -1)%Z.
      rewrite Hj, fsub_eq, inject_Z_plus. change (inject_Z (-1)) with (-1). ring.
    + exists 0%Z. change (inject_Z 0) with 0. ring.
Qed.

Lemma fold_low_shift n a : exists j : Z, PSO.fold_low n a == a + 360 * inject_Z j.
Proof.
  revert a; induction n as [|n IH]; intro a; cbn [PSO.fold_low].
  - exists 0%Z. change (inject_Z 0) with 0. ring.
  - destruct (flt a (-180)).
    + destruct (IH (fadd a 360)) as [j Hj]. exists (j + 1)%Z.
      rewrite Hj, fadd_eq, inject_Z_plus. change (inject_Z 1) with 1. ring.
    + exists 0%Z. change (inject_Z 0) with 0. ring.
Qed.

Lemma fold_high_le n a : a <= 180 + 360 * Qof_nat n -> PSO.fold_high n a <= 180.
Proof.
  revert a; induction n as [|n IH]; intros a H; cbn [PSO.fold_high].
  - change (Qof_nat 0) with 0 in H. lra.
  - unfold fgt. destruct (flt 180 a) eqn:E; qcmp; [|exact E].
    apply IH. rewrite fsub_eq. rewrite Qof_nat_S in H. lra.
Qed.

Lemma fold_high_gt n a : -180 < a -> -180 < PSO.fold_high n a.
Proof.
  revert a; induction n as [|n IH]; intros a H; cbn [PSO.fold_high]; [exact H|].
  unfold fgt. destruct (flt 180 a) eqn:E; qcmp; [|exact H].
  apply IH. rewrite fsub_eq. lra.
Qed.

Lemma fold_high_id n a : a <= 180 -> PSO.fold_high n a = a.
Proof.
  destruct n; cbn [PSO.fold_high]; [reflexivity|]. intro H. unfold fgt.
  destruct (flt 180 a) eqn:E; qcmp; [lra|reflexivity].
Qed.

Lemma fold_low_ge n a : -180 - 360 * Qof_nat n <= a -> -180 <= PSO.fold_low n a.
Proof.
  revert a; induction n as [|n IH]; intros a H; cbn [PSO.fold_low].
  - change (Qof_nat 0) with 0 in H. lra.
  - destruct (flt a (-180)) eqn:E; qcmp; [|exact E].
    apply IH. rewrite fadd_eq. rewrite Qof_nat_S in H. lra.
Qed.

Lemma fold_low_le n a : a <= 180 -> PSO.fold_low n a <= 180.
Proof.
  revert a; induction n as [|n IH]; intros a H; cbn [PSO.fold_low]; [exact H|].
  destruct (flt a (-180)) eqn:E; qcmp; [|exact H].
  apply IH. rewrite fadd_eq. lra.
Qed.

Lemma fold_low_id n a : -180 <= a -> PSO.fold_low n a = a.
Proof.
  destruct n; cbn [PSO.fold_low]; [reflexivity|]. intro H.
  destruct (flt a (-180)) eqn:E; qcmp; [lra|reflexivity].
Qed.

(** X: [getAngleToTarget] of the PSO program returns a value in
    [-180, 180] that differs from [targetAngle - orientation] by whole
    turns: the signed angle from the heading to the target direction. *)
Theorem getAngleToTarget_signed :
  forall M c target,
  let d := vsub target (PSO.position c) in
  let targetAngle := fdiv (fmul (m_atan2 M (vy d) (vx d)) 180) PI in
  -180 <= PSO.getAngleToTarget M c target <= 180 /\
  exists k : Z,
    PSO.getAngleToTarget M c target == targetAngle - PSO.orientation c + 360 * inject_Z k.
Proof.
  intros M c target d targetAngle. unfold PSO.getAngleToTarget. cbv zeta.
  fold d. fold targetAngle.
  set (a0 := fsub targetAngle (PSO.orientation c)).
  set (a1 := PSO.fold_high (loop_fuel a0) a0).
  assert (H1 : a1 <= 180).
  { apply fold_high_le. pose proof (loop_fuel_bound a0). pose proof (Qle_Qabs a0). lra. }
  split.
  - destruct (Qlt_le_dec (-180) a0) as [Hg|Hg].
    + assert (H2 : -180 < a1) by apply fold_high_gt, Hg.
      rewrite fold_low_id by lra. lra.
    + split.
      * apply fold_low_ge. pose proof (loop_fuel_bound a1) as B.
        pose proof (Qle_Qabs (- a1)) as A. rewrite Qabs_opp in A. lra.
      * apply fold_low_le, H1.
  - destruct (fold_high_shift (loop_fuel a0) a0) as [j1 E1].
    destruct (fold_low_shift (loop_fuel a1) a1) as [j2 E2].
    exists (j1 + j2)%Z. rewrite E2. unfold a1. rewrite E1, inject_Z_plus.
    unfold a0. rewrite fsub_eq. ring.
Qed.

(** ** The recorded path of the PSO program *)






(** ** Selection and reproduction in the GA program *)

Lemma gather_top_spec population topN indices :
  Forall (fun c => GA.trainingTrackPoints c <> []) population ->
  forall i,
  Forall (fun k => (k < length population)%nat) indices ->
  exists top, GATrain.gather_top population i topN indices = Some top /\
    Forall2 (fun k car => exists c, nth_error population k = Some c /\ GA.reset c = Some car)
            (firstn (Z.to_nat (topN - i)) indices) top.
Proof.
  intro Htr.
  induction indices as [|k rest IH]; intros i Hk; cbn [GATrain.gather_top].
  - exists []. split; [reflexivity|]. rewrite firstn_nil. constructor.
  - inversion Hk as [|? ? Hk1 Hk2]; subst.
    destruct (i <? topN)%Z eqn:E; bool_facts.
    + assert (Ev : vec_at population (Z.of_nat k) = nth_error population k).
      { unfold vec_at. destruct (Z.of_nat k <? 0)%Z eqn:E'; bool_facts; [lia|].
        rewrite Nat2Z.id. reflexivity. }
      destruct (nth_error population k) as [car|] eqn:En.
      2:{ apply nth_error_None in En. lia. }
      rewrite Ev.
      destruct (GA_reset_some car
                  (proj1 (Forall_forall _ _) Htr car (nth_error_In _ _ En)))
        as [car' Er].
      rewrite Er. destruct (IH (i + 1)%Z Hk2) as [top [Ht Hf]]. rewrite Ht.
      exists (car' :: top). split; [reflexivity|].
      replace (Z.to_nat (topN - i)) with (S (Z.to_nat (topN - (i + 1)))) by lia.
      cbn [firstn]. constructor; [exists car; split; [exact En|exact Er]|exact Hf].
    + exists []. split; [reflexivity|].
      replace (Z.to_nat (topN - i)) with 0%nat by lia. constructor.
Qed.



Lemma mutate_length G ur nrm ws :
  forall g ws' g', GATrain.mutate G ur nrm ws g = (ws', g') -> length ws' = length ws.
Proof.
  induction ws as [|w ws IH]; intros g ws' g' H; cbn [GATrain.mutate] in H.
  - injection H as <- _. reflexivity.
  - destruct (ur 0 1 g) as [chance g1].
    destruct (flt chance GA.MUTATION_RATE).
    + destruct (nrm 0 (1 # 10) g1) as [n g2].
      destruct (GATrain.mutate G ur nrm ws g2) as [rest g3] eqn:E.
      injection H as <- _. cbn [length]. f_equal. eapply IH; exact E.
    + destruct (GATrain.mutate G ur nrm ws g1) as [rest g3] eqn:E.
      injection H as <- _. cbn [length]. f_equal. eapply IH; exact E.
Qed.

Lemma next_generation_loop_children G ur nrm ui top fuel :
  top <> [] ->
  Forall (fun c => GA.trainingTrackPoints c <> []) top ->
  (forall lo hi g, (lo <= hi)%Z -> (lo <= fst (ui lo hi g) <= hi)%Z) ->
  forall acc g,
  Forall (fresh_child_of top) acc ->
  exists next g',
    GATrain.next_generation_loop G ur nrm ui fuel top acc g = Some (next, g') /\
    length next = (length acc + fuel)%nat /\ Forall (fresh_child_of top) next.
Proof.
  intros Hne Htr Hui. induction fuel as [|fuel IH]; intros acc g Hacc;
    cbn [GATrain.next_generation_loop].
  - exists acc, g. split; [reflexivity|]. split; [lia|exact Hacc].
  - assert (Hl : (0 < Z.of_nat (length top))%Z) by (destruct top; [contradiction|cbn; lia]).
    pose proof (Hui 0%Z (Z.of_nat (length top) - 1)%Z g ltac:(lia)) as Hr.
    destruct (ui 0%Z (Z.of_nat (length top) - 1)%Z g) as [idx g1]. cbn [fst] in Hr.
    destruct (vec_at top idx) as [parent|] eqn:Ev.
    2:{ apply vec_at_None in Ev. lia. }
    pose proof (vec_at_In _ _ _ Ev) as Hp.
    pose proof (proj1 (Forall_forall _ _) Htr parent Hp) as Hpt.
    unfold GA.reset.
    destruct (GA.trainingTrackPoints parent) as [|p0 ps] eqn:Et; [contradiction|].
    cbn [vec_at Z.ltb Z.compare Z.to_nat nth_error GA.policyWeights].
    destruct (GATrain.mutate G ur nrm (GA.policyWeights parent) g1) as [ws g2] eqn:Em.
    destruct (IH (acc ++ [GATrain.with_weights
                            (GA.mkCar (p0 :: ps) (GA.policyWeights parent) p0 0 0 false 0 0)
                            ws]) g2) as [next [g' [Hn [Hlen Hf]]]].
    { apply Forall_app. split; [exact Hacc|]. constructor; [|constructor].
      exists parent, p0, ps, ws. split; [exact Hp|]. split; [exact Et|].
      split; [eapply mutate_length; exact Em|reflexivity]. }
    exists next, g'. split; [exact Hn|]. split; [|exact Hf].
    rewrite Hlen, length_app. cbn [length]. lia.
Qed.

(** X: given a non-empty list of top performers whose tracks are not
    empty, and a [uniform_int_distribution] that stays in its range,
    for a population size [populationSize >= 0], [createNextGeneration]
    returns exactly [populationSize] cars, each a reset copy of one of the top performers
    (at the first track point, heading 0, speed 0, counters 0) with
    weights of the parent's length. *)
Theorem createNextGeneration_fresh_children :
  forall G ur nrm ui top populationSize g,
  (0 <= populationSize)%Z ->
  top <> [] ->
  Forall (fun c => GA.trainingTrackPoints c <> []) top ->
  (forall lo hi g, (lo <= hi)%Z -> (lo <= fst (ui lo hi g) <= hi)%Z) ->
  exists next g',
    GATrain.createNextGeneration G ur nrm ui top populationSize g = Some (next, g') /\
    length next = Z.to_nat populationSize /\
    Forall (fresh_child_of top) next.
Proof.
  intros G ur nrm ui top populationSize g Hps Hne Htr Hui.
  unfold GATrain.createNextGeneration.
  destruct (populationSize <? 0)%Z eqn:E; bool_facts; [lia|].
  destruct (next_generation_loop_children G ur nrm ui top (Z.to_nat populationSize)
              Hne Htr Hui [] g (Forall_nil _)) as [next [g' [H1 [H2 H3]]]].
  exists next, g'. split; [exact H1|]. split; [exact H2|exact H3].
Qed.

Lemma createNextGeneration_fresh_children_witness :
  ((0 <= 3)%Z /\ [GA.mkCar [mkV 0 0] [] (mkV 0 0) 0 0 false 0 0] <> [] /\
   Forall (fun c => GA.trainingTrackPoints c <> []) [GA.mkCar [mkV 0 0] [] (mkV 0 0) 0 0 false 0 0] /\
   (forall lo hi (g : unit), (lo <= hi)%Z -> (lo <= fst (lo, g) <= hi)%Z)) /\
  exists next g',
    GATrain.createNextGeneration unit (fun _ _ g => (0, g)) (fun _ _ g => (0, g))
      (fun lo _ g => (lo, g)) [GA.mkCar [mkV 0 0] [] (mkV 0 0) 0 0 false 0 0] 3 tt
      = Some (next, g') /\
    length next = Z.to_nat 3 /\
    Forall (fresh_child_of [GA.mkCar [mkV 0 0] [] (mkV 0 0) 0 0 false 0 0]) next.
Proof.
  assert (H1 : [GA.mkCar [mkV 0 0] [] (mkV 0 0) 0 0 false 0 0] <> []) by discriminate.
  assert (H2 : Forall (fun c => GA.trainingTrackPoints c <> [])
                 [GA.mkCar [mkV 0 0] [] (mkV 0 0) 0 0 false 0 0])
    by (constructor; [discriminate|constructor]).
  assert (H3 : forall lo hi (g : unit), (lo <= hi)%Z -> (lo <= fst (lo, g) <= hi)%Z)
    by (intros; cbn; lia).
  assert (H0 : (0 <= 3)%Z) by lia.
  split; [split; [exact H0|split; [exact H1|split; [exact H2|exact H3]]]|].
  exact (createNextGeneration_fresh_children unit (fun _ _ g => (0, g)) (fun _ _ g => (0, g))
           (fun lo _ g => (lo, g)) _ 3 tt H0 H1 H2 H3).
Defined.

(** X: with no top performers and a positive population size,
    [createNextGeneration] reads [topPerformers[parentIdx]] out of range
    (undefined behaviour), whatever index the distribution returns. *)
Theorem createNextGeneration_no_parents :
  forall G ur nrm ui populationSize g,
  (0 < populationSize)%Z ->
  GATrain.createNextGeneration G ur nrm ui [] populationSize g = None.
Proof.
  intros G ur nrm ui populationSize g H. unfold GATrain.createNextGeneration.
  destruct (populationSize <? 0)%Z; [reflexivity|].
  destruct (Z.to_nat populationSize) eqn:E; [lia|].
  cbn [GATrain.next_generation_loop].
  destruct (ui _ _ g) as [idx g1]. unfold vec_at.
  destruct (idx <? 0)%Z; [reflexivity|]. destruct (Z.to_nat idx); reflexivity.
Qed.

Lemma createNextGeneration_no_parents_witness :
  (0 < 100)%Z /\
  GATrain.createNextGeneration unit (fun _ _ g => (0, g)) (fun _ _ g => (0, g))
    (fun lo _ g => (lo, g)) [] 100 tt = None.
Proof.
  assert (H : (0 < 100)%Z) by lia. split; [exact H|].
  exact (createNextGeneration_no_parents unit (fun _ _ g => (0, g)) (fun _ _ g => (0, g))
           (fun lo _ g => (lo, g)) 100 tt H).
Defined.

(* ------------------------------------------------------------------ *)
(** ** Particles of the swarm *)

Lemma particle_init_loop_length G ur n :
  forall g xs vs g', PSOTrain.particle_init_loop G ur n g = (xs, vs, g') ->
  length xs = n /\ length vs = n.
Proof.
  induction n as [|n IH]; intros g xs vs g' H; cbn [PSOTrain.particle_init_loop] in H.
  - injection H as <- <- _. split; reflexivity.
  - destruct (ur PSO.POSITION_MIN PSO.POSITION_MAX g) as [x g1].
    destruct (ur (- (1 # 10)) (1 # 10) g1) as [v g2].
    destruct (PSOTrain.particle_init_loop G ur n g2) as [[xs' vs'] g3] eqn:E.
    injection H as <- <- _. destruct (IH _ _ _ _ E) as [H1 H2].
    cbn [length]. split; f_equal; assumption.
Qed.

Lemma particle_init_loop_range G ur n :
  (forall lo hi g, lo <= hi -> lo <= fst (ur lo hi g) <= hi) ->
  forall g xs vs g', PSOTrain.particle_init_loop G ur n g = (xs, vs, g') ->
  Forall (fun x => PSO.POSITION_MIN <= x <= PSO.POSITION_MAX) xs /\
  Forall (fun v => - (1 # 10) <= v <= 1 # 10) vs.
Proof.
  intro Hur. induction n as [|n IH]; intros g xs vs g' H;
    cbn [PSOTrain.particle_init_loop] in H.
  - injection H as <- <- _. split; constructor.
  - pose proof (Hur PSO.POSITION_MIN PSO.POSITION_MAX g
                  ltac:(unfold PSO.POSITION_MIN, PSO.POSITION_MAX; lra)) as Hx.
    destruct (ur PSO.POSITION_MIN PSO.POSITION_MAX g) as [x g1]. cbn [fst] in Hx.
    pose proof (Hur (- (1 # 10)) (1 # 10) g1 ltac:(lra)) as Hv.
    destruct (ur (- (1 # 10)) (1 # 10) g1) as [v g2]. cbn [fst] in Hv.
    destruct (PSOTrain.particle_init_loop G ur n g2) as [[xs' vs'] g3] eqn:E.
    injection H as <- <- _. destruct (IH _ _ _ _ E) as [H1 H2].
    split; constructor; assumption.
Qed.

(** X: for [numWeights >= 0], the [Particle] constructor returns a
    particle (it does not throw) with [numWeights]
    positions and [numWeights] velocities, its personal best position is
    its position and its personal best fitness is [-FLT_MAX]; with a
    [uniform_real_distribution] that stays in its range, every position
    is in [[POSITION_MIN, POSITION_MAX]] and every velocity in
    [[-0.1, 0.1]]. *)
Theorem make_particle_init :
  forall G ur numWeights g,
  (0 <= numWeights)%Z ->
  (forall lo hi g, lo <= hi -> lo <= fst (ur lo hi g) <= hi) ->
  exists p g', PSOTrain.make_particle G ur numWeights g = Some (p, g') /\
  length (PSOTrain.position p) = Z.to_nat numWeights /\
  length (PSOTrain.velocity p) = Z.to_nat numWeights /\
  PSOTrain.personalBestPosition p = PSOTrain.position p /\
  PSOTrain.personalBestFitness p = - FLT_MAX /\
  Forall (fun x => PSO.POSITION_MIN <= x <= PSO.POSITION_MAX) (PSOTrain.position p) /\
  Forall (fun v => - (1 # 10) <= v <= 1 # 10) (PSOTrain.velocity p).
Proof.
  intros G ur numWeights g Hn Hur. unfold PSOTrain.make_particle.
  destruct (numWeights <? 0)%Z eqn:En; bool_facts; [lia|].
  destruct (PSOTrain.particle_init_loop G ur (Z.to_nat numWeights) g) as [[xs vs] g'] eqn:E.
  exists (PSOTrain.mkParticle xs vs xs (- FLT_MAX)), g'. split; [reflexivity|].
  cbn [PSOTrain.position PSOTrain.velocity PSOTrain.personalBestPosition
       PSOTrain.personalBestFitness].
  destruct (particle_init_loop_length _ _ _ _ _ _ _ E) as [H1 H2].
  destruct (particle_init_loop_range _ _ _ Hur _ _ _ _ E) as [H3 H4].
  repeat split; assumption.
Qed.

Lemma make_particle_init_witness :
  ((0 <= 3)%Z /\ forall lo hi (g : unit), lo <= hi -> lo <= fst (lo, g) <= hi) /\
  exists p g', PSOTrain.make_particle unit (fun lo _ g => (lo, g)) 3 tt = Some (p, g') /\
  length (PSOTrain.position p) = Z.to_nat 3 /\
  length (PSOTrain.velocity p) = Z.to_nat 3 /\
  PSOTrain.personalBestPosition p = PSOTrain.position p /\
  PSOTrain.personalBestFitness p = - FLT_MAX /\
  Forall (fun x => PSO.POSITION_MIN <= x <= PSO.POSITION_MAX) (PSOTrain.position p) /\
  Forall (fun v => - (1 # 10) <= v <= 1 # 10) (PSOTrain.velocity p).
Proof.
  assert (H0 : (0 <= 3)%Z) by lia.
  assert (H : forall lo hi (g : unit), lo <= hi -> lo <= fst (lo, g) <= hi)
    by (intros; cbn; lra).
  split; [split; [exact H0|exact H]|].
  exact (make_particle_init unit (fun lo _ g => (lo, g)) 3 tt H0 H).
Defined.

Lemma list_set_length l i x : length (PSOTrain.list_set l i x) = length l.
Proof.
  revert i. induction l as [|h t IH]; intros i; [reflexivity|].
  destruct i as [|i]; cbn [PSOTrain.list_set length]; [reflexivity|]. f_equal. apply IH.
Qed.

Lemma update_particle_loop_some G ur n gb fuel :
  forall i p g,
  (0 <= i)%Z ->
  (n <= Z.of_nat (length (PSOTrain.position p)))%Z ->
  (n <= Z.of_nat (length (PSOTrain.velocity p)))%Z ->
  (n <= Z.of_nat (length (PSOTrain.personalBestPosition p)))%Z ->
  (n <= Z.of_nat (length gb))%Z ->
  exists p' g',
    PSOTrain.update_particle_loop G ur fuel i n p gb g = Some (p', g') /\
    length (PSOTrain.position p') = length (PSOTrain.position p) /\
    length (PSOTrain.velocity p') = length (PSOTrain.velocity p) /\
    PSOTrain.personalBestPosition p' = PSOTrain.personalBestPosition p /\
    PSOTrain.personalBestFitness p' = PSOTrain.personalBestFitness p.
Proof.
  induction fuel as [|fuel IH]; intros i p g Hi Hx Hv Hpb Hgb;
    cbn [PSOTrain.update_particle_loop].
  - exists p, g. repeat split.
  - destruct (i <? n)%Z eqn:Ein; [|exists p, g; repeat split].
    apply Z.ltb_lt in Ein.
    destruct (ur 0 1 g) as [r1 g1]. destruct (ur 0 1 g1) as [r2 g2].
    destruct (vec_at (PSOTrain.velocity p) i) as [v|] eqn:E1;
      [|apply vec_at_None in E1; lia].
    destruct (vec_at (PSOTrain.position p) i) as [x|] eqn:E2;
      [|apply vec_at_None in E2; lia].
    destruct (vec_at (PSOTrain.personalBestPosition p) i) as [pb|] eqn:E3;
      [|apply vec_at_None in E3; lia].
    destruct (vec_at gb i) as [gbi|] eqn:E4; [|apply vec_at_None in E4; lia].
    destruct (PSOTrain.update_dim r1 r2 v x pb gbi) as [v' x'].
    edestruct (IH (i + 1)%Z
                 (PSOTrain.mkParticle (PSOTrain.list_set (PSOTrain.position p) (Z.to_nat i) x')
                    (PSOTrain.list_set (PSOTrain.velocity p) (Z.to_nat i) v')
                    (PSOTrain.personalBestPosition p) (PSOTrain.personalBestFitness p)) g2)
      as [p' [g' [Hs [L1 [L2 [L3 L4]]]]]];
      cbn [PSOTrain.position PSOTrain.velocity PSOTrain.personalBestPosition];
      rewrite ?list_set_length; try lia.
    exists p', g'. cbn [PSOTrain.position PSOTrain.velocity PSOTrain.personalBestPosition
                       PSOTrain.personalBestFitness] in L1, L2, L3, L4.
    rewrite list_set_length in L1, L2.
    repeat split; assumption.
Qed.

(** X: the velocity and position update of one particle ([for (int i = 0;
    i < numWeights; ++i)]) reads every vector only in range when the
    particle's vectors and the global best position have at least
    [numWeights] entries: it then always completes, keeps the lengths of
    the position and velocity vectors, and leaves the personal best
    position and fitness unchanged. *)
Theorem update_particle_in_range :
  forall G ur numWeights p globalBest g,
  (numWeights <= Z.of_nat (length (PSOTrain.position p)))%Z ->
  (numWeights <= Z.of_nat (length (PSOTrain.velocity p)))%Z ->
  (numWeights <= Z.of_nat (length (PSOTrain.personalBestPosition p)))%Z ->
  (numWeights <= Z.of_nat (length globalBest))%Z ->
  exists p' g',
    PSOTrain.update_particle G ur numWeights p globalBest g = Some (p', g') /\
    length (PSOTrain.position p') = length (PSOTrain.position p) /\
    length (PSOTrain.velocity p') = length (PSOTrain.velocity p) /\
    PSOTrain.personalBestPosition p' = PSOTrain.personalBestPosition p /\
    PSOTrain.personalBestFitness p' = PSOTrain.personalBestFitness p.
Proof.
  intros. unfold PSOTrain.update_particle.
  apply update_particle_loop_some; [lia|assumption..].
Qed.

Lemma update_particle_in_range_witness :
  (Z.le 2 (Z.of_nat (length (PSOTrain.position (PSOTrain.mkParticle [0; 0] [0; 0] [0; 0] 0)))) /\
   Z.le 2 (Z.of_nat (length (PSOTrain.velocity (PSOTrain.mkParticle [0; 0] [0; 0] [0; 0] 0)))) /\
   Z.le 2 (Z.of_nat (length (PSOTrain.personalBestPosition
                             (PSOTrain.mkParticle [0; 0] [0; 0] [0; 0] 0)))) /\
   Z.le 2 (Z.of_nat (length [1; 1]))) /\
  exists p' g',
    PSOTrain.update_particle unit (fun lo _ g => (lo, g)) 2
      (PSOTrain.mkParticle [0; 0] [0; 0] [0; 0] 0) [1; 1] tt = Some (p', g') /\
    length (PSOTrain.position p') = 2%nat /\
    length (PSOTrain.velocity p') = 2%nat /\
    PSOTrain.personalBestPosition p' = [0; 0] /\
    PSOTrain.personalBestFitness p' = 0.
Proof.
  assert (H1 : Z.le 2 (Z.of_nat (length (PSOTrain.position
                  (PSOTrain.mkParticle [0; 0] [0; 0] [0; 0] 0))))) by (cbn; lia).
  assert (H2 : Z.le 2 (Z.of_nat (length (PSOTrain.velocity
                  (PSOTrain.mkParticle [0; 0] [0; 0] [0; 0] 0))))) by (cbn; lia).
  assert (H3 : Z.le 2 (Z.of_nat (length (PSOTrain.personalBestPosition
                  (PSOTrain.mkParticle [0; 0] [0; 0] [0; 0] 0))))) by (cbn; lia).
  assert (H4 : Z.le 2 (Z.of_nat (length [1; 1]))) by (cbn; lia).
  split; [split; [exact H1|split; [exact H2|split; [exact H3|exact H4]]]|].
  exact (update_particle_in_range unit (fun lo _ g => (lo, g)) 2
           (PSOTrain.mkParticle [0; 0] [0; 0] [0; 0] 0) [1; 1] tt H1 H2 H3 H4).
Defined.

(* ------------------------------------------------------------------ *)
(** ** The PSO training loop *)

Lemma PSO_make_car_some wps cps w :
  wps <> [] ->
  exists c, PSO.make_car wps cps w = Some c /\ PSO.policyWeights c = w /\
    PSO.trainingTrackPoints c = wps /\ PSO.checkpointPositions c = cps.
Proof.
  intro H. destruct wps as [|p ps]; [contradiction|].
  eexists. split; [reflexivity|]. split; [|split]; reflexivity.
Qed.

Lemma updatePersonalBest_shape n p fitness :
  particle_shape n p -> particle_shape n (PSOTrain.updatePersonalBest p fitness).
Proof.
  unfold PSOTrain.updatePersonalBest. destruct (fgt _ _); [|trivial].
  intros [H1 [H2 H3]]. split; [|split]; assumption.
Qed.

Lemma evaluate_swarm_shape G ur M wps cps generation :
  wps <> [] -> cps <> [] ->
  forall swarm gl g,
  Forall (particle_shape policy_size) swarm ->
  length (PSOTrain.globalBestPosition gl) = policy_size ->
  exists swarm' gl' g',
    PSOTrain.evaluate_swarm G ur M wps cps generation swarm gl g = Some (swarm', gl', g') /\
    length swarm' = length swarm /\ Forall (particle_shape policy_size) swarm' /\
    length (PSOTrain.globalBestPosition gl') = policy_size.
Proof.
  intros Hw Hc. induction swarm as [|p swarm IH]; intros gl g Hs Hgl;
    cbn [PSOTrain.evaluate_swarm].
  - exists [], gl, g. repeat split; [constructor|exact Hgl].
  - inversion Hs as [|? ? Hp Hs']; subst.
    destruct (PSOTrain.initializeRandomPolicy G ur policy_size g) as [w0 g0].
    destruct (PSO_make_car_some wps cps (PSOTrain.position p) Hw)
      as [c [Hmk [Hpw [Ht Hcp]]]].
    rewrite Hmk.
    assert (Hl : length (PSO.policyWeights c) = policy_size)
      by (rewrite Hpw; apply Hp).
    pose proof (PSO_evaluate_ok M c Hl ltac:(rewrite Ht; exact Hw)
                  ltac:(rewrite Hcp; exact Hc)) as He.
    destruct (PSO.evaluate M c) as [[[reward success] car']|]; [|contradiction].
    set (p1 := PSOTrain.updatePersonalBest p reward).
    assert (Hp1 : particle_shape policy_size p1) by (apply updatePersonalBest_shape, Hp).
    set (gl1 := PSOTrain.update_global gl generation p1 reward success car').
    assert (Hgl1 : length (PSOTrain.globalBestPosition gl1) = policy_size).
    { unfold gl1, PSOTrain.update_global. destruct (fgt _ _); [apply Hp1|exact Hgl]. }
    destruct (IH gl1 g0 Hs' Hgl1) as [rest [gl' [g' [E [L [F Hg]]]]]].
    rewrite E. exists (p1 :: rest), gl', g'.
    split; [reflexivity|]. split; [cbn [length]; f_equal; exact L|].
    split; [constructor; assumption|exact Hg].
Qed.

Lemma update_swarm_shape G ur n swarm :
  forall gb g,
  Forall (particle_shape (Z.to_nat n)) swarm -> length gb = Z.to_nat n ->
  exists swarm' g',
    PSOTrain.update_swarm G ur n swarm gb g = Some (swarm', g') /\
    length swarm' = length swarm /\ Forall (particle_shape (Z.to_nat n)) swarm'.
Proof.
  induction swarm as [|p swarm IH]; intros gb g Hs Hgb; cbn [PSOTrain.update_swarm].
  - exists [], g. repeat split. constructor.
  - inversion Hs as [|? ? [H1 [H2 H3]] Hs']; subst.
    destruct (update_particle_loop_some G ur n gb (Z.to_nat n) 0%Z p g)
      as [p' [g1 [E [L1 [L2 [L3 _]]]]]]; try lia.
    unfold PSOTrain.update_particle. rewrite E.
    destruct (IH gb g1 Hs' Hgb) as [rest [g' [E' [L F]]]].
    rewrite E'. exists (p' :: rest), g'. split; [reflexivity|].
    split; [cbn [length]; f_equal; exact L|].
    constructor; [|exact F]. split; [|split]; [rewrite L1|rewrite L2|rewrite L3]; assumption.
Qed.

Lemma train_loop_shape G ur M wps cps :
  wps <> [] -> cps <> [] ->
  forall fuel generation swarm gl g,
  Forall (particle_shape policy_size) swarm ->
  length (PSOTrain.globalBestPosition gl) = policy_size ->
  (generation <= PSOTrain.MAX_GENERATIONS <= generation + Z.of_nat fuel)%Z ->
  exists gen swarm' gl' g',
    PSOTrain.train_loop G ur M wps cps (NUM_ANGLE_STATES * NUM_SPEED_STATES * NUM_ACTIONS)
      fuel generation swarm gl g = Some (gen, swarm', gl', g') /\
    (gen <= PSOTrain.MAX_GENERATIONS)%Z /\
    (gen = PSOTrain.MAX_GENERATIONS \/ PSOTrain.raceCompleted gl' = true) /\
    length swarm' = length swarm /\ Forall (particle_shape policy_size) swarm' /\
    length (PSOTrain.globalBestPosition gl') = policy_size.
Proof.
  intros Hw Hc. induction fuel as [|fuel IH]; intros generation swarm gl g Hs Hgl Hgen;
    cbn [PSOTrain.train_loop].
  - exists generation, swarm, gl, g. split; [reflexivity|].
    split; [lia|]. split; [left; lia|]. repeat split; assumption.
  - destruct ((generation <? PSOTrain.MAX_GENERATIONS)%Z && negb (PSOTrain.raceCompleted gl))
      eqn:Econd.
    + apply andb_true_iff in Econd as [Elt _]. apply Z.ltb_lt in Elt.
      destruct (evaluate_swarm_shape G ur M wps cps (generation + 1)%Z Hw Hc swarm gl g Hs Hgl)
        as [sw1 [gl1 [g1 [E1 [L1 [F1 G1]]]]]].
      rewrite E1.
      destruct (update_swarm_shape G ur (NUM_ANGLE_STATES * NUM_SPEED_STATES * NUM_ACTIONS)
                  sw1 (PSOTrain.globalBestPosition gl1) g1 F1 G1)
        as [sw2 [g2 [E2 [L2 F2]]]].
      rewrite E2.
      destruct (IH (generation + 1)%Z sw2 gl1 g2 F2 G1 ltac:(lia))
        as [gen [sw' [gl' [g' [E [H1 [H2 [H3 [H4 H5]]]]]]]]].
      exists gen, sw', gl', g'. split; [exact E|]. split; [exact H1|]. split; [exact H2|].
      split; [lia|]. split; assumption.
    + exists generation, swarm, gl, g. split; [reflexivity|]. split; [lia|].
      split; [|repeat split; assumption].
      apply andb_false_iff in Econd as [Econd|Econd].
      * apply Z.ltb_ge in Econd. left; lia.
      * right. destruct (PSOTrain.raceCompleted gl); [reflexivity|discriminate].
Qed.

Lemma init_swarm_shape G ur k numWeights :
  (0 <= numWeights)%Z ->
  forall g, exists swarm g', PSOTrain.init_swarm G ur k numWeights g = Some (swarm, g') /\
  length swarm = k /\ Forall (particle_shape (Z.to_nat numWeights)) swarm.
Proof.
  intro Hn. induction k as [|k IH]; intro g; cbn [PSOTrain.init_swarm].
  - exists [], g. split; [reflexivity|]. split; [reflexivity|constructor].
  - unfold PSOTrain.make_particle.
    destruct (numWeights <? 0)%Z eqn:En; bool_facts; [lia|].
    destruct (PSOTrain.particle_init_loop G ur (Z.to_nat numWeights) g) as [[xs vs] g1] eqn:Ei.
    destruct (IH g1) as [ps [g2 [Es [L F]]]]. rewrite Es.
    exists (PSOTrain.mkParticle xs vs xs (- FLT_MAX) :: ps), g2. split; [reflexivity|].
    split; [cbn [length]; f_equal; exact L|]. constructor; [|exact F].
    destruct (particle_init_loop_length _ _ _ _ _ _ _ Ei) as [H1 H2].
    split; [|split]; assumption.
Qed.

(** X: for a non-empty waypoint list and a non-empty checkpoint list, the
    training of the PSO program never reads out of range and always
    stops: it ends after at most [MAX_GENERATIONS] generations, and before
    that only when the race was completed; the swarm keeps its
    [SWARM_SIZE] particles, and every particle vector and the global best
    position keep the [36 * 6 * 5] weights of a policy table. *)
Theorem train_bounded_shape :
  forall G ur M wps cps g,
  wps <> [] -> cps <> [] ->
  exists gen swarm gl g',
    PSOTrain.train G ur M wps cps g = Some (gen, swarm, gl, g') /\
    (gen <= PSOTrain.MAX_GENERATIONS)%Z /\
    ((gen < PSOTrain.MAX_GENERATIONS)%Z -> PSOTrain.raceCompleted gl = true) /\
    length swarm = Z.to_nat PSOTrain.SWARM_SIZE /\
    Forall (particle_shape policy_size) swarm /\
    length (PSOTrain.globalBestPosition gl) = policy_size.
Proof.
  intros G ur M wps cps g Hw Hc. unfold PSOTrain.train.
  destruct (init_swarm_shape G ur (Z.to_nat PSOTrain.SWARM_SIZE)
              (NUM_ANGLE_STATES * NUM_SPEED_STATES * NUM_ACTIONS)
              ltac:(unfold NUM_ANGLE_STATES, NUM_SPEED_STATES, NUM_ACTIONS; lia) g)
    as [swarm [g1 [Ei [L0 F0]]]].
  rewrite Ei.
  destruct (train_loop_shape G ur M wps cps Hw Hc (Z.to_nat PSOTrain.MAX_GENERATIONS) 0%Z
              swarm (PSOTrain.global_init (Z.to_nat (NUM_ANGLE_STATES * NUM_SPEED_STATES
                                                       * NUM_ACTIONS))) g1 F0
              ltac:(apply repeat_length)
              ltac:(unfold PSOTrain.MAX_GENERATIONS; lia))
    as [gen [sw [gl [g' [E [H1 [H2 [H3 [H4 H5]]]]]]]]].
  exists gen, sw, gl, g'. split; [exact E|]. split; [exact H1|].
  split; [intro Hlt; destruct H2; [lia|assumption]|].
  split; [rewrite H3; exact L0|]. split; assumption.
Qed.

Lemma train_bounded_shape_witness :
  ([mkV 0 0] <> [] /\ [mkV 100 0] <> []) /\
  exists gen swarm gl g',
    PSOTrain.train unit (fun lo _ g => (lo, g)) approx_math [mkV 0 0] [mkV 100 0] tt
      = Some (gen, swarm, gl, g') /\
    (gen <= PSOTrain.MAX_GENERATIONS)%Z /\
    ((gen < PSOTrain.MAX_GENERATIONS)%Z -> PSOTrain.raceCompleted gl = true) /\
    length swarm = Z.to_nat PSOTrain.SWARM_SIZE /\
    Forall (particle_shape policy_size) swarm /\
    length (PSOTrain.globalBestPosition gl) = policy_size.
Proof.
  assert (H1 : [mkV 0 0] <> []) by discriminate.
  assert (H2 : [mkV 100 0] <> []) by discriminate.
  split; [split; [exact H1|exact H2]|].
  exact (train_bounded_shape unit (fun lo _ g => (lo, g)) approx_math _ _ tt H1 H2).
Defined.

(* ------------------------------------------------------------------ *)
(** ** The pre-race simulation and the waypoint optimisation *)

Lemma fmul_0_r x : fmul x 0 = 0.
Proof. unfold fmul. rewrite (Qred_complete (x * 0) 0) by ring. reflexivity. Qed.

Lemma fadd_0_r_red x : fadd x 0 = Qred x.
Proof. unfold fadd. apply Qred_complete. ring. Qed.

Lemma fsub_Qred_l x y : fsub (Qred x) y = fsub x y.
Proof. unfold fsub. apply Qred_complete. rewrite Qred_correct. reflexivity. Qed.

Lemma distance_vadd_0 M p t : distance M (vadd p (mkV 0 0)) t = distance M p t.
Proof.
  unfold distance, vadd. cbn [vx vy]. rewrite !fadd_0_r_red, !fsub_Qred_l. reflexivity.
Qed.

Lemma isWithinBorders_clear M Border intersects pos rot speed borders :
  (forall pos rot b, In b borders -> intersects pos rot b = false) ->
  AIRace.isWithinBorders M Border intersects pos rot speed borders = (true, pos, speed).
Proof.
  intro H. induction borders as [|b rest IH]; cbn [AIRace.isWithinBorders]; [reflexivity|].
  rewrite (H pos rot b (or_introl eq_refl)).
  apply IH. intros pos' rot' b' Hb. apply H. right. exact Hb.
Qed.

Lemma sim_loop_stuck M Border intersects borders wps k q :
  (forall pos rot b, In b borders -> intersects pos rot b = false) ->
  nth_error wps k = Some q ->
  forall fuel pos rot totalTime collisionCount,
  flt (distance M pos q) 10 = false ->
  AIRace.sim_loop M Border intersects fuel wps borders pos rot k totalTime 0 collisionCount
    = AIRace.OutOfFuel.
Proof.
  intros Hb Hk. induction fuel as [|fuel IH]; intros pos rot totalTime coll Hd;
    cbn [AIRace.sim_loop]; [reflexivity|].
  rewrite Hk, Hd. cbv zeta. rewrite !fmul_0_r, isWithinBorders_clear by exact Hb.
  apply IH. rewrite distance_vadd_0. exact Hd.
Qed.

(** X: [simulateRun] with [aiSpeed = 0] never returns when the second
    waypoint is at least 10 away from the first and no border is hit: the
    sprite never moves, so the loop [while (currentWaypoint <
    waypoints.size())] runs forever, whatever number of passes is
    allowed. *)
Theorem simulateRun_zero_speed_stalls :
  forall M Border intersects borders p q rest fuel,
  (forall pos rot b, In b borders -> intersects pos rot b = false) ->
  ~ distance M p q < 10 ->
  AIRace.simulateRun M Border intersects fuel (p :: q :: rest) borders 0 = AIRace.OutOfFuel.
Proof.
  intros M Border intersects borders p q rest fuel Hb Hd.
  assert (Hq : flt (distance M p q) 10 = false).
  { destruct (flt (distance M p q) 10) eqn:E; [|reflexivity].
    apply flt_spec in E. contradiction. }
  unfold AIRace.simulateRun. cbn [vec_at Z.ltb Z.compare Z.to_nat nth_error].
  destruct (flt (distance M p p) 10) eqn:E0.
  - destruct fuel as [|fuel]; [reflexivity|]. cbn [AIRace.sim_loop nth_error].
    rewrite E0. apply (sim_loop_stuck M Border intersects borders (p :: q :: rest) 1 q Hb eq_refl). exact Hq.
  - apply (sim_loop_stuck M Border intersects borders (p :: q :: rest) 0 p Hb eq_refl). exact E0.
Qed.

Lemma simulateRun_zero_speed_stalls_witness :
  ((forall (pos : Vector2f) (rot : Q) (b : unit), In b [] -> false = false) /\
   ~ distance approx_math (mkV 0 0) (mkV 100 0) < 10) /\
  AIRace.simulateRun approx_math unit (fun _ _ _ => false) 50
    [mkV 0 0; mkV 100 0] [] 0 = AIRace.OutOfFuel.
Proof.
  assert (H1 : forall (pos : Vector2f) (rot : Q) (b : unit), In b [] -> false = false)
    by reflexivity.
  assert (H2 : ~ distance approx_math (mkV 0 0) (mkV 100 0) < 10)
    by (intro H; vm_compute in H; discriminate).
  split; [split; [exact H1|exact H2]|].
  exact (simulateRun_zero_speed_stalls approx_math unit (fun _ _ _ => false) []
           (mkV 0 0) (mkV 100 0) [] 50 H1 H2).
Defined.

Lemma TIME_STEP_eq : AIRace.TIME_STEP = 1 # 60.
Proof. reflexivity. Qed.

Lemma sim_loop_nonneg M Border intersects fuel wps borders :
  forall pos rot k totalTime speed collisionCount f,
  0 <= totalTime -> (0 <= collisionCount)%Z ->
  AIRace.sim_loop M Border intersects fuel wps borders pos rot k totalTime speed
    collisionCount = AIRace.Done f ->
  0 <= f.
Proof.
  induction fuel as [|fuel IH]; intros pos rot k tt speed coll f Ht Hc H;
    cbn [AIRace.sim_loop] in H; [discriminate|].
  destruct (nth_error wps k) as [target|].
  2:{ injection H as <-. rewrite fadd_eq, fmul_eq.
      assert (0 <= inject_Z coll) by (change 0 with (inject_Z 0); rewrite <- Zle_Qle; exact Hc).
      lra. }
  destruct (flt (distance M pos target) 10).
  - exact (IH _ _ _ _ _ _ _ Ht Hc H).
  - cbv zeta in H.
    match type of H with
    | context [AIRace.isWithinBorders ?a ?b ?c ?d ?e ?h ?i] =>
        destruct (AIRace.isWithinBorders a b c d e h i) as [[w pos'] sp']
    end.
    destruct w; (eapply IH; [|shelve|exact H]); rewrite fadd_eq, TIME_STEP_eq;
      rewrite ?fadd_eq, ?fmul_eq; lra.
    Unshelve. all: lia.
Qed.

(** X: a pre-race that finishes has a non-negative fitness: the time
    [totalTime] only grows by [TIME_STEP] (and [2 * TIME_STEP] on a
    collision) and the collision count only grows. *)
Theorem simulateRun_fitness_nonneg :
  forall M Border intersects fuel waypoints borders aiSpeed f,
  AIRace.simulateRun M Border intersects fuel waypoints borders aiSpeed = AIRace.Done f ->
  0 <= f.
Proof.
  intros M Border intersects fuel waypoints borders aiSpeed f H.
  unfold AIRace.simulateRun in H. destruct (vec_at waypoints 0); [|discriminate].
  eapply sim_loop_nonneg; [| |exact H]; [lra|lia].
Qed.

Lemma simulateRun_fitness_nonneg_witness :
  AIRace.simulateRun approx_math unit (fun _ _ _ => false) 100
    [mkV 0 0; mkV 30 0] [] 5 = AIRace.Done (1 # 12) /\ 0 <= 1 # 12.
Proof.
  assert (H : AIRace.simulateRun approx_math unit (fun _ _ _ => false) 100
                [mkV 0 0; mkV 30 0] [] 5 = AIRace.Done (1 # 12)) by (vm_compute; reflexivity).
  split; [exact H|].
  exact (simulateRun_fitness_nonneg approx_math unit (fun _ _ _ => false) 100 _ [] 5 _ H).
Defined.

Lemma mutate_waypoints_within G ur :
  (forall lo hi g, lo <= hi -> lo <= fst (ur lo hi g) <= hi) ->
  forall wps g m g', AIRace.mutate_waypoints G ur wps g = (m, g') ->
  Forall2 within_mutation wps m.
Proof.
  intros Hur wps. induction wps as [|wp rest IH]; intros g m g' H;
    cbn [AIRace.mutate_waypoints] in H.
  - injection H as <- _. constructor.
  - pose proof (Hur (-20) 20 g ltac:(lra)) as Hx.
    destruct (ur (-20) 20 g) as [dx g1]. cbn [fst] in Hx.
    pose proof (Hur (-20) 20 g1 ltac:(lra)) as Hy.
    destruct (ur (-20) 20 g1) as [dy g2]. cbn [fst] in Hy.
    destruct (AIRace.mutate_waypoints G ur rest g2) as [m' g3] eqn:E.
    injection H as <- _. constructor; [|exact (IH _ _ _ E)].
    unfold within_mutation. cbn [vx vy]. rewrite !fadd_eq. split; lra.
Qed.

Lemma optimize_loop_spec M Border intersects G ur fuel wps borders aiSpeed :
  (forall lo hi g, lo <= hi -> lo <= fst (ur lo hi g) <= hi) ->
  forall n best g r,
  AIRace.optimize_loop M Border intersects G ur fuel wps borders aiSpeed n best g
    = AIRace.Done r ->
  r = best \/
  (Forall2 within_mutation wps (snd r) /\
   AIRace.simulateRun M Border intersects fuel (snd r) borders aiSpeed = AIRace.Done (fst r) /\
   fst r < fst best).
Proof.
  intros Hur n. induction n as [|n IH]; intros best g r H;
    cbn [AIRace.optimize_loop] in H.
  - injection H as <-. left. reflexivity.
  - destruct (AIRace.mutate_waypoints G ur wps g) as [m g1] eqn:Em.
    destruct (AIRace.simulateRun M Border intersects fuel m borders aiSpeed) as [f| |] eqn:Es;
      cbn [AIRace.obind] in H; try discriminate.
    destruct (flt f (fst best)) eqn:Ef; apply IH in H.
    + apply flt_spec in Ef. right. destruct H as [->|[H1 [H2 H3]]].
      * cbn [fst snd]. split; [exact (mutate_waypoints_within G ur Hur _ _ _ _ Em)|].
        split; [exact Es|exact Ef].
      * cbn [fst] in H3. split; [exact H1|]. split; [exact H2|lra].
    + exact H.
Qed.

(** X: the waypoints returned by [optimizeWaypoints] are either the input
    waypoints (always so for [generations <= 0]) or a mutation of them,
    each coordinate moved by at most 20, whose pre-race fitness is
    strictly lower than that of the input waypoints (with a
    [uniform_real_distribution] that stays in its range). *)
Theorem optimizeWaypoints_result :
  forall M Border intersects G ur fuel waypoints borders aiSpeed generations g r,
  (forall lo hi g, lo <= hi -> lo <= fst (ur lo hi g) <= hi) ->
  AIRace.optimizeWaypoints M Border intersects G ur fuel waypoints borders aiSpeed
    generations g = AIRace.Done r ->
  exists f0,
    AIRace.simulateRun M Border intersects fuel waypoints borders aiSpeed = AIRace.Done f0 /\
    ((generations <= 0)%Z -> r = waypoints) /\
    (r = waypoints \/
     (Forall2 within_mutation waypoints r /\
      exists f, AIRace.simulateRun M Border intersects fuel r borders aiSpeed = AIRace.Done f /\
                f < f0)).
Proof.
  intros M Border intersects G ur fuel waypoints borders aiSpeed generations g r Hur H.
  unfold AIRace.optimizeWaypoints in H.
  destruct (AIRace.simulateRun M Border intersects fuel waypoints borders aiSpeed)
    as [f0| |] eqn:E0; cbn [AIRace.obind] in H; try discriminate.
  destruct (AIRace.optimize_loop M Border intersects G ur fuel waypoints borders aiSpeed
              (Z.to_nat generations) (f0, waypoints) g) as [best| |] eqn:El;
    cbn [AIRace.obind] in H; try discriminate.
  injection H as <-. exists f0. split; [reflexivity|]. split.
  - intro Hg. replace (Z.to_nat generations) with O in El by lia.
    cbn [AIRace.optimize_loop] in El. injection El as <-. reflexivity.
  - destruct (optimize_loop_spec M Border intersects G ur fuel waypoints borders aiSpeed Hur
                _ _ _ _ El) as [->|[H1 [H2 H3]]].
    + left. reflexivity.
    + right. split; [exact H1|]. exists (fst best). split; [exact H2|exact H3].
Qed.

Lemma optimizeWaypoints_result_witness :
  ((forall lo hi (n : nat), lo <= hi ->
      lo <= fst (if Nat.eqb n 0 then hi else lo, S n) <= hi) /\
   AIRace.optimizeWaypoints approx_math unit (fun _ _ _ => false) nat
     (fun lo hi n => (if Nat.eqb n 0 then hi else lo, S n))
     100 [mkV 0 0; mkV 30 0] [] 5 2 0%nat = AIRace.Done [mkV 20 (-20); mkV 10 (-20)]) /\
  exists f0,
    AIRace.simulateRun approx_math unit (fun _ _ _ => false) 100 [mkV 0 0; mkV 30 0] [] 5
      = AIRace.Done f0 /\
    ((2 <= 0)%Z -> [mkV 20 (-20); mkV 10 (-20)] = [mkV 0 0; mkV 30 0]) /\
    ([mkV 20 (-20); mkV 10 (-20)] = [mkV 0 0; mkV 30 0] \/
     (Forall2 within_mutation [mkV 0 0; mkV 30 0] [mkV 20 (-20); mkV 10 (-20)] /\
      exists f, AIRace.simulateRun approx_math unit (fun _ _ _ => false) 100
                  [mkV 20 (-20); mkV 10 (-20)] [] 5 = AIRace.Done f /\ f < f0)).
Proof.
  assert (H1 : forall lo hi (n : nat), lo <= hi ->
                 lo <= fst (if Nat.eqb n 0 then hi else lo, S n) <= hi)
    by (intros lo hi n H; destruct n; cbn; lra).
  assert (H2 : AIRace.optimizeWaypoints approx_math unit (fun _ _ _ => false) nat
                 (fun lo hi n => (if Nat.eqb n 0 then hi else lo, S n))
                 100 [mkV 0 0; mkV 30 0] [] 5 2 0%nat
               = AIRace.Done [mkV 20 (-20); mkV 10 (-20)]) by (vm_compute; reflexivity).
  split; [split; [exact H1|exact H2]|].
  exact (optimizeWaypoints_result approx_math unit (fun _ _ _ => false) nat
           (fun lo hi n => (if Nat.eqb n 0 then hi else lo, S n)) 100 _ [] 5 2 0%nat _ H1 H2).
Defined.

(* ------------------------------------------------------------------ *)
(** ** The GA training loop *)

Lemma initializeRandomPolicy_length G ur n :
  forall g, length (fst (PSOTrain.initializeRandomPolicy G ur n g)) = n.
Proof.
  induction n as [|n IH]; intro g; cbn [PSOTrain.initializeRandomPolicy]; [reflexivity|].
  destruct (ur (-1) 1 g) as [w g1].
  specialize (IH g1). destruct (PSOTrain.initializeRandomPolicy G ur n g1) as [ws g2].
  cbn [fst length] in *. f_equal. exact IH.
Qed.

Lemma new_car_fresh G ur wps g :
  wps <> [] ->
  exists c g', GAMain.new_car G ur wps g = Some (c, g') /\ fresh_car wps c.
Proof.
  intro H. destruct wps as [|p0 ps]; [contradiction|].
  unfold GAMain.new_car, GA.reset. cbn [vec_at Z.ltb Z.compare Z.to_nat nth_error
                                       GA.trainingTrackPoints GA.policyWeights].
  pose proof (initializeRandomPolicy_length G ur policy_size g) as L.
  destruct (PSOTrain.initializeRandomPolicy G ur policy_size g) as [ws g'].
  eexists _, g'. split; [reflexivity|]. exists ws. split; [exact L|reflexivity].
Qed.

Lemma init_population_fresh G ur wps :
  wps <> [] ->
  forall k g, exists pop g',
    GAMain.init_population G ur k wps g = Some (pop, g') /\
    length pop = k /\ Forall (fresh_car wps) pop.
Proof.
  intros H k. induction k as [|k IH]; intro g; cbn [GAMain.init_population].
  - exists [], g. repeat split. constructor.
  - destruct (new_car_fresh G ur wps g H) as [c [g1 [E1 F1]]]. rewrite E1.
    destruct (IH g1) as [cs [g' [E [L F]]]]. rewrite E.
    exists (c :: cs), g'. split; [reflexivity|].
    split; [cbn [length]; f_equal; exact L|constructor; assumption].
Qed.

Lemma fresh_car_tracked wps c :
  fresh_car wps c ->
  GA.trainingTrackPoints c = wps /\ length (GA.policyWeights c) = policy_size.
Proof.
  intros [ws [L E]]. unfold GA.make_car, GA.reset in E.
  cbn [GA.trainingTrackPoints GA.policyWeights] in E.
  destruct (vec_at wps 0); [|discriminate]. injection E as <-. split; [reflexivity|exact L].
Qed.

Lemma fresh_car_evaluate M wps c :
  fresh_car wps c ->
  exists r s c', GA.evaluate M c = Some (r, s, c') /\
    GA.trainingTrackPoints c' = wps /\ length (GA.policyWeights c') = policy_size.
Proof.
  intros Hf. pose proof (fresh_car_tracked wps c Hf) as [_ Lc].
  destruct Hf as [ws [L E]].
  pose proof (GA_evaluate_ok M wps ws c L E) as H.
  destruct (GA.evaluate M c) as [[[r s] c']|] eqn:Ev; [|contradiction].
  destruct H as [_ [_ [Ht _]]]. exists r, s, c'. split; [reflexivity|].
  split; [exact Ht|]. rewrite (GA_evaluate_weights M c r s c' Ev). exact Lc.
Qed.

Lemma vec_set_length {A} (l : list A) i x : length (GAMain.vec_set l i x) = length l.
Proof.
  revert i. induction l as [|h t IH]; intro i; [reflexivity|].
  destruct i as [|i]; cbn [GAMain.vec_set length]; [reflexivity|]. f_equal. apply IH.
Qed.

Lemma vec_set_nth_error_other {A} (l : list A) i x j :
  j <> i -> nth_error (GAMain.vec_set l i x) j = nth_error l j.
Proof.
  revert i j. induction l as [|h t IH]; intros i j Hne; [reflexivity|].
  destruct i as [|i], j as [|j]; cbn [GAMain.vec_set nth_error];
    [contradiction|reflexivity|reflexivity|apply IH; lia].
Qed.

Lemma vec_set_Forall {A} (P : A -> Prop) l i x :
  Forall P l -> P x -> Forall P (GAMain.vec_set l i x).
Proof.
  revert i. induction l as [|h t IH]; intros i Hl Hx; [constructor|].
  inversion Hl; subst. destruct i as [|i]; cbn; constructor; auto.
Qed.

Lemma evaluate_loop_spec M wps generation fuel :
  forall i pop perfs best rc,
  (0 <= i <= GAMain.POPULATION_SIZE)%Z ->
  (GAMain.POPULATION_SIZE <= i + Z.of_nat fuel)%Z ->
  length pop = Z.to_nat GAMain.POPULATION_SIZE -> length perfs = Z.to_nat i ->
  Forall (fun c => GA.trainingTrackPoints c = wps /\
                   length (GA.policyWeights c) = policy_size) pop ->
  (forall j c, (i <= Z.of_nat j)%Z -> nth_error pop j = Some c -> fresh_car wps c) ->
  exists pop' perfs' best' rc',
    GAMain.evaluate_loop M fuel i generation pop perfs best rc
      = Some (pop', perfs', best', rc') /\
    length pop' = Z.to_nat GAMain.POPULATION_SIZE /\
    length perfs' = Z.to_nat GAMain.POPULATION_SIZE /\
    Forall (fun c => GA.trainingTrackPoints c = wps /\
                     length (GA.policyWeights c) = policy_size) pop'.
Proof.
  induction fuel as [|fuel IH]; intros i pop perfs best rc Hi Hi' Hp Hpf Ht Hf;
    cbn [GAMain.evaluate_loop].
  - exists pop, perfs, best, rc. split; [reflexivity|].
    split; [exact Hp|]. split; [rewrite Hpf; f_equal; lia|exact Ht].
  - destruct (i <? GAMain.POPULATION_SIZE)%Z eqn:Ei.
    2:{ apply Z.ltb_ge in Ei. exists pop, perfs, best, rc. split; [reflexivity|].
        split; [exact Hp|]. split; [rewrite Hpf; f_equal; lia|exact Ht]. }
    apply Z.ltb_lt in Ei.
    assert (Ev : vec_at pop i = nth_error pop (Z.to_nat i)).
    { unfold vec_at. destruct (i <? 0)%Z eqn:E; [apply Z.ltb_lt in E; lia|reflexivity]. }
    destruct (nth_error pop (Z.to_nat i)) as [car|] eqn:En.
    2:{ apply nth_error_None in En. unfold GAMain.POPULATION_SIZE in *. lia. }
    rewrite Ev.
    destruct (fresh_car_evaluate M wps car (Hf (Z.to_nat i) car ltac:(lia) En))
      as [r [s [c' [E [Hc1 Hc2]]]]].
    rewrite E.
    apply IH; [lia|lia| |rewrite length_app, Hpf; cbn [length]; lia| |].
    + rewrite vec_set_length. exact Hp.
    + apply vec_set_Forall; [exact Ht|split; assumption].
    + intros j c Hj Hn. rewrite vec_set_nth_error_other in Hn by lia.
      exact (Hf j c ltac:(lia) Hn).
Qed.

Lemma fresh_child_fresh wps top child :
  Forall (fun c => GA.trainingTrackPoints c = wps /\
                   length (GA.policyWeights c) = policy_size) top ->
  fresh_child_of top child -> fresh_car wps child.
Proof.
  intros Ht [parent [p0 [ps [ws [Hin [Hp [Hl ->]]]]]]].
  destruct (proj1 (Forall_forall _ _) Ht parent Hin) as [Htr Hlen].
  exists ws. split; [rewrite Hl; exact Hlen|].
  rewrite <- Htr, Hp. reflexivity.
Qed.

Lemma Forall2_in_r {A B} (P : A -> B -> Prop) l1 l2 y :
  Forall2 P l1 l2 -> In y l2 -> exists x, In x l1 /\ P x y.
Proof.
  induction 1 as [|x y' l1 l2 Hp _ IH]; intros Hy; [contradiction|].
  destruct Hy as [<-|Hy]; [exists x; split; [left; reflexivity|exact Hp]|].
  destruct (IH Hy) as [x' [Hx Hx']]. exists x'. split; [right; exact Hx|exact Hx'].
Qed.

Lemma GA_train_loop_spec M G ur nrm ui sort_indices wps :
  wps <> [] ->
  (forall perfs, Permutation (seq 0 (length perfs)) (sort_indices perfs)) ->
  (forall lo hi g, (lo <= hi)%Z -> (lo <= fst (ui lo hi g) <= hi)%Z) ->
  forall fuel generation pop best rc g,
  length pop = Z.to_nat GAMain.POPULATION_SIZE -> Forall (fresh_car wps) pop ->
  (generation <= GAMain.MAX_GENERATIONS <= generation + Z.of_nat fuel)%Z ->
  exists gen pop' best' rc' g',
    GAMain.train_loop M G ur nrm ui sort_indices fuel generation pop best rc g
      = Some (gen, pop', best', rc', g') /\
    (gen <= GAMain.MAX_GENERATIONS)%Z /\
    (gen = GAMain.MAX_GENERATIONS \/ rc' = true) /\
    length pop' = Z.to_nat GAMain.POPULATION_SIZE /\ Forall (fresh_car wps) pop'.
Proof.
  intros Hw Hsort Hui. induction fuel as [|fuel IH];
    intros generation pop best rc g Hp Hf Hgen; cbn [GAMain.train_loop].
  - exists generation, pop, best, rc, g. split; [reflexivity|].
    split; [lia|]. split; [left; lia|]. split; assumption.
  - destruct ((generation <? GAMain.MAX_GENERATIONS)%Z && negb rc) eqn:Econd.
    2:{ exists generation, pop, best, rc, g. split; [reflexivity|]. split; [lia|].
        split; [|split; assumption].
        apply andb_false_iff in Econd as [Econd|Econd].
        - apply Z.ltb_ge in Econd. left; lia.
        - right. destruct rc; [reflexivity|discriminate]. }
    apply andb_true_iff in Econd as [Elt _]. apply Z.ltb_lt in Elt.
    destruct (evaluate_loop_spec M wps (generation + 1)%Z (Z.to_nat GAMain.POPULATION_SIZE)
                0%Z pop [] best rc
                ltac:(unfold GAMain.POPULATION_SIZE; lia)
                ltac:(unfold GAMain.POPULATION_SIZE; lia) Hp eq_refl
                ltac:(eapply Forall_impl; [|exact Hf]; apply fresh_car_tracked)
                ltac:(intros j c _ Hn; exact (proj1 (Forall_forall _ _) Hf c
                                                (nth_error_In _ _ Hn))))
      as [pop1 [perfs [best1 [rc1 [E1 [Lp [Lf Ht]]]]]]].
    rewrite E1.
    pose proof (Hsort perfs) as Hperm.
    assert (Hidx : Forall (fun k => (k < length pop1)%nat) (sort_indices perfs)).
    { apply Forall_forall. intros k Hk.
      apply (Permutation_in _ (Permutation_sym Hperm)), in_seq in Hk. lia. }
    assert (Htr1 : Forall (fun c => GA.trainingTrackPoints c <> []) pop1).
    { eapply Forall_impl; [|exact Ht]. intros c [Hc _]. rewrite Hc. exact Hw. }
    destruct (gather_top_spec pop1 GAMain.TOP_PERFORMERS (sort_indices perfs) Htr1 0%Z Hidx)
      as [top [Et Htop]].
    unfold GATrain.selectTopPerformers. rewrite Et.
    assert (Hlen_top : length top = 20%nat).
    { rewrite <- (Forall2_length Htop), length_firstn, <- (Permutation_length Hperm),
        length_seq, Lf. reflexivity. }
    assert (Htop_t : Forall (fun c => GA.trainingTrackPoints c = wps /\
                                      length (GA.policyWeights c) = policy_size) top).
    { apply Forall_forall. intros c Hc.
      destruct (Forall2_in_r _ _ _ _ Htop Hc) as [k [_ [c0 [Hk Hr]]]].
      rewrite (GA_reset_track _ _ Hr), (GA_reset_weights _ _ Hr).
      exact (proj1 (Forall_forall _ _) Ht c0 (nth_error_In _ _ Hk)). }
    assert (Hne : top <> []) by (intro E; rewrite E in Hlen_top; discriminate).
    assert (Htr : Forall (fun c => GA.trainingTrackPoints c <> []) top).
    { eapply Forall_impl; [|exact Htop_t]. intros c [Hc _]. rewrite Hc. exact Hw. }
    unfold GATrain.createNextGeneration.
    assert (Eps : (GAMain.POPULATION_SIZE <? 0)%Z = false) by reflexivity.
    rewrite Eps.
    destruct (next_generation_loop_children G ur nrm ui top
                (Z.to_nat GAMain.POPULATION_SIZE) Hne Htr Hui [] g (Forall_nil _))
      as [next [g1 [En [Ln Fn]]]].
    rewrite En.
    destruct (IH (generation + 1)%Z next best1 rc1 g1 ltac:(rewrite Ln; reflexivity)
                ltac:(eapply Forall_impl; [|exact Fn]; intros c Hc; exact (fresh_child_fresh wps top c Htop_t Hc))
                ltac:(lia))
      as [gen [pop' [best' [rc' [g' [E [H1 [H2 [H3 H4]]]]]]]]].
    exists gen, pop', best', rc', g'. split; [exact E|]. split; [exact H1|].
    split; [exact H2|]. split; assumption.
Qed.

(** X: for a non-empty track, an [std::sort] that leaves a permutation of
    the indices and a [uniform_int_distribution] that stays in its range,
    the training of the GA program never reads out of range and always
    stops: it ends after at most [MAX_GENERATIONS] generations, and before
    that only when some car completed the track; every generation keeps
    [POPULATION_SIZE] cars, each a fresh car on the track (first track
    point, heading 0, speed 0, counters 0) with a policy table of the
    standard length. *)
Theorem GA_train_bounded :
  forall M G ur nrm ui sort_indices wps g,
  wps <> [] ->
  (forall perfs, Permutation (seq 0 (length perfs)) (sort_indices perfs)) ->
  (forall lo hi g, (lo <= hi)%Z -> (lo <= fst (ui lo hi g) <= hi)%Z) ->
  exists gen population best raceCompleted g',
    GAMain.train M G ur nrm ui sort_indices wps g
      = Some (gen, population, best, raceCompleted, g') /\
    (gen <= GAMain.MAX_GENERATIONS)%Z /\
    ((gen < GAMain.MAX_GENERATIONS)%Z -> raceCompleted = true) /\
    length population = Z.to_nat GAMain.POPULATION_SIZE /\
    Forall (fresh_car wps) population.
Proof.
  intros M G ur nrm ui sort_indices wps g Hw Hsort Hui. unfold GAMain.train.
  destruct (init_population_fresh G ur wps Hw (Z.to_nat GAMain.POPULATION_SIZE) g)
    as [pop [g1 [E1 [L1 F1]]]].
  rewrite E1.
  destruct (new_car_fresh G ur wps g1 Hw) as [c [g2 [E2 _]]]. rewrite E2.
  destruct (GA_train_loop_spec M G ur nrm ui sort_indices wps Hw Hsort Hui
              (Z.to_nat GAMain.MAX_GENERATIONS) 0%Z pop GATrain.bestEver_init false g2
              L1 F1 ltac:(unfold GAMain.MAX_GENERATIONS; lia))
    as [gen [pop' [best' [rc' [g' [E [H1 [H2 [H3 H4]]]]]]]]].
  exists gen, pop', best', rc', g'. split; [exact E|]. split; [exact H1|].
  split; [intro Hlt; destruct H2; [lia|assumption]|]. split; assumption.
Qed.

Lemma GA_train_bounded_witness :
  ([mkV 0 0; mkV 100 0] <> [] /\
   (forall perfs : list (Q * bool), Permutation (seq 0 (length perfs)) (seq 0 (length perfs))) /\
   (forall lo hi (g : unit), (lo <= hi)%Z -> (lo <= fst (lo, g) <= hi)%Z)) /\
  exists gen population best raceCompleted g',
    GAMain.train approx_math unit (fun lo _ g => (lo, g)) (fun m _ g => (m, g))
      (fun lo _ g => (lo, g)) (fun perfs => seq 0 (length perfs)) [mkV 0 0; mkV 100 0] tt
      = Some (gen, population, best, raceCompleted, g') /\
    (gen <= GAMain.MAX_GENERATIONS)%Z /\
    ((gen < GAMain.MAX_GENERATIONS)%Z -> raceCompleted = true) /\
    length population = Z.to_nat GAMain.POPULATION_SIZE /\
    Forall (fresh_car [mkV 0 0; mkV 100 0]) population.
Proof.
  assert (H1 : [mkV 0 0; mkV 100 0] <> []) by discriminate.
  assert (H2 : forall perfs : list (Q * bool),
                 Permutation (seq 0 (length perfs)) (seq 0 (length perfs)))
    by (intro; apply Permutation_refl).
  assert (H3 : forall lo hi (g : unit), (lo <= hi)%Z -> (lo <= fst (lo, g) <= hi)%Z)
    by (intros; cbn; lia).
  split; [split; [exact H1|split; [exact H2|exact H3]]|].
  exact (GA_train_bounded approx_math unit (fun lo _ g => (lo, g)) (fun m _ g => (m, g))
           (fun lo _ g => (lo, g)) (fun perfs => seq 0 (length perfs)) _ tt H1 H2 H3).
Defined.

(* ------------------------------------------------------------------ *)
(** ** Unit conversions *)

(** X: [radToDeg] undoes [degToRad] (in exact arithmetic: [deg * PI / 180]
    then [* 180 / PI]). *)
Theorem radToDeg_degToRad : forall deg, radToDeg (degToRad deg) == deg.
Proof.
  intro deg. unfold radToDeg, degToRad, fdiv, fmul.
  rewrite !Qred_correct. unfold PI. field.
Qed.
